(** * StringZilla CPython binding ([python/lib.c]): string-slice collections

    A shallow embedding of the collection core of [python/lib.c]: the three
    layouts of [Strs], the layout converter, the splitter, sub-range
    extraction and the in-place permutation engine (order, sort, reverse,
    shuffle); and of the [Str] operations around it: items and slices,
    comparison, prefixes and suffixes, counting, concatenation and the
    scratch buffer.  The properties proved about them follow.

    Conventions of the embedding:
    - [size_t], [uint32_t] and [uint64_t] values are integers of [Z]; every
      operation of the source that can wrap is written with its modulus.
    - Array positions and counts that the source only increments below an
      array bound are natural numbers; arrays are lists read with [!!] and
      written with [<[_:=_]>], and an access outside the array is reported
      as a [Fault], since the C program has no defined behaviour there.
    - Pointers into a byte buffer are addresses of [Z]; [NULL] is [0].
    - Loops whose termination depends on the data take a [fuel] bound and
      report [OutOfFuel] when it is exhausted. *)

From Stdlib Require Import ZArith Lia.
From stdpp Require Import base tactics option list numbers sorting lexico.

Open Scope Z_scope.

(** ** Machine integers *)

Definition UINT32_MAX : Z := 4294967295.
Definition SIZE_MAX : Z := 18446744073709551615.
Definition PY_SSIZE_T_MAX : Z := 9223372036854775807.

(** Conversion of an integer to [uint32_t] and to [size_t] / [uint64_t]. *)
Definition to_u32 (x : Z) : Z := x mod (UINT32_MAX + 1).
Definition to_size_t (x : Z) : Z := x mod (SIZE_MAX + 1).

(** ** Outcomes of a run *)

Inductive fault : Type :=
| OutOfBounds       (* an array element outside the allocated block *)
| NullDereference   (* an access through a [NULL] pointer *)
| InactiveMember    (* a read of a union member that was never written *)
| DivisionByZero.   (* [%] with a zero divisor *)

Inductive outcome (A : Type) : Type :=
| Done (a : A)
| Fault (f : fault)
| OutOfFuel.

Arguments Done {A} a.
Arguments Fault {A} f.
Arguments OutOfFuel {A}.

#[global] Instance outcome_ret : MRet outcome := fun A a => Done a.
#[global] Instance outcome_bind : MBind outcome := fun A B f x =>
  match x with
  | Done a => f a
  | Fault e => Fault e
  | OutOfFuel => OutOfFuel
  end.
#[global] Instance outcome_fmap : FMap outcome := fun A B f x =>
  match x with
  | Done a => Done (f a)
  | Fault e => Fault e
  | OutOfFuel => OutOfFuel
  end.

(** [a[i]] as an rvalue and [a[i] = v] as a statement. *)
Definition load {A} (a : list A) (i : nat) : outcome A :=
  match a !! i with
  | Some v => Done v
  | None => Fault OutOfBounds
  end.

Definition store {A} (a : list A) (i : nat) (v : A) : outcome (list A) :=
  if decide (i < length a)%nat then Done (<[i:=v]> a) else Fault OutOfBounds.

(** A heap array reached through a pointer: [None] is [NULL], [Some a] a
    block holding the elements [a].  The index is a signed C integer. *)
Definition load_at {A} (p : option (list A)) (i : Z) : outcome A :=
  match p with
  | None => Fault NullDereference
  | Some a => if decide (0 ≤ i < Z.of_nat (length a)) then load a (Z.to_nat i)
              else Fault OutOfBounds
  end.

Definition store_at {A} (p : option (list A)) (i : Z) (v : A)
  : outcome (option (list A)) :=
  match p with
  | None => Fault NullDereference
  | Some a => if decide (0 ≤ i < Z.of_nat (length a))
              then Some <$> store a (Z.to_nat i) v
              else Fault OutOfBounds
  end.

Arguments load : simpl never.
Arguments store : simpl never.
Arguments load_at : simpl never.
Arguments store_at : simpl never.

(** ** The runtime around the module *)

(** Python objects are known by their identity. *)
Definition PyObject : Type := Z.

Inductive PyExc : Type :=
| PyExc_MemoryError
| PyExc_TypeError
| PyExc_IndexError
| PyExc_RuntimeError
| PyExc_UnicodeDecodeError.

(** The static [temporary_memory] view: whether [start] is non-[NULL], and
    its [length] in bytes. *)
Record temporary_memory_t : Type := mk_temporary_memory {
  tm_allocated : bool;
  tm_length : Z
}.

(** The state that the functions of the module share with the C library
    and the interpreter:
    - [ob_refcnt]: the reference count of every object;
    - [blocks]: the number of [malloc]ed blocks not yet [free]d;
    - [objects]: the number of objects allocated and not yet deallocated;
    - [err]: the interpreter's error indicator;
    - [oracle]: whether the next allocation requests succeed (a request
      beyond the end of the list succeeds);
    - [temporary_memory]: the static scratch buffer;
    - [rand_state]: the state of the generator behind [srand] and [rand]. *)
Record runtime : Type := mk_runtime {
  ob_refcnt : PyObject → Z;
  blocks : Z;
  objects : Z;
  err : option PyExc;
  oracle : list bool;
  temporary_memory : temporary_memory_t;
  rand_state : Z
}.

Definition set_ob_refcnt (f : PyObject → Z) (rt : runtime) : runtime :=
  mk_runtime f (blocks rt) (objects rt) (err rt) (oracle rt)
             (temporary_memory rt) (rand_state rt).
Definition set_blocks (b : Z) (rt : runtime) : runtime :=
  mk_runtime (ob_refcnt rt) b (objects rt) (err rt) (oracle rt)
             (temporary_memory rt) (rand_state rt).
Definition set_objects (b : Z) (rt : runtime) : runtime :=
  mk_runtime (ob_refcnt rt) (blocks rt) b (err rt) (oracle rt)
             (temporary_memory rt) (rand_state rt).
Definition set_err (e : option PyExc) (rt : runtime) : runtime :=
  mk_runtime (ob_refcnt rt) (blocks rt) (objects rt) e (oracle rt)
             (temporary_memory rt) (rand_state rt).
Definition set_oracle (o : list bool) (rt : runtime) : runtime :=
  mk_runtime (ob_refcnt rt) (blocks rt) (objects rt) (err rt) o
             (temporary_memory rt) (rand_state rt).
Definition set_temporary_memory (t : temporary_memory_t) (rt : runtime) : runtime :=
  mk_runtime (ob_refcnt rt) (blocks rt) (objects rt) (err rt) (oracle rt)
             t (rand_state rt).
Definition set_rand_state (r : Z) (rt : runtime) : runtime :=
  mk_runtime (ob_refcnt rt) (blocks rt) (objects rt) (err rt) (oracle rt)
             (temporary_memory rt) r.

(** The answer of the allocator to the next request. *)
Definition next_allocation (rt : runtime) : bool * runtime :=
  match oracle rt with
  | [] => (true, rt)
  | b :: o => (b, set_oracle o rt)
  end.

(** [malloc]: whether a block was obtained. *)
Definition malloc (rt : runtime) : bool * runtime :=
  let '(ok, rt) := next_allocation rt in
  (ok, if ok then set_blocks (blocks rt + 1) rt else rt).

(** [realloc(old, size)]: on failure the old block is left as it was. *)
Definition realloc (old_is_null : bool) (rt : runtime) : bool * runtime :=
  let '(ok, rt) := next_allocation rt in
  (ok, if ok && old_is_null then set_blocks (blocks rt + 1) rt else rt).

Definition free (rt : runtime) : runtime := set_blocks (blocks rt - 1) rt.

(** [PyObject_New] and [tp_alloc]: whether an object was obtained; a failed
    request leaves [MemoryError] in the error indicator. *)
Definition PyObject_New (rt : runtime) : bool * runtime :=
  let '(ok, rt) := next_allocation rt in
  (ok, if ok then set_objects (objects rt + 1) rt
       else set_err (Some PyExc_MemoryError) rt).

(** [Py_XDECREF] of a freshly created [Strs], whose only reference is the
    one being dropped: the object is deallocated.  [StrsType] has no
    [tp_dealloc], so nothing that the object points to is released. *)
Definition Py_XDECREF_new (rt : runtime) : runtime :=
  set_objects (objects rt - 1) rt.

Definition Py_INCREF (o : PyObject) (rt : runtime) : runtime :=
  set_ob_refcnt (λ x, if decide (x = o) then ob_refcnt rt x + 1 else ob_refcnt rt x) rt.

Definition PyErr_SetString (e : PyExc) (rt : runtime) : runtime :=
  set_err (Some e) rt.
Definition PyErr_NoMemory (rt : runtime) : runtime :=
  set_err (Some PyExc_MemoryError) rt.

(** The part of [PyInit_stringzilla] that sets up [temporary_memory]:
    [start = malloc(4096)] and [length = 4096 * (start != NULL)]. *)
Definition PyInit_stringzilla (rt : runtime) : runtime :=
  let '(ok, rt) := malloc rt in
  set_temporary_memory (mk_temporary_memory ok (4096 * (if ok then 1 else 0))) rt.

(** A runtime in which nothing is allocated yet, every object has one
    reference and no allocation request will fail. *)
Definition fresh_runtime : runtime :=
  mk_runtime (λ _, 1) 0 0 None [] (mk_temporary_memory false 0) 0.

(** ** Data model *)

(** [sz_string_view_t]: a [{start, length}] pair. *)
Module sz_string_view.
Record t : Type := mk { start : Z; length : Z }.
End sz_string_view.
Abbreviation sz_string_view_t := sz_string_view.t.

#[global] Instance sz_string_view_eq_dec : EqDecision sz_string_view_t.
Proof. solve_decision. Defined.

(** [sz_sorted_idx_t] is an unsigned 64-bit index into the parts array. *)
Abbreviation sz_sorted_idx_t := nat (only parsing).

(** [struct consecutive_slices_32bit_t] and [consecutive_slices_64bit_t]:
    the two differ in the width of the elements of [end_offsets] only. *)
Module consecutive.
Record t : Type := mk {
  count : Z;
  separator_length : Z;
  parent : PyObject;
  start : Z;
  end_offsets : option (list Z)
}.
End consecutive.
Abbreviation consecutive_slices_t := consecutive.t.

(** [struct reordered_slices_t]. *)
Module reordered.
Record t : Type := mk {
  count : Z;
  parent : PyObject;
  parts : option (list sz_string_view_t)
}.
End reordered.
Abbreviation reordered_slices_t := reordered.t.

(** [Strs]: the [type] tag together with the member of the [data] union
    that the tag selects.  No member belongs to [STRS_MULTI_SOURCE]. *)
Inductive Strs : Type :=
| STRS_CONSECUTIVE_32 (consecutive_32bit : consecutive_slices_t)
| STRS_CONSECUTIVE_64 (consecutive_64bit : consecutive_slices_t)
| STRS_REORDERED (reordered : reordered_slices_t)
| STRS_MULTI_SOURCE.

(** ** Accessors *)

(** What a getter writes through [parent], [start] and [length]. *)
Record part_t : Type := mk_part {
  part_parent : PyObject;
  part_start : Z;
  part_length : Z
}.

(** [str_at_offset_consecutive_32bit] and [_64bit], with [conv] the
    conversion to the element type.  The difference of the two offsets is
    taken in the element type, and the subtraction of the separator in
    [size_t]. *)
Definition str_at_offset_consecutive (conv : Z → Z)
    (strs : consecutive_slices_t) (i count : Z) : outcome part_t :=
  start_offset ← (if decide (i = 0) then Done 0
                  else load_at (consecutive.end_offsets strs) (i - 1));
  end_offset ← load_at (consecutive.end_offsets strs) i;
  Done (mk_part (consecutive.parent strs)
          (consecutive.start strs + start_offset)
          (to_size_t (conv (end_offset - start_offset)
                      - consecutive.separator_length strs
                        * (if decide (i + 1 ≠ count) then 1 else 0)))).

Definition str_at_offset_consecutive_32bit := str_at_offset_consecutive to_u32.
Definition str_at_offset_consecutive_64bit := str_at_offset_consecutive to_size_t.

Definition str_at_offset_reordered (strs : reordered_slices_t) (i count : Z)
  : outcome part_t :=
  p ← load_at (reordered.parts strs) i;
  Done (mk_part (reordered.parent strs) (sz_string_view.start p)
                (sz_string_view.length p)).

(** [str_at_offset_getter] followed by the call of the getter it returns;
    [None] is the [NULL] getter of an unsupported layout. *)
Definition str_at_offset_getter (strs : Strs)
  : option (Z → Z → outcome part_t) :=
  match strs with
  | STRS_CONSECUTIVE_32 d => Some (str_at_offset_consecutive_32bit d)
  | STRS_CONSECUTIVE_64 d => Some (str_at_offset_consecutive_64bit d)
  | STRS_REORDERED d => Some (str_at_offset_reordered d)
  | STRS_MULTI_SOURCE => None
  end.

Definition Strs_len (self : Strs) : Z :=
  match self with
  | STRS_CONSECUTIVE_32 d => consecutive.count d
  | STRS_CONSECUTIVE_64 d => consecutive.count d
  | STRS_REORDERED d => reordered.count d
  | STRS_MULTI_SOURCE => 0
  end.

(** The [i]-th part of a collection as its getter reports it; [None] when
    the layout has no getter. *)
Definition observable_part (strs : Strs) (i : Z) : option (outcome part_t) :=
  getter ← str_at_offset_getter strs;
  Some (getter i (Strs_len strs)).

(** The block behind a pointer has room for [n] elements. *)
Definition block_holds {A} (p : option (list A)) (n : Z) : Prop :=
  0 ≤ n ≤ Z.of_nat (length (default [] p)).

(** ** Layout converter *)

(** The contents of a block that [malloc] has just returned are not
    specified; [fresh_block] stands for them. *)
Definition fresh_block {A} (junk : A) (n : Z) : list A := replicate (Z.to_nat n) junk.

(** [for (size_t i = 0; i < count; ++i)] of the converter, entered at [i]
    with [todo] iterations left. *)
Fixpoint populate_parts (getter : Z → Z → outcome part_t) (count : Z)
    (todo : nat) (i : Z) (new_parts : list sz_string_view_t)
  : outcome (list sz_string_view_t) :=
  match todo with
  | O => Done new_parts
  | S todo' =>
      p ← getter i count;
      new_parts1 ← store new_parts (Z.to_nat i)
                     (sz_string_view.mk (part_start p) (part_length p));
      populate_parts getter count todo' (i + 1) new_parts1
  end.

(** [prepare_strings_for_reordering]: the returned [sz_bool_t], the
    collection as the call leaves it, and the runtime. *)
Definition prepare_strings_for_reordering (rt : runtime) (strs : Strs)
  : outcome (bool * Strs * runtime) :=
  let consecutive (d : consecutive_slices_t) (getter : Z → Z → outcome part_t) :=
    let count := consecutive.count d in
    let old_buffer := consecutive.end_offsets d in
    let parent := consecutive.parent d in
    let '(ok, rt) := malloc rt in
    if negb ok then
      Done (false, strs, PyErr_SetString PyExc_MemoryError rt)
    else
      new_parts ← populate_parts getter count (Z.to_nat count) 0
                    (fresh_block (sz_string_view.mk 0 0) count);
      let rt := if old_buffer is Some _ then free rt else rt in
      Done (true, STRS_REORDERED (reordered.mk count parent (Some new_parts)), rt) in
  match strs with
  | STRS_CONSECUTIVE_32 d => consecutive d (str_at_offset_consecutive_32bit d)
  | STRS_CONSECUTIVE_64 d => consecutive d (str_at_offset_consecutive_64bit d)
  | STRS_REORDERED _ => Done (true, strs, rt)
  | STRS_MULTI_SOURCE => Done (true, strs, rt)
  end.

(** ** Sub-range extraction *)

(** [for (size_t i = 0; i != to->count; ++i)
       to->end_offsets[i] = from->end_offsets[i + start] - first_offset;] *)
Fixpoint rebase_offsets (conv : Z → Z) (from : option (list Z))
    (start first_offset : Z) (todo : nat) (i : Z) (to : option (list Z))
  : outcome (option (list Z)) :=
  match todo with
  | O => Done to
  | S todo' =>
      e ← load_at from (i + start);
      to1 ← store_at to i (conv (e - first_offset));
      rebase_offsets conv from start first_offset todo' (i + 1) to1
  end.

(** The [consecutive_logic] macro of [Strs_subscript].  [PyErr_NoMemory]
    returns [NULL], so the test [to->end_offsets == NULL && PyErr_NoMemory()]
    never holds: after a failed [malloc] the error indicator is set and the
    function goes on. *)
Definition consecutive_logic (conv : Z → Z) (rt : runtime)
    (from : consecutive_slices_t) (count start stop : Z)
  : outcome (consecutive_slices_t * runtime) :=
  let to_count := to_size_t (stop - start) in
  first ← str_at_offset_consecutive conv from start count;
  let to_parent := part_parent first in
  let to_start := part_start first in
  let first_offset := conv (to_start - consecutive.start from) in
  let '(ok, rt) := malloc rt in
  let rt := if ok then rt else PyErr_NoMemory rt in
  let block := if ok then Some (fresh_block 0 to_count) else None in
  offsets ← rebase_offsets conv (consecutive.end_offsets from) start first_offset
              (Z.to_nat to_count) 0 block;
  Done (consecutive.mk to_count (consecutive.separator_length from) to_parent
                       to_start offsets,
        Py_INCREF to_parent rt).

(** [memcpy(to, from + start, sizeof(sz_string_view_t) * count)]. *)
Definition memcpy_parts (to from : option (list sz_string_view_t)) (start count : Z)
  : outcome (option (list sz_string_view_t)) :=
  if decide (count = 0) then Done to
  else match to, from with
       | Some t, Some f =>
           if decide (0 ≤ start ∧ start + count ≤ Z.of_nat (length f)
                      ∧ count ≤ Z.of_nat (length t))
           then Done (Some (take (Z.to_nat count) (drop (Z.to_nat start) f)
                            ++ drop (Z.to_nat count) t))
           else Fault OutOfBounds
       | _, _ => Fault NullDereference
       end.

(** The slice branch of [Strs_subscript], after [PySlice_Unpack] and
    [PySlice_AdjustIndices] have produced [start], [stop] and [step].
    The result is the new collection, or [None] for a [NULL] return. *)
Definition Strs_subscript (rt : runtime) (self : Strs) (start stop step : Z)
  : outcome (option Strs * runtime) :=
  let count := Strs_len self in
  if decide (step ≠ 1) then Done (None, PyErr_SetString PyExc_IndexError rt)
  else
    let '(ok, rt) := PyObject_New rt in
    if negb ok then Fault NullDereference
    else
      match self with
      | STRS_CONSECUTIVE_32 from =>
          '(to, rt) ← consecutive_logic to_u32 rt from count start stop;
          Done (Some (STRS_CONSECUTIVE_32 to), rt)
      | STRS_CONSECUTIVE_64 from =>
          '(to, rt) ← consecutive_logic to_size_t rt from count start stop;
          Done (Some (STRS_CONSECUTIVE_64 to), rt)
      | STRS_REORDERED from =>
          let to_count := to_size_t (stop - start) in
          let '(ok, rt) := malloc rt in
          let rt := if ok then rt else PyErr_NoMemory rt in
          let block := if ok then Some (fresh_block (sz_string_view.mk 0 0) to_count)
                       else None in
          parts ← memcpy_parts block (reordered.parts from) start to_count;
          if decide (reordered.parent from = 0) then Fault NullDereference
          else
            Done (Some (STRS_REORDERED
                          (reordered.mk to_count (reordered.parent from) parts)),
                  Py_INCREF (reordered.parent from) rt)
      | STRS_MULTI_SOURCE =>
          Done (None, PyErr_SetString PyExc_TypeError rt)
      end.

(** ** Splitter *)

(** Byte memory: the byte stored at every address. *)
Definition memory : Type := Z → Z.

(** The [len] bytes at address [p]. *)
Definition bytes_at (m : memory) (p len : Z) : list Z :=
  (λ k : nat, m (p + Z.of_nat k)) <$> seq 0 (Z.to_nat len).

(** The bytes that a view spans. *)
Definition view_bytes (m : memory) (v : sz_string_view_t) : list Z :=
  bytes_at m (sz_string_view.start v) (sz_string_view.length v).

(** The search of [sz_find] through the candidate positions, at most
    [positions] of them starting at [p]. *)
Fixpoint sz_find_scan (m : memory) (needle : list Z) (n_length : Z) (p : Z)
    (positions : nat) : option Z :=
  match positions with
  | O => None
  | S positions' =>
      if decide (bytes_at m p n_length = needle) then Some p
      else sz_find_scan m needle n_length (p + 1) positions'
  end.

(** Modelled from the spec: [sz_find] of [stringzilla.h], which is not part
    of [python/lib.c].  Section 6 gives its contract:
    [find(haystack, needle) → offset|not-found]; the model returns the
    address of the first occurrence of the needle in the haystack, and
    [None] (the [NULL] pointer of the C function) when there is none.  An
    empty needle is reported as not found. *)
Definition sz_find (m : memory) (haystack h_length needle n_length : Z) : option Z :=
  if decide (h_length < n_length ∨ n_length = 0) then None
  else sz_find_scan m (bytes_at m needle n_length) n_length haystack
         (Z.to_nat (h_length - n_length + 1)).

(** The local variables of [Str_split_] that its loop updates. *)
Record split_locals : Type := mk_split_locals {
  offsets_endings : option (list Z);
  offsets_capacity : Z;
  offsets_count : Z;
  last_start : Z
}.

(** The block that a successful [realloc] to [capacity] elements returns:
    the old elements, followed by unspecified ones. *)
Definition grown_block (old : option (list Z)) (capacity : Z) : list Z :=
  let kept := take (Z.to_nat capacity) (default [] old) in
  kept ++ fresh_block 0 (capacity - Z.of_nat (length kept)).

(** "Reallocate offsets array if needed": the capacity, the block and the
    runtime after the step.  After a failed [realloc] the old block is
    freed and the pointer is [NULL]. *)
Definition reallocate_offsets (l : split_locals) (rt : runtime)
  : Z * option (list Z) * runtime :=
  if decide (offsets_capacity l ≤ offsets_count l) then
    let capacity := to_size_t ((offsets_capacity l + 1) * 2) in
    let '(ok, rt) := realloc (bool_decide (offsets_endings l = None)) rt in
    if ok then (capacity, Some (grown_block (offsets_endings l) capacity), rt)
    else (capacity, None, if offsets_endings l is Some _ then free rt else rt)
  else (offsets_capacity l, offsets_endings l, rt).

(** The [while (last_start <= text.length && offsets_count < maxsplit)] loop.
    [wide] is [text.length >= UINT32_MAX].  The result is [None] when the
    function has returned [NULL] from inside the loop. *)
Fixpoint Str_split_loop (fuel : nat) (m : memory)
    (text separator : sz_string_view_t) (maxsplit : Z) (wide : bool)
    (rt : runtime) (l : split_locals)
  : outcome (option split_locals * runtime) :=
  match fuel with
  | O => OutOfFuel
  | S fuel' =>
      let text_start := sz_string_view.start text in
      let text_length := sz_string_view.length text in
      let separator_length := sz_string_view.length separator in
      if decide (last_start l ≤ text_length ∧ offsets_count l < to_size_t maxsplit)
      then
        let found := sz_find m (text_start + last_start l)
                       (to_size_t (text_length - last_start l))
                       (sz_string_view.start separator) separator_length in
        let offset_in_remaining :=
          match found with
          | Some p => to_size_t (p - text_start - last_start l)
          | None => to_size_t (text_length - last_start l)
          end in
        let '(capacity, endings, rt) := reallocate_offsets l rt in
        (* If the memory allocation has failed - discard the response *)
        match endings with
        | None => Done (None, PyErr_NoMemory (Py_XDECREF_new rt))
        | Some _ =>
            let will_continue := if found is Some _ then 1 else 0 in
            let next_offset :=
              to_size_t (last_start l + offset_in_remaining
                         + separator_length * will_continue) in
            endings1 ← store_at endings (offsets_count l)
                         (if wide then to_size_t next_offset else to_u32 next_offset);
            Str_split_loop fuel' m text separator maxsplit wide rt
              (mk_split_locals endings1 capacity
                 (to_size_t (offsets_count l + 1))
                 (to_size_t (last_start l + offset_in_remaining + separator_length)))
        end
      else Done (Some l, rt)
  end.

(** [Str_split_]: the new collection, or [None] for a [NULL] return. *)
Definition Str_split_ (fuel : nat) (m : memory) (rt : runtime) (parent : PyObject)
    (text separator : sz_string_view_t) (keepseparator : Z) (maxsplit : Z)
  : outcome (option Strs * runtime) :=
  let '(ok, rt) := PyObject_New rt in
  if negb ok then Done (None, rt)
  else
    let wide := bool_decide (UINT32_MAX ≤ sz_string_view.length text) in
    let separator_length :=
      to_size_t ((if decide (keepseparator = 0) then 1 else 0)
                 * sz_string_view.length separator) in
    '(l, rt) ← Str_split_loop fuel m text separator maxsplit wide rt
                 (mk_split_locals None 0 0 0);
    match l with
    | None => Done (None, rt)
    | Some l =>
        let d := consecutive.mk (offsets_count l) separator_length parent
                   (sz_string_view.start text) (offsets_endings l) in
        Done (Some (if wide then STRS_CONSECUTIVE_64 d else STRS_CONSECUTIVE_32 d),
              Py_INCREF parent rt)
    end.

(** The bytes of all the parts of a collection, in order: the list has
    [Strs_len] entries when every getter call succeeds, and is [None]
    otherwise. *)
Definition parts_bytes (m : memory) (strs : Strs) : option (list (list Z)) :=
  mapM (λ i : nat,
          match observable_part strs (Z.of_nat i) with
          | Some (Done p) => Some (bytes_at m (part_start p) (part_length p))
          | _ => None
          end)
       (seq 0 (Z.to_nat (Strs_len strs))).

(** The parts joined again, with [sep] between consecutive parts. *)
Fixpoint join_parts (sep : list Z) (parts : list (list Z)) : list Z :=
  match parts with
  | [] => []
  | [p] => p
  | p :: rest => p ++ sep ++ join_parts sep rest
  end.

(** ** Permutation engine: [apply_order] *)

(** The inner [while (i != (j = (size_t)order[k]))] loop.  It returns the
    arrays and the slot [k] at which the cycle closed. *)
Fixpoint apply_order_cycle (fuel : nat) (i : nat)
    (array : list sz_string_view_t) (order : list sz_sorted_idx_t) (k : nat)
  : outcome (list sz_string_view_t * list sz_sorted_idx_t * nat) :=
  match fuel with
  | O => OutOfFuel
  | S fuel' =>
      j ← load order k;
      if decide (i = j) then Done (array, order, k)
      else
        aj ← load array j;
        array1 ← store array k aj;
        order1 ← store order k k;
        apply_order_cycle fuel' i array1 order1 j
  end.

(** The outer [for (size_t i = 0; i < length; ++i)] loop, entered at [i]
    with [todo = length - i] iterations left. *)
Fixpoint apply_order_from (fuel : nat) (todo : nat) (i : nat)
    (array : list sz_string_view_t) (order : list sz_sorted_idx_t)
  : outcome (list sz_string_view_t * list sz_sorted_idx_t) :=
  match todo with
  | O => Done (array, order)
  | S todo' =>
      oi ← load order i;
      if decide (i = oi) then apply_order_from fuel todo' (S i) array order
      else
        temp ← load array i;
        '(array1, order1, k) ← apply_order_cycle fuel i array order i;
        array2 ← store array1 k temp;
        order2 ← store order1 k k;
        apply_order_from fuel todo' (S i) array2 order2
  end.

Definition apply_order (fuel : nat) (array : list sz_string_view_t)
    (order : list sz_sorted_idx_t) (length : nat)
  : outcome (list sz_string_view_t * list sz_sorted_idx_t) :=
  apply_order_from fuel length 0%nat array order.

(** ** Permutation engine: [reverse_offsets] *)

(** [for (i = 0, j = length - 1; i < j; i++, j--)], entered with the
    current [i] and [j]. *)
Fixpoint reverse_offsets_loop (fuel : nat) (i j : Z) (array : list nat)
  : outcome (list nat) :=
  if decide (i < j) then
    match fuel with
    | O => OutOfFuel
    | S fuel' =>
        temp ← load_at (Some array) i;
        aj ← load_at (Some array) j;
        array1 ← store array (Z.to_nat i) aj;
        array2 ← store array1 (Z.to_nat j) temp;
        reverse_offsets_loop fuel' (to_size_t (i + 1)) (to_size_t (j - 1)) array2
    end
  else Done array.

(** [reverse_offsets].  The loop makes at most [length / 2] swaps before
    [i] meets [j] or an access leaves the array. *)
Definition reverse_offsets (array : list nat) (length : Z) : outcome (list nat) :=
  reverse_offsets_loop (S (Z.to_nat length)) 0 (to_size_t (length - 1)) array.

(** ** Permutation engine: the sort primitive *)

(** Modelled from the spec: the three-way comparator behind [sz_sort], of
    [stringzilla.h].  Section 4.3: lexicographic byte-wise comparison,
    shorter-is-smaller on common-prefix ties. *)
Fixpoint sz_order (a b : list Z) : comparison :=
  match a, b with
  | [], [] => Eq
  | [], _ :: _ => Lt
  | _ :: _, [] => Gt
  | x :: a', y :: b' =>
      match x ?= y with
      | Eq => sz_order a' b'
      | c => c
      end
  end.

(** [a] is not greater than [b]. *)
Definition bytes_le (a b : list Z) : Prop := sz_order a b ≠ Gt.

#[global] Instance bytes_le_dec a b : Decision (bytes_le a b).
Proof. unfold bytes_le. destruct (sz_order a b); [left|left|right]; congruence. Defined.

(** The parts that [order] selects from [parts], in that order. *)
Definition parts_in_order (parts : list sz_string_view_t) (order : list nat)
  : list sz_string_view_t :=
  omap (parts !!.) order.

(** Modelled from the spec: [sz_sort] of [stringzilla.h], which is not part
    of [python/lib.c].  Section 4.3, step 3: a comparison-based sort over
    [order], with indirection through the parts array (reached through the
    [handle], [get_start] and [get_length] of the sequence), producing a
    permutation such that [parts[order[0]] ≤ parts[order[1]] ≤ …] under the
    comparator; stability is not promised.  A sort primitive is any
    function with this contract. *)
Class sz_sort_t : Type := {
  sz_sort : memory → list sz_string_view_t → list nat → list nat;
  sz_sort_permutes : ∀ m parts order, sz_sort m parts order ≡ₚ order;
  sz_sort_sorts : ∀ m parts order,
    (∀ i, i ∈ order → (i < length parts)%nat) →
    Sorted bytes_le (view_bytes m <$> parts_in_order parts (sz_sort m parts order))
}.

(** The sort primitive used where a concrete one is needed: a merge sort
    of the indices that compares the bytes of the parts they select. *)
Definition index_le (m : memory) (parts : list sz_string_view_t) (i j : nat) : Prop :=
  bytes_le (default [] (view_bytes m <$> parts !! i))
           (default [] (view_bytes m <$> parts !! j)).

#[global] Instance index_le_dec m parts i j : Decision (index_le m parts i j).
Proof. unfold index_le. apply _. Defined.

Definition sz_sort_by_merging (m : memory) (parts : list sz_string_view_t)
    (order : list nat) : list nat :=
  merge_sort (index_le m parts) order.


(** [parts_get_start] and [parts_get_length], the accessors handed to the
    sort primitive. *)
Definition parts_get_start (handle : list sz_string_view_t) (i : nat) : outcome Z :=
  sz_string_view.start <$> load handle i.
Definition parts_get_length (handle : list sz_string_view_t) (i : nat) : outcome Z :=
  sz_string_view.length <$> load handle i.

(** ** Permutation engine: [Strs_sort_], [Strs_sort] and [Strs_order] *)

Definition PyErr_Format (e : PyExc) (rt : runtime) : runtime := set_err (Some e) rt.

(** [Strs_sort_]: [None] when it returns [0]; otherwise the parts array,
    the sorted order and the count.  The collection is returned as the
    layout conversion leaves it. *)
Definition Strs_sort_ `{sz_sort_t} (m : memory) (rt : runtime) (self : Strs)
  : outcome (option (list sz_string_view_t * list nat * Z) * Strs * runtime) :=
  '(ok, self, rt) ← prepare_strings_for_reordering rt self;
  if negb ok then Done (None, self, PyErr_Format PyExc_TypeError rt)
  else
    match self with
    | STRS_REORDERED d =>
        let count := reordered.count d in
        (* Allocate temporary memory to store the ordering offsets *)
        let memory_needed := to_size_t (8 * count) in
        let tm := temporary_memory rt in
        let '(tm, rt) :=
          if decide (tm_length tm < memory_needed) then
            let '(ok, rt) := realloc (negb (tm_allocated tm)) rt in
            (mk_temporary_memory ok memory_needed, rt)
          else (tm, rt) in
        let rt := set_temporary_memory tm rt in
        if negb (tm_allocated tm) then
          Done (None, self, PyErr_Format PyExc_MemoryError rt)
        else
          parts ← match reordered.parts d with
                  | Some parts => Done parts
                  | None => if decide (count = 0) then Done []
                            else Fault NullDereference
                  end;
          let order := seq 0 (Z.to_nat count) in
          Done (Some (parts, sz_sort m parts order, count), self, rt)
    | _ => Fault InactiveMember
    end.

(** The collection with its parts array overwritten in place. *)
Definition with_parts (self : Strs) (parts : list sz_string_view_t) : Strs :=
  match self with
  | STRS_REORDERED d =>
      STRS_REORDERED (reordered.mk (reordered.count d) (reordered.parent d)
                        (if reordered.parts d is Some _ then Some parts else None))
  | _ => self
  end.

(** [Strs_sort], from the call of [Strs_sort_] on: whether [None] was
    returned (and not [NULL]), the collection, and the runtime. *)
Definition Strs_sort `{sz_sort_t} (m : memory) (rt : runtime) (self : Strs)
    (reverse : bool) : outcome (bool * Strs * runtime) :=
  '(sorted, self, rt) ← Strs_sort_ m rt self;
  match sorted with
  | None => Done (false, self, rt)
  | Some (parts, order, count) =>
      order ← (if reverse then reverse_offsets order count else Done order);
      '(parts, _) ← apply_order (Z.to_nat count) parts order (Z.to_nat count);
      Done (true, with_parts self parts, rt)
  end.

(** The loop of [Strs_order] that fills the tuple, entered at [i] with
    [todo] elements left: [None] when [PyLong_FromUnsignedLong] fails. *)
Fixpoint order_tuple (todo : nat) (i : nat) (order : list nat) (rt : runtime)
  : outcome (option (list Z) * runtime) :=
  match todo with
  | O => Done (Some [], rt)
  | S todo' =>
      oi ← load order i;
      let '(ok, rt) := PyObject_New rt in
      if negb ok then
        Done (None, set_objects (objects rt - 1 - Z.of_nat i)
                      (PyErr_SetString PyExc_RuntimeError rt))
      else
        '(rest, rt) ← order_tuple todo' (S i) order rt;
        Done (match rest with
              | Some t => Some (Z.of_nat oi :: t)
              | None => None
              end, rt)
  end.

(** [Strs_order], from the call of [Strs_sort_] on: the tuple of indices,
    or [None] for a [NULL] return. *)
Definition Strs_order `{sz_sort_t} (m : memory) (rt : runtime) (self : Strs)
    (reverse : bool) : outcome (option (list Z) * Strs * runtime) :=
  '(sorted, self, rt) ← Strs_sort_ m rt self;
  match sorted with
  | None => Done (None, self, rt)
  | Some (parts, order, count) =>
      order ← (if reverse then reverse_offsets order count else Done order);
      let '(ok, rt) := PyObject_New rt in
      if negb ok then Done (None, self, PyErr_SetString PyExc_RuntimeError rt)
      else
        '(tuple, rt) ← order_tuple (Z.to_nat count) 0 order rt;
        Done (tuple, self, rt)
  end.

(** ** Shuffle *)

(** The generator of the C library: [srand] maps a seed to a generator
    state, and [rand] maps a state to the number drawn and the next state. *)
Class libc_rand_t : Type := {
  srand : Z → Z;
  rand : Z → Z * Z
}.

(** [for (size_t i = count - 1; i > 0; --i)], entered with the current [i].
    The number drawn is converted to [size_t] before [%]. *)
Fixpoint shuffle_loop `{libc_rand_t} (fuel : nat) (i : Z)
    (parts : option (list sz_string_view_t)) (rt : runtime)
  : outcome (option (list sz_string_view_t) * runtime) :=
  if decide (0 < i) then
    match fuel with
    | O => OutOfFuel
    | S fuel' =>
        let '(r, state) := rand (rand_state rt) in
        let rt := set_rand_state state rt in
        let divisor := to_size_t (i + 1) in
        if decide (divisor = 0) then Fault DivisionByZero
        else
          let j := to_size_t r `mod` divisor in
          temp ← load_at parts i;
          pj ← load_at parts j;
          parts1 ← store_at parts i pj;
          parts2 ← store_at parts1 j temp;
          shuffle_loop fuel' (to_size_t (i - 1)) parts2 rt
    end
  else Done (parts, rt).

(** [Strs_shuffle] with the seed it has settled on, from the layout change
    on: whether [None] was returned (and not [NULL]), the collection, and
    the runtime.  The seed is held in an [unsigned int]. *)
Definition Strs_shuffle `{libc_rand_t} (rt : runtime) (self : Strs) (seed : Z)
  : outcome (bool * Strs * runtime) :=
  let seed := to_u32 seed in
  '(ok, self, rt) ← prepare_strings_for_reordering rt self;
  if negb ok then Done (false, self, PyErr_Format PyExc_TypeError rt)
  else
    match self with
    | STRS_REORDERED d =>
        let parts := reordered.parts d in
        let count := reordered.count d in
        (* Fisher-Yates Shuffle Algorithm *)
        let rt := set_rand_state (srand seed) rt in
        '(parts, rt) ← shuffle_loop (S (Z.to_nat count)) (to_size_t (count - 1)) parts rt;
        Done (true,
              STRS_REORDERED (reordered.mk count (reordered.parent d) parts), rt)
    | _ => Fault InactiveMember
    end.

(** ** Sample data *)

(** A memory that holds the text [a,bb,ccc] at address 1000 and the
    separator [,] at address 500. *)
Definition sample_memory : memory :=
  λ a, if decide (a = 500) then 44
       else default 0 ([97; 44; 98; 98; 44; 99; 99; 99] !! Z.to_nat (a - 1000)).

Definition sample_text : sz_string_view_t := sz_string_view.mk 1000 8.
Definition sample_separator : sz_string_view_t := sz_string_view.mk 500 1.

(** The split of the sample text at the commas, owned by object 7. *)
Definition sample_strs : Strs :=
  STRS_CONSECUTIVE_32 (consecutive.mk 3 1 7 1000 (Some [2; 5; 8])).

(** ** Signed sizes *)

(** Conversion of an integer to [Py_ssize_t]. *)
Definition to_ssize_t (x : Z) : Z :=
  (x + (PY_SSIZE_T_MAX + 1)) mod (SIZE_MAX + 1) - (PY_SSIZE_T_MAX + 1).

(** ** The [Str] object *)

(** [Str]: a slice of the buffer that [parent] keeps alive or, when
    [parent] is [NULL], a buffer of its own. *)
Module Str.
Record t : Type := mk { parent : PyObject; start : Z; length : Z }.
End Str.
Abbreviation Str_t := Str.t.

(** The view that a [Str] spans. *)
Definition Str_view (self : Str_t) : sz_string_view_t :=
  sz_string_view.mk (Str.start self) (Str.length self).

(** What the functions of the module look at in an argument: its type and,
    for the four string-like types, its buffer.  For a [str] the buffer is
    what [PyUnicode_AsUTF8AndSize] gives, for a [bytes] what
    [PyBytes_AsStringAndSize] gives ([None] when it returns [-1]). *)
Inductive py_object : Type :=
| Unicode_object (utf8 : sz_string_view_t)
| Bytes_object (buffer : option sz_string_view_t)
| Str_object (str : Str_t)
| File_object (file : sz_string_view_t)
| other_object.

(** [export_string_like]: what it writes through [start] and [length], or
    [None] when it returns [0].  The signed length of a [str] or [bytes] is
    converted to [size_t]. *)
Definition string_like (object : py_object) : option sz_string_view_t :=
  match object with
  | Unicode_object utf8 =>
      Some (sz_string_view.mk (sz_string_view.start utf8)
              (to_size_t (sz_string_view.length utf8)))
  | Bytes_object (Some buffer) =>
      Some (sz_string_view.mk (sz_string_view.start buffer)
              (to_size_t (sz_string_view.length buffer)))
  | Bytes_object None => None
  | Str_object str => Some (Str_view str)
  | File_object file => Some file
  | other_object => None
  end.

(** [export_string_like] with the error it leaves: a [bytes] object whose
    buffer cannot be mapped sets [TypeError]. *)
Definition export_string_like (rt : runtime) (object : py_object)
  : option sz_string_view_t * runtime :=
  (string_like object,
   if object is Bytes_object None then PyErr_SetString PyExc_TypeError rt else rt).

Definition Str_len (self : Str_t) : Z := Str.length self.

(** [PyUnicode_FromStringAndSize(u, 1)] of the interpreter, which decodes
    the byte at [u] as UTF-8.  A byte below [0x80] is a code point of its
    own: the result is the one-character string of that code point, which
    the interpreter keeps ready, and is given here by the code point.  Any
    other byte is not a whole UTF-8 sequence: the result is [NULL] with
    [UnicodeDecodeError]. *)
Definition PyUnicode_FromStringAndSize (m : memory) (rt : runtime) (u : Z)
  : option Z * runtime :=
  if decide (m u < 128) then (Some (m u), rt)
  else (None, PyErr_SetString PyExc_UnicodeDecodeError rt).

(** [Str_getitem]: the code point of the one-character string, or [None]
    for a [NULL] return. *)
Definition Str_getitem (m : memory) (rt : runtime) (self : Str_t) (i : Z)
  : option Z * runtime :=
  (* Negative indexing *)
  let i := if decide (i < 0) then to_ssize_t (i + Str.length self) else i in
  if decide (i < 0 ∨ Str.length self ≤ to_size_t i) then
    (None, PyErr_SetString PyExc_IndexError rt)
  else
    (* Assuming the underlying data is UTF-8 encoded *)
    PyUnicode_FromStringAndSize m rt (Str.start self + i).

(** The key of a subscript: a slice, with the [start], [stop] and [step]
    that [PySlice_Unpack] and [PySlice_AdjustIndices] have produced, an
    integer, or anything else. *)
Inductive subscript_key : Type :=
| slice_key (start stop step : Z)
| long_key (i : Z)
| other_key.

(** What [Str_subscript] returns: a new [Str], or the one-character string
    of [Str_getitem], given by its code point. *)
Inductive Str_item : Type :=
| item_Str (slice : Str_t)
| item_unicode (character : Z).

(** [Str_subscript] on the object [self_id], whose fields are [self].
    [PyErr_NoMemory] returns [NULL], so the test
    [self_slice == NULL && PyErr_NoMemory()] never holds and a failed
    [tp_alloc] is followed by the writes through [self_slice]. *)
Definition Str_subscript (m : memory) (rt : runtime) (self_id : PyObject)
    (self : Str_t) (key : subscript_key) : outcome (option Str_item * runtime) :=
  match key with
  | slice_key start stop step =>
      if decide (step ≠ 1) then Done (None, PyErr_SetString PyExc_IndexError rt)
      else
        let '(ok, rt) := PyObject_New rt in
        if negb ok then Fault NullDereference
        else
          Done (Some (item_Str (Str.mk self_id (Str.start self + start)
                                  (to_size_t (stop - start)))),
                Py_INCREF self_id rt)
  | long_key i =>
      let '(r, rt) := Str_getitem m rt self i in
      Done (item_unicode <$> r, rt)
  | other_key => Done (None, PyErr_SetString PyExc_TypeError rt)
  end.

(** [Py_DECREF], as far as the count goes: the deallocation of an object
    whose count reaches zero belongs to the type of that object. *)
Definition Py_DECREF (o : PyObject) (rt : runtime) : runtime :=
  set_ob_refcnt (λ x, if decide (x = o) then ob_refcnt rt x - 1 else ob_refcnt rt x) rt.

(** [Str_dealloc]: the reference to the parent is dropped, or the buffer
    of a [Str] without parent is freed; then the object is. *)
Definition Str_dealloc (rt : runtime) (self : Str_t) : runtime :=
  let rt := if decide (Str.parent self ≠ 0) then Py_DECREF (Str.parent self) rt
            else if decide (Str.start self ≠ 0) then free rt
            else rt in
  set_objects (objects rt - 1) rt.

(** [Strs_getitem]: the new [Str], or [None] for a [NULL] return.  As in
    [Str_subscript], a failed [tp_alloc] is followed by the writes through
    [view_copy]; [Py_INCREF] of a [NULL] parent is an access through
    [NULL]. *)
Definition Strs_getitem (rt : runtime) (self : Strs) (i : Z)
  : outcome (option Str_t * runtime) :=
  (* Check for negative index and convert to positive *)
  let count := Strs_len self in
  let i := if decide (i < 0) then i + count else i in
  if decide (i < 0 ∨ count ≤ i) then
    Done (None, PyErr_SetString PyExc_IndexError rt)
  else
    match str_at_offset_getter self with
    | None => Done (None, PyErr_SetString PyExc_TypeError rt)
    | Some getter =>
        p ← getter i count;
        let '(ok, rt) := PyObject_New rt in
        if negb ok then Fault NullDereference
        else if decide (part_parent p = 0) then Fault NullDereference
        else
          Done (Some (Str.mk (part_parent p) (part_start p) (part_length p)),
                Py_INCREF (part_parent p) rt)
    end.

(** [Strs_contains], the [sq_contains] slot of [Strs]. *)
Definition Strs_contains (self : Strs) (arg : py_object) : Z := 0.

(** ** [Str]: offsets, comparison, prefixes and suffixes *)

(** What [Str_offset_within] returns: the offset, or [NULL] with
    [TypeError] or with [ValueError]. *)
Inductive Str_offset_within_result : Type :=
| offset_is (offset : Z)
| offset_TypeError
| offset_ValueError.

(** [Str_offset_within], from the two objects on.  The two ends compared on
    line 930 are sums of a pointer and a [size_t], which wrap around at the
    end of the address space. *)
Definition Str_offset_within (slice_obj text_obj : py_object)
  : Str_offset_within_result :=
  match string_like text_obj, string_like slice_obj with
  | Some text, Some slice =>
      if decide (sz_string_view.start slice < sz_string_view.start text
                 ∨ to_size_t (sz_string_view.start text + sz_string_view.length text)
                   < to_size_t (sz_string_view.start slice + sz_string_view.length slice))
      then offset_ValueError
      else offset_is (to_size_t (sz_string_view.start slice - sz_string_view.start text))
  | _, _ => offset_TypeError
  end.

(** [memcmp] on two byte sequences of the same length: negative, zero or
    positive as the first differing byte decides. *)
Fixpoint memcmp_bytes (a b : list Z) : Z :=
  match a, b with
  | x :: a', y :: b' =>
      if decide (x = y) then memcmp_bytes a' b'
      else if decide (x < y) then -1 else 1
  | _, _ => 0
  end.

Definition memcmp (m : memory) (a b n : Z) : Z :=
  memcmp_bytes (bytes_at m a n) (bytes_at m b n).

(** The comparison operators of [object.h]. *)
Definition Py_LT : Z := 0.
Definition Py_LE : Z := 1.
Definition Py_EQ : Z := 2.
Definition Py_NE : Z := 3.
Definition Py_GT : Z := 4.
Definition Py_GE : Z := 5.

(** The [order] that [Str_richcompare] computes from the two views. *)
Definition richcompare_order (m : memory) (a b : sz_string_view_t) : Z :=
  let a_length := sz_string_view.length a in
  let b_length := sz_string_view.length b in
  (* Perform byte-wise comparison up to the minimum length *)
  let min_length := if decide (a_length < b_length) then a_length else b_length in
  let order := memcmp m (sz_string_view.start a) (sz_string_view.start b) min_length in
  (* If the strings are equal up to `min_length`, then the shorter string is smaller *)
  if decide (order = 0)
  then (if decide (b_length < a_length) then 1 else 0)
       - (if decide (a_length < b_length) then 1 else 0)
  else order.

(** [Str_richcompare]: the boolean returned, or [None] for
    [NotImplemented]. *)
Definition Str_richcompare (m : memory) (self other : py_object) (op : Z)
  : option bool :=
  match string_like self, string_like other with
  | Some a, Some b =>
      let order := richcompare_order m a b in
      if decide (op = Py_LT) then Some (bool_decide (order < 0))
      else if decide (op = Py_LE) then Some (bool_decide (order ≤ 0))
      else if decide (op = Py_EQ) then Some (bool_decide (order = 0))
      else if decide (op = Py_NE) then Some (bool_decide (order ≠ 0))
      else if decide (op = Py_GT) then Some (bool_decide (0 < order))
      else if decide (op = Py_GE) then Some (bool_decide (0 ≤ order))
      else None
  | _, _ => None
  end.

(** [strncmp]: at most [n] bytes are compared, and none after a [NUL]. *)
Fixpoint strncmp (m : memory) (s1 s2 : Z) (n : nat) : Z :=
  match n with
  | O => 0
  | S n' =>
      let c1 := m s1 in
      let c2 := m s2 in
      if decide (c1 ≠ c2) then (if decide (c1 < c2) then -1 else 1)
      else if decide (c1 = 0) then 0
      else strncmp m (s1 + 1) (s2 + 1) n'
  end.

(** "Apply start and end arguments" of [Str_startswith] and
    [Str_endswith]: neither argument is normalised or clamped. *)
Definition apply_start_end (str : sz_string_view_t) (start end_ : Z)
  : sz_string_view_t :=
  let str_start := sz_string_view.start str + start in
  let str_length := to_size_t (sz_string_view.length str - start) in
  sz_string_view.mk str_start
    (if decide (end_ ≠ PY_SSIZE_T_MAX ∧ to_size_t (end_ - start) < str_length)
     then to_size_t (end_ - start) else str_length).

(** [Str_startswith], from the objects and the two integers on: the
    boolean returned, or [None] for a [NULL] return with [TypeError]. *)
Definition Str_startswith (m : memory) (str_obj prefix_obj : py_object)
    (start end_ : Z) : option bool :=
  match string_like str_obj, string_like prefix_obj with
  | Some str, Some prefix =>
      let str := apply_start_end str start end_ in
      if decide (sz_string_view.length str < sz_string_view.length prefix)
      then Some false
      else Some (bool_decide
                   (strncmp m (sz_string_view.start str) (sz_string_view.start prefix)
                      (Z.to_nat (sz_string_view.length prefix)) = 0))
  | _, _ => None
  end.

Definition Str_endswith (m : memory) (str_obj suffix_obj : py_object)
    (start end_ : Z) : option bool :=
  match string_like str_obj, string_like suffix_obj with
  | Some str, Some suffix =>
      let str := apply_start_end str start end_ in
      if decide (sz_string_view.length str < sz_string_view.length suffix)
      then Some false
      else Some (bool_decide
                   (strncmp m
                      (sz_string_view.start str
                       + to_size_t (sz_string_view.length str
                                    - sz_string_view.length suffix))
                      (sz_string_view.start suffix)
                      (Z.to_nat (sz_string_view.length suffix)) = 0))
  | _, _ => None
  end.

(** ** [Str_count] *)

(** The two [while (haystack.length)] loops of [Str_count], entered with
    the current haystack and count. *)
Fixpoint Str_count_loop (fuel : nat) (m : memory) (allowoverlap : bool)
    (needle : sz_string_view_t) (h_start h_length count : Z) : outcome Z :=
  if decide (h_length ≠ 0) then
    match fuel with
    | O => OutOfFuel
    | S fuel' =>
        let n_length := sz_string_view.length needle in
        let ptr := sz_find m h_start h_length (sz_string_view.start needle) n_length in
        let found := if ptr is Some _ then 1 else 0 in
        let offset := match ptr with
                      | Some p => to_size_t (p - h_start)
                      | None => h_length
                      end in
        let count := to_size_t (count + found) in
        if allowoverlap then
          Str_count_loop fuel' m allowoverlap needle
            (h_start + to_size_t (offset + found))
            (to_size_t (h_length - to_size_t (offset + found))) count
        else
          Str_count_loop fuel' m allowoverlap needle
            (h_start + to_size_t (offset + n_length))
            (to_size_t (h_length - to_size_t (offset + n_length * found))) count
    end
  else Done count.

(** [Str_count], from the haystack that [sz_ssize_clamp_interval] has
    narrowed on: the number handed to [PyLong_FromSize_t]. *)
Definition Str_count (fuel : nat) (m : memory) (haystack needle : sz_string_view_t)
    (allowoverlap : bool) : outcome Z :=
  let h_length := sz_string_view.length haystack in
  let n_length := sz_string_view.length needle in
  if decide (n_length = 0 ∨ h_length = 0 ∨ h_length < n_length) then Done 0
  else Str_count_loop fuel m allowoverlap needle
         (sz_string_view.start haystack) h_length 0.

(** ** [Str_concat] *)

(** [memcpy(dst, src, n)] on the byte memory, for ranges that do not
    overlap. *)
Definition memcpy (m : memory) (dst src n : Z) : memory :=
  λ a, if decide (dst ≤ a < dst + n) then m (src + (a - dst)) else m a.

(** [Str_concat]: the new [Str], or [None] for a [NULL] return, with the
    memory and the runtime it leaves.  [block] is the address that
    [malloc] returns when it grants the request. *)
Definition Str_concat (m : memory) (rt : runtime) (block : Z)
    (self other : py_object) : option Str_t * memory * runtime :=
  (* Validate and convert `self` *)
  let '(self_str, rt) := export_string_like rt self in
  match self_str with
  | None => (None, m, PyErr_SetString PyExc_TypeError rt)
  | Some self_str =>
      (* Validate and convert `other` *)
      let '(other_str, rt) := export_string_like rt other in
      match other_str with
      | None => (None, m, PyErr_SetString PyExc_TypeError rt)
      | Some other_str =>
          (* Allocate a new Str instance *)
          let '(ok, rt) := PyObject_New rt in
          if negb ok then (None, m, rt)
          else
            (* Calculate the total length of the new string *)
            let length := to_size_t (sz_string_view.length self_str
                                     + sz_string_view.length other_str) in
            (* Allocate memory for the new string *)
            let '(ok, rt) := malloc rt in
            if negb ok then (None, m, PyErr_SetString PyExc_MemoryError rt)
            else
              (* Perform the string concatenation *)
              let m := memcpy m block (sz_string_view.start self_str)
                         (sz_string_view.length self_str) in
              let m := memcpy m (block + sz_string_view.length self_str)
                         (sz_string_view.start other_str)
                         (sz_string_view.length other_str) in
              (Some (Str.mk 0 block length), m, rt)
      end
  end.

(** ** The scratch buffer *)

(** [temporary_memory_allocate(size, &temporary_memory)]: whether the
    pointer returned is not [NULL]. *)
Definition temporary_memory_allocate (size : Z) (rt : runtime) : bool * runtime :=
  let existing := temporary_memory rt in
  if decide (tm_length existing < size) then
    let '(ok, rt) := realloc (negb (tm_allocated existing)) rt in
    if negb ok then (false, PyErr_Format PyExc_MemoryError rt)
    else (true, set_temporary_memory (mk_temporary_memory true size) rt)
  else (tm_allocated existing, rt).

(** [stringzilla_cleanup], the [m_free] slot of the module. *)
Definition stringzilla_cleanup (rt : runtime) : runtime :=
  let rt := if tm_allocated (temporary_memory rt) then free rt else rt in
  set_temporary_memory (mk_temporary_memory false 0) rt.

(** ** Permutation engine: [reverse_haystacks] *)

(** [for (i = 0, j = length - 1; i < j; i++, j--)] of [reverse_haystacks],
    entered with the current [i] and [j]. *)
Fixpoint reverse_haystacks_loop (fuel : nat) (i j : Z) (array : list sz_string_view_t)
  : outcome (list sz_string_view_t) :=
  if decide (i < j) then
    match fuel with
    | O => OutOfFuel
    | S fuel' =>
        temp ← load_at (Some array) i;
        aj ← load_at (Some array) j;
        array1 ← store array (Z.to_nat i) aj;
        array2 ← store array1 (Z.to_nat j) temp;
        reverse_haystacks_loop fuel' (to_size_t (i + 1)) (to_size_t (j - 1)) array2
    end
  else Done array.

Definition reverse_haystacks (array : list sz_string_view_t) (length : Z)
  : outcome (list sz_string_view_t) :=
  reverse_haystacks_loop (S (Z.to_nat length)) 0 (to_size_t (length - 1)) array.

(** ** Predicates of the statements *)

(** The parent of a collection. *)
Definition Strs_parent (self : Strs) : PyObject :=
  match self with
  | STRS_CONSECUTIVE_32 d | STRS_CONSECUTIVE_64 d => consecutive.parent d
  | STRS_REORDERED d => reordered.parent d
  | STRS_MULTI_SOURCE => 0
  end.

(** A generator for the places where a concrete one is needed: the linear
    congruential generator that the C standard gives as an example. *)
Definition rand_example : libc_rand_t :=
  {| srand := λ seed, seed;
     rand := λ state,
       let next := (state * 1103515245 + 12345) `mod` 4294967296 in
       ((next / 65536) `mod` 32768, next) |}.

(** The number of positions of [haystack] at which [needle] occurs. *)
Fixpoint occurrences (needle haystack : list Z) : nat :=
  match haystack with
  | [] => 0
  | _ :: rest =>
      ((if decide (needle `prefix_of` haystack) then 1 else 0)
       + occurrences needle rest)%nat
  end.

(** The number of positions among [positions] from [p] on at which the
    memory holds [needle]. *)
Fixpoint occurrences_at (m : memory) (needle : list Z) (n_length p : Z)
    (positions : nat) : nat :=
  match positions with
  | O => 0
  | S positions' =>
      ((if decide (bytes_at m p n_length = needle) then 1 else 0)
       + occurrences_at m needle n_length (p + 1) positions')%nat
  end.

(** What a request to the allocator leaves untouched. *)
Definition same_but_heap (rt rt' : runtime) : Prop :=
  ob_refcnt rt' = ob_refcnt rt ∧ objects rt' = objects rt ∧ err rt' = err rt ∧
  temporary_memory rt' = temporary_memory rt ∧ rand_state rt' = rand_state rt.

(** The collection is in one of the two consecutive layouts. *)
Definition is_consecutive (strs : Strs) : Prop :=
  match strs with
  | STRS_CONSECUTIVE_32 _ | STRS_CONSECUTIVE_64 _ => True
  | _ => False
  end.

(** The collections that the operations are meant for: a consecutive
    layout whose block holds [count] offsets, or a reordered layout whose
    array has exactly [count] pairs. *)
Definition valid_collection (strs : Strs) : Prop :=
  match strs with
  | STRS_CONSECUTIVE_32 d | STRS_CONSECUTIVE_64 d =>
      block_holds (consecutive.end_offsets d) (consecutive.count d)
  | STRS_REORDERED d =>
      Z.of_nat (length (default [] (reordered.parts d))) = reordered.count d
  | STRS_MULTI_SOURCE => False
  end.

(** Between [rt] and [rt'] the allocator answered some requests, and
    granted them all. *)
Definition all_granted (rt rt' : runtime) : Prop :=
  ∃ answers, oracle rt = answers ++ oracle rt' ∧ Forall (eq true) answers.

(** Between [rt] and [rt'] the allocator answered some requests, granted
    all of them but the last, and refused the last. *)
Definition refused (rt rt' : runtime) : Prop :=
  ∃ granted, oracle rt = granted ++ false :: oracle rt' ∧ Forall (eq true) granted.

(** What a run leaves apart from the runtime. *)
Definition result_of {A} (x : outcome (A * runtime)) : outcome A := fst <$> x.

(** The first [n] offsets of a block are non-decreasing and fit the
    element type, whose largest value is [M]. *)
Definition offsets_ordered (M : Z) (block : list Z) (n : Z) : Prop :=
  ∀ i j x y, (i ≤ j)%nat → Z.of_nat j < n →
    block !! i = Some x → block !! j = Some y → 0 ≤ x ≤ y ∧ y ≤ M.

(* ================================================================== *)
(** * Properties *)
(* ================================================================== *)

Example apply_order_sample :
  apply_order 3
    [sz_string_view.mk 10 1; sz_string_view.mk 20 2; sz_string_view.mk 30 3]
    [2; 0; 1]%nat 3
  = Done ([sz_string_view.mk 30 3; sz_string_view.mk 10 1; sz_string_view.mk 20 2],
          [0; 1; 2]%nat).
Proof. reflexivity. Qed.

(** ** Array accesses *)

Lemma load_Done {A} (a : list A) i v : load a i = Done v ↔ a !! i = Some v.
Proof. unfold load. destruct (a !! i); split; congruence. Qed.

Lemma load_lookup {A} (a : list A) i v : a !! i = Some v → load a i = Done v.
Proof. apply load_Done. Qed.

Lemma store_lt {A} (a : list A) i v :
  (i < length a)%nat → store a i v = Done (<[i:=v]> a).
Proof. intros H. unfold store. by rewrite decide_True. Qed.

Lemma store_ge {A} (a : list A) i v :
  (length a ≤ i)%nat → store a i v = Fault OutOfBounds.
Proof. intros H. unfold store. rewrite decide_False; [done | lia]. Qed.

(** ** Cycle-following apply *)

Section apply_order_correct.
Local Open Scope nat_scope.

(** The state when the current cycle is entered: [n] slots, parts [A],
    indices [O], and the slot [i] at which the cycle starts. *)
Variables (n : nat) (A : list sz_string_view_t) (O : list nat) (i : nat).

Definition bounded (O : list nat) : Prop :=
  ∀ m j, O !! m = Some j → j < n.
Definition injective (O : list nat) : Prop :=
  ∀ m m' j, O !! m = Some j → O !! m' = Some j → m = m'.

(** [chain V k]: the slots visited so far, most recent first, followed
    from [i] along [O] up to the current slot [k]. *)
Fixpoint chain (V : list nat) (k : nat) : Prop :=
  match V with
  | [] => k = i
  | v :: V' => O !! v = Some k ∧ chain V' v
  end.

(** What the cycle has done to the two arrays once the slots [V] are
    placed. *)
Definition placed (V : list nat) (A' : list sz_string_view_t) (O' : list nat) : Prop :=
  length A' = n ∧ length O' = n ∧
  (∀ m, m ∈ V → O' !! m = Some m) ∧
  (∀ m, m ∉ V → O' !! m = O !! m) ∧
  (∀ m, m ∈ V → ∃ j, O !! m = Some j ∧ A' !! m = A !! j) ∧
  (∀ m, m ∉ V → A' !! m = A !! m).

Hypothesis HlenA : length A = n.
Hypothesis HlenO : length O = n.
Hypothesis Hbound : bounded O.
Hypothesis Hinj : injective O.
Hypothesis Hi : i < n.

Lemma chain_first V k : chain V k → i ∈ k :: V.
Proof.
  revert k. induction V as [|v V IH]; simpl; intros k.
  - intros ->. by left.
  - intros [_ Hc]. right. by apply IH.
Qed.

Lemma chain_preimage V k x :
  chain V k → x ∈ k :: V → x = i ∨ ∃ v, v ∈ V ∧ O !! v = Some x.
Proof.
  revert k. induction V as [|v V IH]; simpl; intros k.
  - intros -> Hx. left. apply elem_of_cons in Hx as [->|Hx]; [done|].
    by apply elem_of_nil in Hx.
  - intros [Hv Hc] Hx. apply elem_of_cons in Hx as [->|Hx].
    + right. exists v. split; [by left | done].
    + destruct (IH _ Hc Hx) as [->|(w & Hw & Hx')]; [by left|].
      right. exists w. split; [by right | done].
Qed.

Lemma chain_lt V k x : chain V k → x ∈ k :: V → x < n.
Proof.
  intros Hc Hx. destruct (chain_preimage _ _ _ Hc Hx) as [->|(v & _ & Hv)]; [done|].
  by eapply Hbound.
Qed.

Lemma chain_length V k : chain V k → NoDup (k :: V) → S (length V) ≤ n.
Proof.
  intros Hc Hnd.
  assert (k :: V ⊆+ seq 0 n) as Hsub.
  { apply NoDup_submseteq; [done|]. intros x Hx. apply elem_of_seq.
    pose proof (chain_lt _ _ _ Hc Hx). lia. }
  apply submseteq_length in Hsub. by rewrite length_seq in Hsub.
Qed.

(** The successor of the current slot is a fresh slot unless it is [i]. *)
Lemma chain_fresh V k j :
  chain V k → NoDup (k :: V) → O !! k = Some j → j ≠ i → j ∉ k :: V.
Proof.
  intros Hc Hnd Hk Hji Hin.
  destruct (chain_preimage _ _ _ Hc Hin) as [->|(v & Hv & Hvj)]; [done|].
  assert (v = k) as -> by (eapply Hinj; eauto).
  by apply NoDup_cons_1_1 in Hnd.
Qed.

(** Once the cycle has closed, the visited slots are closed under
    preimages of [O]. *)
Lemma chain_closed V k m x :
  chain V k → O !! k = Some i → O !! m = Some x → x ∈ k :: V → m ∈ k :: V.
Proof.
  intros Hc Hk Hm Hx.
  destruct (chain_preimage _ _ _ Hc Hx) as [->|(v & Hv & Hvx)].
  - assert (m = k) as -> by (eapply Hinj; eauto). by left.
  - assert (m = v) as -> by (eapply Hinj; eauto). by right.
Qed.

(** One move of the cycle: slot [k] receives the part of its successor. *)
Lemma placed_step V k j aj A' O' :
  placed V A' O' → k ∉ V → k < n → O !! k = Some j → A !! j = Some aj →
  placed (k :: V) (<[k:=aj]> A') (<[k:=k]> O').
Proof.
  intros (HlA & HlO & HOin & HOout & HAin & HAout) HkV Hk Hj Haj.
  repeat split.
  - by rewrite length_insert.
  - by rewrite length_insert.
  - intros m Hm. apply elem_of_cons in Hm as [->|Hm].
    + apply list_lookup_insert_eq. lia.
    + rewrite list_lookup_insert_ne by (intros ->; done). by apply HOin.
  - intros m Hm. rewrite list_lookup_insert_ne.
    + apply HOout. intros ?. apply Hm. by right.
    + intros ->. apply Hm. by left.
  - intros m Hm. apply elem_of_cons in Hm as [->|Hm].
    + exists j. split; [done|]. rewrite list_lookup_insert_eq by lia. done.
    + rewrite list_lookup_insert_ne by (intros ->; done). by apply HAin.
  - intros m Hm. rewrite list_lookup_insert_ne.
    + apply HAout. intros ?. apply Hm. by right.
    + intros ->. apply Hm. by left.
Qed.

Lemma apply_order_cycle_spec fuel : ∀ V k A' O',
  chain V k → NoDup (k :: V) → placed V A' O' → n ≤ fuel + length V →
  ∃ A'' O'' k' V',
    apply_order_cycle fuel i A' O' k = Done (A'', O'', k') ∧
    chain V' k' ∧ NoDup (k' :: V') ∧ O !! k' = Some i ∧ placed V' A'' O''.
Proof.
  induction fuel as [|fuel IH]; intros V k A' O' Hc Hnd Hp Hfuel.
  { pose proof (chain_length _ _ Hc Hnd). simpl in Hfuel. lia. }
  pose proof Hp as (HlA & HlO & HOin & HOout & HAin & HAout).
  assert (k ∉ V) as HkV by (by apply NoDup_cons_1_1 in Hnd).
  assert (k < n) as Hk by (apply (chain_lt V k); [done | by left]).
  destruct (lookup_lt_is_Some_2 O k) as [j Hj]; [lia|].
  assert (j < n) as Hjn by (by eapply Hbound).
  simpl. rewrite (load_lookup O' k j) by (by rewrite HOout).
  simpl. destruct (decide (i = j)) as [<-|Hij].
  - by exists A', O', k, V.
  - assert (j ∉ k :: V) as HjV by (eapply chain_fresh; eauto).
    destruct (lookup_lt_is_Some_2 A j) as [aj Haj]; [lia|].
    rewrite (load_lookup A' j aj).
    2:{ rewrite HAout; [done|]. intros ?. apply HjV. by right. }
    simpl. rewrite store_lt by lia. simpl. rewrite store_lt by lia. simpl.
    apply (IH (k :: V)).
    + simpl. done.
    + by apply NoDup_cons_2.
    + by eapply placed_step.
    + simpl. lia.
Qed.

(** The state of the outer loop: below [i] every index is in place, and
    reading the parts through the indices gives the [target]. *)
Definition order_inv (target : nat → option sz_string_view_t) (i : nat)
    (A : list sz_string_view_t) (O : list nat) : Prop :=
  length A = n ∧ length O = n ∧ bounded O ∧ injective O ∧
  (∀ m, m < i → O !! m = Some m) ∧
  (∀ m j, O !! m = Some j → A !! j = target m).

(** A closed cycle leaves the outer invariant in place one slot further. *)
Lemma order_inv_cycle target V k A' O' :
  order_inv target i A O →
  chain V k → O !! k = Some i → placed (k :: V) A' O' →
  order_inv target (S i) A' O'.
Proof.
  intros (_ & _ & _ & _ & Hfix & Hcomp) Hc Hk
    (HlA & HlO & HOin & HOout & HAin & HAout).
  assert (∀ m, m ∈ k :: V ∨ m ∉ k :: V) as Hdec.
  { intros m. destruct (decide (m ∈ k :: V)); auto. }
  repeat split; try done.
  - intros m j Hm. destruct (Hdec m) as [Hin|Hout].
    + rewrite HOin in Hm by done. injection Hm as <-. by eapply chain_lt.
    + rewrite HOout in Hm by done. by eapply Hbound.
  - intros m m' j Hm Hm'.
    destruct (Hdec m) as [Hin|Hout], (Hdec m') as [Hin'|Hout'].
    + rewrite HOin in Hm, Hm' by done. congruence.
    + rewrite HOin in Hm by done. rewrite HOout in Hm' by done.
      injection Hm as <-. destruct Hout'. by eapply chain_closed.
    + rewrite HOout in Hm by done. rewrite HOin in Hm' by done.
      injection Hm' as <-. destruct Hout. by eapply chain_closed.
    + rewrite HOout in Hm, Hm' by done. by eapply Hinj.
  - intros m Hm. destruct (Hdec m) as [Hin|Hout]; [by apply HOin|].
    rewrite HOout by done. destruct (decide (m = i)) as [->|Hne].
    + destruct Hout. by apply chain_first.
    + apply Hfix. lia.
  - intros m j Hm. destruct (Hdec m) as [Hin|Hout].
    + rewrite HOin in Hm by done. injection Hm as <-.
      destruct (HAin m Hin) as (j & Hj & ->). by apply Hcomp.
    + rewrite HOout in Hm by done. rewrite HAout; [by apply Hcomp|].
      intros Hj. destruct Hout. by eapply chain_closed.
Qed.
End apply_order_correct.

Lemma apply_order_from_spec (n : nat) target fuel :
  (n ≤ fuel)%nat → ∀ todo i A O,
  (i + todo = n)%nat → order_inv n target i A O →
  ∃ A' O', apply_order_from fuel todo i A O = Done (A', O') ∧
           order_inv n target n A' O'.
Proof.
  intros Hfuel. induction todo as [|todo IH]; intros i A O Hn Hinv.
  { exists A, O. split; [done|]. assert (i = n) as <- by lia. done. }
  pose proof Hinv as (HlA & HlO & Hb & Hinj & Hfix & Hcomp).
  assert (i < n)%nat as Hi by lia.
  destruct (lookup_lt_is_Some_2 O i) as [oi Hoi]; [lia|].
  simpl. rewrite (load_lookup O i oi Hoi). simpl.
  destruct (decide (i = oi)) as [<-|Hne].
  - apply IH; [lia|]. repeat split; try done.
    intros m Hm. destruct (decide (m = i)) as [->|?]; [done|]. apply Hfix. lia.
  - destruct (lookup_lt_is_Some_2 A i) as [temp Htemp]; [lia|].
    rewrite (load_lookup A i temp Htemp). simpl.
    destruct (apply_order_cycle_spec n A O i HlA HlO Hb Hinj Hi fuel [] i A O)
      as (A1 & O1 & k & V & -> & Hc & Hnd & Hk & Hp).
    { reflexivity. }
    { apply NoDup_cons_2; [apply not_elem_of_nil | constructor]. }
    { repeat split; try done; intros m Hm; by apply elem_of_nil in Hm. }
    { simpl. lia. }
    pose proof Hp as (HlA1 & HlO1 & _).
    assert (k < n)%nat as Hkn.
    { apply (chain_lt n O i Hb Hi V k); [done | by left]. }
    simpl. rewrite store_lt by lia. simpl. rewrite store_lt by lia. simpl.
    apply IH; [lia|].
    apply (order_inv_cycle n A O i HlA HlO Hb Hinj Hi target V k); try done.
    apply (placed_step n A O i HlA HlO Hi V k i temp); try done.
    by apply NoDup_cons_1_1 in Hnd.
Qed.

(** From the entry of [apply_order] to its return, for a permutation. *)
Lemma apply_order_run (array : list sz_string_view_t) (order : list nat) (fuel : nat) :
  order ≡ₚ seq 0 (length array) →
  (length array ≤ fuel)%nat →
  ∃ array' order',
    apply_order fuel array order (length array) = Done (array', order') ∧
    order_inv (length array) (λ m, order !! m ≫= (array !!.)) (length array)
              array' order'.
Proof.
  intros Hperm Hfuel. apply apply_order_from_spec; [done | done |].
  repeat split.
  - apply Permutation_length in Hperm. by rewrite length_seq in Hperm.
  - intros m j Hm. apply list_elem_of_lookup_2 in Hm.
    rewrite Hperm in Hm. apply elem_of_seq in Hm. lia.
  - intros m m' j Hm Hm'. eapply NoDup_lookup; [|done..].
    rewrite Hperm. apply NoDup_seq.
  - lia.
  - intros m j Hm. by rewrite Hm.
Qed.

(** C5. For an array of [count] parts and an [order] that is a permutation
    of [0, count), [apply_order] returns (any bound of at least [count]
    iterations per cycle is enough), the new array holds at every slot [i]
    the old part of slot [order[i]], and the order array is left as the
    identity [0, 1, ..., count - 1]. *)
Theorem apply_order_permutes (array : list sz_string_view_t) (order : list nat)
    (fuel : nat) :
  order ≡ₚ seq 0 (length array) →
  (length array ≤ fuel)%nat →
  ∃ array' order',
    apply_order fuel array order (length array) = Done (array', order') ∧
    length array' = length array ∧
    (∀ i, array' !! i = order !! i ≫= (array !!.)) ∧
    order' = seq 0 (length array).
Proof.
  intros Hperm Hfuel. set (n := length array) in *.
  destruct (apply_order_run array order fuel Hperm Hfuel)
    as (A' & O' & Hrun & HlA' & HlO' & _ & _ & Hfix & Hcomp).
  fold n in Hrun, HlA', HlO', Hfix.
  exists A', O'. repeat split; try done.
  - intros i. destruct (decide (i < n)%nat) as [Hi|Hi].
    + apply Hcomp. by apply Hfix.
    + apply Permutation_length in Hperm. rewrite length_seq in Hperm.
      rewrite !(proj2 (lookup_ge_None _ _)); [done | lia..].
  - apply list_eq. intros i. destruct (decide (i < n)%nat) as [Hi|Hi].
    + rewrite Hfix by done. by rewrite lookup_seq_lt.
    + rewrite !(proj2 (lookup_ge_None _ _)); [done | rewrite ?length_seq; lia..].
Qed.

(** The same run, in terms of the parts that the order selects. *)
Lemma apply_order_parts_in_order (array : list sz_string_view_t)
    (order : list nat) (fuel : nat) :
  order ≡ₚ seq 0 (length array) →
  (length array ≤ fuel)%nat →
  ∃ order',
    apply_order fuel array order (length array)
    = Done (omap (array !!.) order, order').
Proof.
  intros Hperm Hfuel.
  destruct (apply_order_run array order fuel Hperm Hfuel)
    as (A' & O' & -> & HlA' & HlO' & _ & _ & Hfix & Hcomp).
  exists O'. do 2 f_equal. apply list_eq. intros i.
  assert (length order = length array) as Hlo.
  { apply Permutation_length in Hperm. by rewrite length_seq in Hperm. }
  assert (∀ k, omap (array !!.) order !! k = order !! k ≫= (array !!.)) as Hsel.
  { clear -Hperm. assert (∀ j, j ∈ order → (j < length array)%nat) as Hvalid.
    { intros j Hj. rewrite Hperm in Hj. apply elem_of_seq in Hj. lia. }
    clear Hperm. induction order as [|j order IH]; intros k; [done|].
    destruct (lookup_lt_is_Some_2 array j) as [p Hp]; [apply Hvalid; by left|].
    simpl. rewrite Hp. destruct k as [|k]; simpl; [done|].
    apply IH. intros j' Hj'. apply Hvalid. by right. }
  rewrite Hsel. destruct (decide (i < length array)%nat) as [Hi|Hi].
  - apply Hcomp. by apply Hfix.
  - rewrite !(proj2 (lookup_ge_None _ _)); [done | lia..].
Qed.

(** ** Pointer accesses *)

Lemma load_at_lookup {A} (a : list A) (i : Z) v :
  0 ≤ i → a !! Z.to_nat i = Some v → load_at (Some a) i = Done v.
Proof.
  intros Hi Hv. unfold load_at. apply lookup_lt_Some in Hv as Hlt.
  rewrite decide_True by lia. by apply load_lookup.
Qed.

Lemma load_at_holds {A} (p : option (list A)) (n i : Z) :
  block_holds p n → 0 ≤ i < n →
  ∃ a v, p = Some a ∧ a !! Z.to_nat i = Some v ∧ load_at p i = Done v.
Proof.
  intros [H0 Hn] Hi. destruct p as [a|]; simpl in *; [|lia].
  destruct (lookup_lt_is_Some_2 a (Z.to_nat i)) as [v Hv]; [lia|].
  exists a, v. split; [done|]. split; [done|]. apply load_at_lookup; [lia | done].
Qed.

(** ** Layout converter *)

Lemma str_at_offset_consecutive_holds conv (d : consecutive_slices_t) (n i : Z) :
  block_holds (consecutive.end_offsets d) n → 0 ≤ i < n →
  ∃ p, str_at_offset_consecutive conv d i n = Done p.
Proof.
  intros Hb Hi. unfold str_at_offset_consecutive.
  destruct (load_at_holds _ _ i Hb) as (a & e & Ha & _ & ->); [lia|].
  destruct (decide (i = 0)) as [->|Hne]; simpl; [eauto|].
  destruct (load_at_holds _ _ (i - 1) Hb) as (? & e' & _ & _ & ->); [lia|].
  simpl. eauto.
Qed.

Lemma populate_parts_spec (getter : Z → Z → outcome part_t) (count : Z) :
  (∀ i, 0 ≤ i < count → ∃ p, getter i count = Done p) →
  ∀ todo i new_parts,
    0 ≤ i → i + Z.of_nat todo = count →
    Z.of_nat (length new_parts) = count →
    ∃ parts,
      populate_parts getter count todo i new_parts = Done parts ∧
      length parts = length new_parts ∧
      (∀ k, 0 ≤ k < i → parts !! Z.to_nat k = new_parts !! Z.to_nat k) ∧
      (∀ k, i ≤ k < count → ∃ p,
         getter k count = Done p ∧
         parts !! Z.to_nat k
         = Some (sz_string_view.mk (part_start p) (part_length p))).
Proof.
  intros Hget. induction todo as [|todo IH]; intros i new_parts Hi Hcount Hlen.
  { exists new_parts. repeat split; try done. intros k Hk. lia. }
  destruct (Hget i) as [p Hp]; [lia|].
  simpl. rewrite Hp. simpl. rewrite store_lt by lia. simpl.
  destruct (IH (i + 1) (<[Z.to_nat i:=sz_string_view.mk (part_start p) (part_length p)]>
                           new_parts))
    as (parts & -> & Hl & Hlow & Hhigh); [lia | lia | by rewrite length_insert |].
  exists parts. repeat split.
  - by rewrite Hl, length_insert.
  - intros k Hk. rewrite Hlow by lia. apply list_lookup_insert_ne. lia.
  - intros k Hk. destruct (decide (k = i)) as [->|Hne].
    + exists p. split; [done|]. rewrite Hlow by lia.
      apply list_lookup_insert_eq. lia.
    + apply Hhigh. lia.
Qed.

Lemma next_allocation_malloc rt :
  (next_allocation rt).1 = true → ∃ rt', malloc rt = (true, rt').
Proof.
  unfold malloc. destruct (next_allocation rt) as [ok rt1]. simpl.
  intros ->. eauto.
Qed.

Lemma prepare_consecutive rt strs d getter :
  block_holds (consecutive.end_offsets d) (consecutive.count d) →
  (next_allocation rt).1 = true →
  str_at_offset_getter strs = Some getter →
  Strs_len strs = consecutive.count d →
  (∀ i n, getter i n = str_at_offset_consecutive_32bit d i n) ∨
  (∀ i n, getter i n = str_at_offset_consecutive_64bit d i n) →
  ∃ new_parts rt',
    let strs' := STRS_REORDERED
      (reordered.mk (consecutive.count d) (consecutive.parent d) (Some new_parts)) in
    (let '(ok, rt1) := malloc rt in
     if negb ok then Done (false, strs, PyErr_SetString PyExc_MemoryError rt1)
     else
       new_parts ← populate_parts getter (consecutive.count d)
                     (Z.to_nat (consecutive.count d)) 0
                     (fresh_block (sz_string_view.mk 0 0) (consecutive.count d));
       let rt2 := if consecutive.end_offsets d is Some _ then free rt1 else rt1 in
       Done (true, STRS_REORDERED
                     (reordered.mk (consecutive.count d) (consecutive.parent d)
                                   (Some new_parts)), rt2))
    = Done (true, strs', rt') ∧
    Z.of_nat (length new_parts) = consecutive.count d ∧
    ∀ i, 0 ≤ i < consecutive.count d →
      ∃ p, observable_part strs i = Some (Done p) ∧
           new_parts !! Z.to_nat i
           = Some (sz_string_view.mk (part_start p) (part_length p)) ∧
           observable_part strs' i = Some (Done p).
Proof.
  intros Hb Hok Hgetter Hlen Hg.
  destruct (next_allocation_malloc rt Hok) as [rt1 ->]. simpl.
  pose proof Hb as [Hc0 _].
  destruct (populate_parts_spec getter (consecutive.count d)) with
    (todo := Z.to_nat (consecutive.count d)) (i := 0)
    (new_parts := fresh_block (sz_string_view.mk 0 0) (consecutive.count d))
    as (parts & -> & Hl & _ & Hparts).
  { intros i Hi. destruct Hg as [Hg|Hg]; rewrite Hg;
      by apply str_at_offset_consecutive_holds. }
  { done. }
  { lia. }
  { unfold fresh_block. rewrite length_replicate. lia. }
  simpl. eexists parts, _. split; [done|].
  assert (Z.of_nat (length parts) = consecutive.count d) as Hlp.
  { rewrite Hl. unfold fresh_block. rewrite length_replicate. lia. }
  split; [done|].
  intros i Hi. destruct (Hparts i) as (p & Hp & Hlook); [lia|].
  exists p. unfold observable_part. rewrite Hgetter. simpl. rewrite Hlen, Hp.
  repeat split; [done|].
  unfold str_at_offset_reordered. simpl.
  rewrite (load_at_lookup parts i _ (proj1 Hi) Hlook). simpl.
  f_equal. f_equal.
  assert (part_parent p = consecutive.parent d) as <-; [|by destruct p].
  destruct Hg as [Hg|Hg]; rewrite Hg in Hp;
    unfold str_at_offset_consecutive_32bit, str_at_offset_consecutive_64bit,
      str_at_offset_consecutive in Hp;
    repeat (match type of Hp with
            | context [mbind _ ?x] => destruct x; simpl in Hp; try discriminate
            end);
    by injection Hp as <-.
Qed.

(** C4. Given a consecutive collection whose offsets block holds [count]
    elements and an allocator that grants the next request, the converter
    returns success and leaves a reordered collection with the same count
    whose [i]-th pair is the [i]-th observable part of the original, for
    every [i] below the count.  On a reordered or multi-source collection it
    returns success at once, with the collection and the runtime as they
    were. *)
Theorem prepare_strings_for_reordering_converts (rt : runtime) (strs : Strs) :
  (∀ d, strs = STRS_CONSECUTIVE_32 d ∨ strs = STRS_CONSECUTIVE_64 d →
        block_holds (consecutive.end_offsets d) (consecutive.count d) →
        (next_allocation rt).1 = true →
        ∃ new_parts rt',
          let strs' := STRS_REORDERED
            (reordered.mk (consecutive.count d) (consecutive.parent d)
                          (Some new_parts)) in
          prepare_strings_for_reordering rt strs = Done (true, strs', rt') ∧
          Strs_len strs' = Strs_len strs ∧
          Z.of_nat (length new_parts) = Strs_len strs ∧
          ∀ i, 0 ≤ i < Strs_len strs →
            ∃ p, observable_part strs i = Some (Done p) ∧
                 new_parts !! Z.to_nat i
                 = Some (sz_string_view.mk (part_start p) (part_length p)) ∧
                 observable_part strs' i = Some (Done p)) ∧
  ((∃ d, strs = STRS_REORDERED d) ∨ strs = STRS_MULTI_SOURCE →
   prepare_strings_for_reordering rt strs = Done (true, strs, rt)).
Proof.
  split.
  - intros d Hd Hb Hok.
    destruct (prepare_consecutive rt strs d
                (match strs with
                 | STRS_CONSECUTIVE_64 _ => str_at_offset_consecutive_64bit d
                 | _ => str_at_offset_consecutive_32bit d
                 end) Hb Hok)
      as (new_parts & rt' & Hrun & Hlen & Hparts).
    + by destruct Hd as [->| ->].
    + by destruct Hd as [->| ->].
    + destruct Hd as [->| ->]; [by left | by right].
    + exists new_parts, rt'. simpl.
      assert (Strs_len strs = consecutive.count d) as -> by (by destruct Hd as [->| ->]).
      repeat split; try done.
      by destruct Hd as [->| ->].
  - intros [[d ->]| ->]; reflexivity.
Qed.

Lemma prepare_strings_for_reordering_converts_witness :
  let d := consecutive.mk 3 1 7 1000 (Some [2; 4; 5]) in
  let strs := STRS_CONSECUTIVE_32 d in
  ∃ new_parts rt',
    let strs' := STRS_REORDERED (reordered.mk 3 7 (Some new_parts)) in
    prepare_strings_for_reordering fresh_runtime strs = Done (true, strs', rt') ∧
    Strs_len strs' = Strs_len strs ∧
    Z.of_nat (length new_parts) = Strs_len strs ∧
    ∀ i, 0 ≤ i < Strs_len strs →
      ∃ p, observable_part strs i = Some (Done p) ∧
           new_parts !! Z.to_nat i
           = Some (sz_string_view.mk (part_start p) (part_length p)) ∧
           observable_part strs' i = Some (Done p).
Proof.
  intros d strs.
  apply (proj1 (prepare_strings_for_reordering_converts fresh_runtime strs) d).
  - left. reflexivity.
  - unfold block_holds. simpl. lia.
  - reflexivity.
Defined.

Example prepare_strings_for_reordering_sample :
  prepare_strings_for_reordering fresh_runtime
    (STRS_CONSECUTIVE_32 (consecutive.mk 3 1 7 1000 (Some [2; 4; 5])))
  = Done (true,
          STRS_REORDERED
            (reordered.mk 3 7
               (Some [sz_string_view.mk 1000 1; sz_string_view.mk 1002 1;
                      sz_string_view.mk 1004 1])),
          mk_runtime (ob_refcnt fresh_runtime) 0 0 None [] (mk_temporary_memory false 0) 0).
Proof. reflexivity. Qed.

Lemma apply_order_permutes_witness :
  let array := [sz_string_view.mk 10 1; sz_string_view.mk 20 2; sz_string_view.mk 30 3] in
  let order := [2; 0; 1]%nat in
  ∃ array' order',
    apply_order 3 array order (length array) = Done (array', order') ∧
    length array' = length array ∧
    (∀ i, array' !! i = order !! i ≫= (array !!.)) ∧
    order' = seq 0 (length array).
Proof.
  intros array order. apply (apply_order_permutes array order 3).
  - simpl. etrans; [apply perm_swap|]. apply perm_skip, perm_swap.
  - simpl. lia.
Defined.

(** ** Sub-range extraction *)

(** C1, at the failing input.  The collection is the split of [a,b,c] at
    the commas (three parts, separator of one byte, end offsets 2, 4, 5).
    Its slice [0, 2) has two parts and its part 0 is part 0 of the
    original, but its part 1 has length 2 where part 1 of the original has
    length 1: the getter subtracts the separator from every part but the
    last, and part 1 is the last part of the slice. *)
Theorem Strs_subscript_last_part_keeps_separator :
  let strs := STRS_CONSECUTIVE_32 (consecutive.mk 3 1 7 1000 (Some [2; 4; 5])) in
  ∃ slice rt',
    Strs_subscript fresh_runtime strs 0 2 1 = Done (Some slice, rt') ∧
    Strs_len slice = 2 ∧
    observable_part slice 0 = observable_part strs 0 ∧
    observable_part strs 1 = Some (Done (mk_part 7 1002 1)) ∧
    observable_part slice 1 = Some (Done (mk_part 7 1002 2)) ∧
    observable_part slice 1 ≠ observable_part strs 1.
Proof.
  intros strs. eexists _, _. split; [reflexivity|].
  repeat split; try reflexivity. discriminate.
Qed.

(** ** Allocator *)

Lemma next_allocation_same rt ok rt' :
  next_allocation rt = (ok, rt') →
  same_but_heap rt rt' ∧ blocks rt' = blocks rt.
Proof.
  unfold next_allocation, same_but_heap.
  destruct (oracle rt) as [|b o]; intros [= <- <-]; simpl; done.
Qed.

Lemma realloc_same old_is_null rt ok rt' :
  realloc old_is_null rt = (ok, rt') →
  same_but_heap rt rt' ∧
  blocks rt' = blocks rt + (if ok && old_is_null then 1 else 0).
Proof.
  unfold realloc. destruct (next_allocation rt) as [ok1 rt1] eqn:Hn.
  apply next_allocation_same in Hn as [(? & ? & ? & ? & ?) ?].
  intros [= <- <-]. unfold same_but_heap.
  destruct (ok1 && old_is_null); simpl; repeat split; try done; lia.
Qed.

Lemma PyObject_New_same rt ok rt' :
  PyObject_New rt = (ok, rt') →
  ob_refcnt rt' = ob_refcnt rt ∧ blocks rt' = blocks rt ∧
  objects rt' = objects rt + (if ok then 1 else 0) ∧
  err rt' = (if ok then err rt else Some PyExc_MemoryError).
Proof.
  unfold PyObject_New. destruct (next_allocation rt) as [ok1 rt1] eqn:Hn.
  apply next_allocation_same in Hn as [(? & ? & ? & ? & ?) ?].
  intros [= <- <-]. destruct ok1; simpl; repeat split; try done; lia.
Qed.

(** ** Splitter: failure *)

Lemma store_at_Done {A} (p q : option (list A)) (i : Z) (v : A) :
  store_at p i v = Done q →
  ∃ a, p = Some a ∧ 0 ≤ i < Z.of_nat (length a) ∧ q = Some (<[Z.to_nat i:=v]> a).
Proof.
  unfold store_at. destruct p as [a|]; [|discriminate].
  case_decide as Hi; [|discriminate].
  rewrite store_lt by lia. intros [= <-]. eauto.
Qed.

(** A [NULL] return from inside the loop: the offsets block is released,
    the new object is deallocated, no reference count has moved and the
    error indicator holds [MemoryError]. *)
Lemma Str_split_loop_failure m text separator maxsplit wide fuel :
  ∀ rt l rt',
    Str_split_loop fuel m text separator maxsplit wide rt l = Done (None, rt') →
    blocks rt' = blocks rt - (if offsets_endings l is Some _ then 1 else 0) ∧
    objects rt' = objects rt - 1 ∧
    ob_refcnt rt' = ob_refcnt rt ∧
    err rt' = Some PyExc_MemoryError.
Proof.
  induction fuel as [|fuel IH]; intros rt l rt'; [discriminate|].
  cbn [Str_split_loop]. case_decide as Hcond; [|discriminate].
  destruct (reallocate_offsets l rt) as [[capacity endings] rt1] eqn:Hgrow.
  assert (ob_refcnt rt1 = ob_refcnt rt ∧ objects rt1 = objects rt ∧
          blocks rt1 = blocks rt
                       + (if endings is Some _ then 1 else 0)
                       - (if offsets_endings l is Some _ then 1 else 0))
    as (Hrc & Hob & Hbl).
  { unfold reallocate_offsets in Hgrow. case_decide as Hfull.
    - destruct (realloc _ rt) as [ok rt2] eqn:Hre.
      apply realloc_same in Hre as [(Hrc & Hob & _) Hbl].
      destruct ok; injection Hgrow as <- <- <-;
        destruct (offsets_endings l); simpl in *; repeat split; try done; lia.
    - injection Hgrow as <- <- <-.
      destruct (offsets_endings l); repeat split; lia. }
  destruct endings as [b|].
  - destruct (store_at _ _ _) as [endings1| |] eqn:Hst; simpl; try discriminate.
    apply store_at_Done in Hst as (a & _ & _ & ->).
    intros Hrun. apply IH in Hrun as (Hb & Ho & Hr & He). simpl in Hb.
    rewrite Hb, Ho, Hr, He, Hbl, Hob, Hrc. repeat split; lia.
  - intros [= <-]. simpl. rewrite Hbl, Hob, Hrc. repeat split; lia.
Qed.

Lemma Str_split_failure fuel m rt parent text separator keepseparator maxsplit rt' :
  Str_split_ fuel m rt parent text separator keepseparator maxsplit = Done (None, rt') →
  blocks rt' = blocks rt ∧ objects rt' = objects rt ∧
  ob_refcnt rt' = ob_refcnt rt ∧ err rt' = Some PyExc_MemoryError.
Proof.
  unfold Str_split_. destruct (PyObject_New rt) as [ok rt1] eqn:Hnew.
  apply PyObject_New_same in Hnew as (Hrc & Hbl & Hob & Herr).
  destruct ok; simpl.
  - destruct (Str_split_loop _ _ _ _ _ _ _ _) as [[[l|] rt2]| |] eqn:Hloop;
      simpl; try discriminate.
    intros [= <-]. apply Str_split_loop_failure in Hloop as (Hb & Ho & Hr & He).
    simpl in Hb. rewrite Hb, Ho, Hr, He, Hbl, Hob, Hrc. repeat split; lia.
  - intros [= <-]. rewrite Hbl, Hob, Hrc, Herr. repeat split; lia.
Qed.

(** ** Layout converter: failure *)

Lemma prepare_strings_for_reordering_failure rt strs :
  is_consecutive strs → (next_allocation rt).1 = false →
  ∃ rt', prepare_strings_for_reordering rt strs = Done (false, strs, rt') ∧
         err rt' = Some PyExc_MemoryError.
Proof.
  intros Hc Hfail. unfold prepare_strings_for_reordering, malloc.
  destruct (next_allocation rt) as [ok rt1]. simpl in Hfail. subst ok.
  destruct strs as [d|d| |]; try done; simpl; eauto.
Qed.

(** ** Splitter: a collection is returned only when every request was granted *)

Lemma all_granted_refl rt rt' : oracle rt' = oracle rt → all_granted rt rt'.
Proof. intros Ho. exists []. by rewrite Ho. Qed.

Lemma all_granted_trans rt1 rt2 rt3 :
  all_granted rt1 rt2 → all_granted rt2 rt3 → all_granted rt1 rt3.
Proof.
  intros (a1 & H1 & Ha1) (a2 & H2 & Ha2). exists (a1 ++ a2). split.
  - by rewrite H1, H2, app_assoc.
  - by apply Forall_app.
Qed.

Lemma next_allocation_granted rt rt' :
  next_allocation rt = (true, rt') → all_granted rt rt'.
Proof.
  unfold next_allocation. destruct (oracle rt) as [|b o] eqn:Ho.
  - intros [= <-]. by apply all_granted_refl.
  - intros [= -> <-]. exists [true]. rewrite Ho. split; [done|]. by constructor.
Qed.

Lemma realloc_true_granted old_is_null rt rt' :
  realloc old_is_null rt = (true, rt') → all_granted rt rt'.
Proof.
  unfold realloc. destruct (next_allocation rt) as [ok rt1] eqn:Hn.
  intros [= -> <-]. apply next_allocation_granted in Hn.
  eapply all_granted_trans; [done|]. apply all_granted_refl.
  by destruct old_is_null.
Qed.

Lemma PyObject_New_true_granted rt rt' :
  PyObject_New rt = (true, rt') → all_granted rt rt'.
Proof.
  unfold PyObject_New. destruct (next_allocation rt) as [ok rt1] eqn:Hn.
  intros [= -> <-]. apply next_allocation_granted in Hn.
  eapply all_granted_trans; [done|]. by apply all_granted_refl.
Qed.

Lemma Str_split_loop_success m text separator maxsplit wide fuel :
  ∀ rt l l' rt',
    Str_split_loop fuel m text separator maxsplit wide rt l = Done (Some l', rt') →
    all_granted rt rt'.
Proof.
  induction fuel as [|fuel IH]; intros rt l l' rt'; [discriminate|].
  cbn [Str_split_loop]. case_decide as Hcond.
  2:{ intros [= <- <-]. by apply all_granted_refl. }
  destruct (reallocate_offsets l rt) as [[capacity endings] rt1] eqn:Hgrow.
  destruct endings as [b|]; [|discriminate].
  destruct (store_at _ _ _) as [endings1| |]; simpl; try discriminate.
  intros Hrun. apply IH in Hrun. eapply all_granted_trans; [|done].
  unfold reallocate_offsets in Hgrow. case_decide as Hfull.
  - destruct (realloc _ rt) as [[] rt2] eqn:Hre; [|discriminate].
    injection Hgrow as _ _ <-. by eapply realloc_true_granted.
  - injection Hgrow as _ _ <-. by apply all_granted_refl.
Qed.

Lemma Str_split_success fuel m rt parent text separator keepseparator maxsplit
    strs rt' :
  Str_split_ fuel m rt parent text separator keepseparator maxsplit
  = Done (Some strs, rt') →
  all_granted rt rt'.
Proof.
  unfold Str_split_. destruct (PyObject_New rt) as [[] rt1] eqn:Hnew; [|discriminate].
  apply PyObject_New_true_granted in Hnew. cbn [negb].
  destruct (Str_split_loop _ _ _ _ _ _ _ _) as [[[l|] rt2]| |] eqn:Hloop;
    simpl; try discriminate.
  intros [= <- <-]. apply Str_split_loop_success in Hloop.
  eapply all_granted_trans; [done|]. eapply all_granted_trans; [done|].
  by apply all_granted_refl.
Qed.

(** ** Splitter: the split budget *)

Lemma Str_split_loop_no_budget fuel m text separator wide rt l :
  to_size_t 0 ≤ offsets_count l →
  Str_split_loop (S fuel) m text separator 0 wide rt l = Done (Some l, rt).
Proof.
  intros Hc. cbn [Str_split_loop].
  destruct (decide (last_start l ≤ sz_string_view.length text
                    ∧ offsets_count l < to_size_t 0)) as [[_ H]|_]; [lia | done].
Qed.

(** C2, second half, on the code.  With [maxsplit = 0] the loop is not
    entered: whatever the text and the separator, the call either fails to
    allocate the object or returns a collection with no part at all, and
    not the one part equal to the source. *)
Theorem Str_split_maxsplit_zero_has_no_part
    fuel m rt parent text separator keepseparator :
  ∃ r rt',
    Str_split_ (S fuel) m rt parent text separator keepseparator 0 = Done (r, rt') ∧
    (r = None ∨
     ∃ strs, r = Some strs ∧ Strs_len strs = 0 ∧ parts_bytes m strs = Some []).
Proof.
  unfold Str_split_. destruct (PyObject_New rt) as [[] rt1].
  - cbn [negb]. rewrite Str_split_loop_no_budget by (vm_compute; discriminate).
    simpl. eexists _, _. split; [done|]. right.
    destruct (bool_decide _); eexists; split; try reflexivity; split; reflexivity.
  - eexists _, _. split; [done|]. by left.
Qed.

(** With [maxsplit = 1] the loop stops after the first match: the one part
    is [a,] and the rest of the text belongs to no part. *)
Example Str_split_maxsplit_one_drops_the_rest :
  ∃ strs rt',
    Str_split_ 10 sample_memory fresh_runtime 7 sample_text sample_separator 0 1
    = Done (Some strs, rt') ∧
    parts_bytes sample_memory strs = Some [[97; 44]].
Proof. eexists _, _. split; reflexivity. Qed.

Example Str_split_sample :
  ∃ strs rt',
    Str_split_ 10 sample_memory fresh_runtime 7 sample_text sample_separator 0
               PY_SSIZE_T_MAX
    = Done (Some strs, rt') ∧
    parts_bytes sample_memory strs = Some [[97]; [98; 98]; [99; 99; 99]] ∧
    ob_refcnt rt' 7 = ob_refcnt fresh_runtime 7 + 1.
Proof. eexists _, _. repeat split; reflexivity. Qed.

(** ** Shuffle: the empty collection *)

(** Entered at [i = SIZE_MAX], the loop of the shuffle computes
    [rand() % (i + 1)] with [i + 1] wrapped to zero. *)
Lemma shuffle_loop_underflow `{libc_rand_t} fuel parts rt :
  shuffle_loop (S fuel) (to_size_t (0 - 1)) parts rt = Fault DivisionByZero.
Proof.
  cbn [shuffle_loop].
  destruct (decide (0 < to_size_t (0 - 1))) as [_|Hn]; [|by destruct Hn].
  destruct (rand (rand_state rt)) as [r state].
  destruct (decide (to_size_t (to_size_t (0 - 1) + 1) = 0)) as [_|Hn]; [done|].
  by destruct Hn.
Qed.

(** C10, on the code.  For a reordered collection with zero parts, whatever
    the seed, the generator and the runtime, [i] starts at [count - 1],
    which is [SIZE_MAX] in [size_t]; the loop is entered and the draw
    [rand() % (i + 1)] has a zero divisor. *)
Theorem Strs_shuffle_empty_divides_by_zero `{libc_rand_t}
    (rt : runtime) (parent : PyObject) (parts : option (list sz_string_view_t))
    (seed : Z) :
  Strs_shuffle rt (STRS_REORDERED (reordered.mk 0 parent parts)) seed
  = Fault DivisionByZero.
Proof.
  unfold Strs_shuffle. cbn [prepare_strings_for_reordering mbind outcome_bind negb].
  cbn [reordered.count reordered.parts Z.to_nat].
  by rewrite shuffle_loop_underflow.
Qed.

(** C8, at the failing input.  The empty slice [0:0] of a reordered
    collection is a collection with zero parts; for every seed its shuffle
    stops at the division by zero, so there is no arrangement after the
    call to compare with the one before. *)
Theorem Strs_shuffle_empty_slice_has_no_result `{libc_rand_t} (seed : Z) :
  let strs := STRS_REORDERED
    (reordered.mk 2 7 (Some [sz_string_view.mk 1000 1; sz_string_view.mk 1002 1])) in
  ∃ empty rt,
    Strs_subscript fresh_runtime strs 0 0 1 = Done (Some empty, rt) ∧
    Strs_len empty = 0 ∧
    ∀ result, Strs_shuffle rt empty seed ≠ Done result.
Proof.
  intros strs. eexists _, _. split; [reflexivity|]. split; [reflexivity|].
  intros result. unfold Strs_shuffle.
  cbn [prepare_strings_for_reordering mbind outcome_bind negb].
  cbn [reordered.count reordered.parts Z.to_nat].
  change (to_size_t (0 - 0)) with 0.
  by rewrite shuffle_loop_underflow.
Qed.

(** ** Order: the empty collection *)

Lemma sz_sort_nil `{sz_sort_t} m parts : sz_sort m parts [] = [].
Proof. apply Permutation_nil_r. apply sz_sort_permutes. Qed.

(** With [length = 0], [j] starts at [SIZE_MAX] and the first swap reads
    outside the array. *)
Lemma reverse_offsets_empty : reverse_offsets [] 0 = Fault OutOfBounds.
Proof. reflexivity. Qed.

(** C7, at the failing input.  For a reordered collection with zero parts,
    in a runtime whose scratch buffer was set up by the module
    initialisation, [order(reverse=false)] returns the empty tuple, while
    [order(reverse=true)] enters the loop of [reverse_offsets] with
    [j = length - 1] wrapped to [SIZE_MAX] and swaps [array[0]] with
    [array[SIZE_MAX]], outside the array. *)
Theorem Strs_order_reverse_empty_out_of_bounds `{sz_sort_t}
    (m : memory) (parent : PyObject) (parts : option (list sz_string_view_t)) :
  let rt := PyInit_stringzilla fresh_runtime in
  let strs := STRS_REORDERED (reordered.mk 0 parent parts) in
  (∃ rt', Strs_order m rt strs false = Done (Some [], strs, rt')) ∧
  Strs_order m rt strs true = Fault OutOfBounds.
Proof.
  intros rt strs. unfold Strs_order, Strs_sort_. subst rt strs.
  cbn [prepare_strings_for_reordering mbind outcome_bind negb reordered.count
       reordered.parts].
  change (temporary_memory (PyInit_stringzilla fresh_runtime))
    with (mk_temporary_memory true 4096).
  rewrite decide_False by (vm_compute; discriminate).
  cbn [tm_allocated negb Z.to_nat seq].
  assert (∃ ps, match parts with
                | Some parts0 => Done parts0
                | None => if decide (0 = 0) then Done [] else Fault NullDereference
                end = Done ps) as [ps ->].
  { destruct parts; [eauto|]. rewrite decide_True by done. eauto. }
  cbn [mbind outcome_bind]. rewrite sz_sort_nil. split.
  - cbn [mbind outcome_bind]. eexists. reflexivity.
  - by rewrite reverse_offsets_empty.
Qed.

(** ** The comparator *)

Lemma sz_order_refl a : sz_order a a = Eq.
Proof. induction a as [|x a IH]; simpl; [done|]. by rewrite Z.compare_refl. Qed.

Lemma sz_order_antisym a b : sz_order b a = CompOpp (sz_order a b).
Proof.
  revert b. induction a as [|x a IH]; intros [|y b]; simpl; try done.
  rewrite (Z.compare_antisym x y). destruct (x ?= y); simpl; auto.
Qed.

Lemma sz_order_Eq a b : sz_order a b = Eq → a = b.
Proof.
  revert b. induction a as [|x a IH]; intros [|y b]; simpl; try done.
  destruct (x ?= y) eqn:Hxy; try done.
  apply Z.compare_eq in Hxy as ->. intros H. f_equal. by apply IH.
Qed.

Lemma sz_order_Lt_trans a b c :
  sz_order a b = Lt → sz_order b c = Lt → sz_order a c = Lt.
Proof.
  revert b c. induction a as [|x a IH]; intros [|y b] [|z c]; simpl; try done.
  destruct (Z.compare_spec x y) as [Hxy|Hxy|Hxy], (Z.compare_spec y z) as [Hyz|Hyz|Hyz];
    try done.
  - assert ((x ?= z) = Eq) as -> by (apply Z.compare_eq_iff; lia). apply IH.
  - assert ((x ?= z) = Lt) as -> by (apply Z.compare_lt_iff; lia). done.
  - assert ((x ?= z) = Lt) as -> by (apply Z.compare_lt_iff; lia). done.
  - assert ((x ?= z) = Lt) as -> by (apply Z.compare_lt_iff; lia). done.
Qed.

#[global] Instance bytes_le_refl : Reflexive bytes_le.
Proof. intros a. unfold bytes_le. by rewrite sz_order_refl. Qed.

#[global] Instance bytes_le_total : Total bytes_le.
Proof.
  intros a b. unfold bytes_le. rewrite (sz_order_antisym a b).
  destruct (sz_order a b); simpl; auto.
Qed.

#[global] Instance bytes_le_antisym : AntiSymm (=) bytes_le.
Proof.
  intros a b. unfold bytes_le. rewrite (sz_order_antisym a b).
  destruct (sz_order a b) eqn:Hab; simpl; try done.
  intros _ _. by apply sz_order_Eq.
Qed.

#[global] Instance bytes_le_trans : Transitive bytes_le.
Proof.
  intros a b c. unfold bytes_le.
  destruct (sz_order a b) eqn:Hab; try done; intros _;
    destruct (sz_order b c) eqn:Hbc; try done; intros _.
  - apply sz_order_Eq in Hab as ->. by rewrite Hbc.
  - apply sz_order_Eq in Hab as ->. by rewrite Hbc.
  - apply sz_order_Eq in Hbc as <-. by rewrite Hab.
  - by rewrite (sz_order_Lt_trans a b c).
Qed.

(** ** Parts selected by an order *)

Lemma parts_in_order_cons parts i order p :
  parts !! i = Some p →
  parts_in_order parts (i :: order) = p :: parts_in_order parts order.
Proof. intros Hp. unfold parts_in_order. simpl. by rewrite Hp. Qed.

Lemma parts_in_order_lookup parts order :
  (∀ i, i ∈ order → (i < length parts)%nat) →
  ∀ k, parts_in_order parts order !! k = order !! k ≫= (parts !!.).
Proof.
  induction order as [|i order IH]; intros Hvalid k; [done|].
  destruct (lookup_lt_is_Some_2 parts i) as [p Hp]; [apply Hvalid; by left|].
  rewrite (parts_in_order_cons _ _ _ _ Hp).
  destruct k as [|k]; simpl; [done|].
  apply IH. intros j Hj. apply Hvalid. by right.
Qed.

Lemma parts_in_order_seq parts :
  parts_in_order parts (seq 0 (length parts)) = parts.
Proof.
  apply list_eq. intros k. rewrite parts_in_order_lookup.
  - destruct (decide (k < length parts)%nat) as [Hk|Hk].
    + by rewrite lookup_seq_lt.
    + rewrite !(proj2 (lookup_ge_None _ _)); [done | rewrite ?length_seq; lia..].
  - intros i Hi. apply elem_of_seq in Hi. lia.
Qed.

Lemma parts_in_order_Permutation parts order :
  order ≡ₚ seq 0 (length parts) → parts_in_order parts order ≡ₚ parts.
Proof.
  intros Hperm. unfold parts_in_order. rewrite Hperm. apply reflexive_eq.
  apply parts_in_order_seq.
Qed.

Lemma order_valid (n : nat) order i :
  order ≡ₚ seq 0 n → i ∈ order → (i < n)%nat.
Proof. intros Hperm Hi. rewrite Hperm in Hi. apply elem_of_seq in Hi. lia. Qed.

(** ** The merge sort of the indices is a sort primitive *)

#[global] Instance index_le_total m parts : Total (index_le m parts).
Proof. intros i j. unfold index_le. apply total, _. Qed.

Lemma Sorted_index_le_bytes m parts order :
  (∀ i, i ∈ order → (i < length parts)%nat) →
  Sorted (index_le m parts) order →
  Sorted bytes_le (view_bytes m <$> parts_in_order parts order).
Proof.
  intros Hvalid Hsorted. induction Hsorted as [|i order Hs IH Hhd]; [constructor|].
  destruct (lookup_lt_is_Some_2 parts i) as [p Hp]; [apply Hvalid; by left|].
  rewrite (parts_in_order_cons _ _ _ _ Hp). csimpl. constructor.
  - apply IH. intros j Hj. apply Hvalid. by right.
  - destruct Hhd as [|j order Hij]; [constructor|].
    destruct (lookup_lt_is_Some_2 parts j) as [q Hq].
    { apply Hvalid. right. by left. }
    rewrite (parts_in_order_cons _ _ _ _ Hq). csimpl. constructor.
    unfold index_le in Hij. by rewrite Hp, Hq in Hij.
Qed.

#[global] Program Instance sz_sort_merging : sz_sort_t := {
  sz_sort := sz_sort_by_merging
}.
Next Obligation. intros m parts order. apply merge_sort_Permutation. Qed.
Next Obligation.
  intros m parts order Hvalid. apply Sorted_index_le_bytes.
  - intros i Hi. apply Hvalid. unfold sz_sort_by_merging in Hi.
    by rewrite merge_sort_Permutation in Hi.
  - apply Sorted_merge_sort, _.
Qed.




(** ** The bytes of the parts *)

Lemma mapM_ext_Forall {A B} (f g : A → option B) l :
  Forall (λ x, f x = g x) l → mapM f l = mapM g l.
Proof. induction 1 as [|x l Hx _ IH]; simpl; [done|]. by rewrite Hx, IH. Qed.

Lemma parts_bytes_ext m strs strs' :
  Strs_len strs = Strs_len strs' →
  (∀ i, 0 ≤ i < Strs_len strs → observable_part strs i = observable_part strs' i) →
  parts_bytes m strs = parts_bytes m strs'.
Proof.
  intros Hlen Hobs. unfold parts_bytes. rewrite <- Hlen.
  apply mapM_ext_Forall, Forall_forall. intros i Hi.
  apply elem_of_seq in Hi. rewrite Hobs; [done | lia].
Qed.

Lemma parts_bytes_reordered m n parent ptr :
  Z.of_nat (length (default [] ptr)) = n →
  parts_bytes m (STRS_REORDERED (reordered.mk n parent ptr))
  = Some (view_bytes m <$> default [] ptr).
Proof.
  intros Hn. unfold parts_bytes. apply mapM_Some_2.
  apply Forall2_same_length_lookup_2.
  { rewrite length_seq, length_fmap. simpl. lia. }
  intros i x y Hx Hy. apply lookup_seq in Hx as [-> Hi].
  apply list_lookup_fmap_Some_1 in Hy as (p & -> & Hp).
  unfold observable_part. simpl. unfold str_at_offset_reordered. simpl.
  destruct ptr as [ps|]; simpl in *; [|done].
  rewrite (load_at_lookup ps (Z.of_nat i) p); [done | lia | by rewrite Nat2Z.id].
Qed.

(** ** Sort and order *)

Lemma prepare_strings_for_reordering_runtime rt strs ok strs' rt' :
  prepare_strings_for_reordering rt strs = Done (ok, strs', rt') →
  temporary_memory rt' = temporary_memory rt ∧
  rand_state rt' = rand_state rt ∧
  (oracle rt = [] → oracle rt' = []).
Proof.
  unfold prepare_strings_for_reordering, malloc, next_allocation.
  destruct strs as [d|d|d|]; try (by intros [= <- <- <-]);
    destruct (oracle rt) as [|[] o] eqn:Ho; simpl;
    try (by intros [= <- <- <-]);
    destruct (populate_parts _ _ _ _ _); simpl; try discriminate;
    intros [= <- <- <-]; destruct (consecutive.end_offsets d); simpl;
    rewrite ?Ho; done.
Qed.

Lemma prepare_strings_for_reordering_valid m rt strs :
  valid_collection strs → oracle rt = [] →
  ∃ d rt',
    prepare_strings_for_reordering rt strs = Done (true, STRS_REORDERED d, rt') ∧
    valid_collection (STRS_REORDERED d) ∧
    reordered.count d = Strs_len strs ∧
    parts_bytes m (STRS_REORDERED d) = parts_bytes m strs.
Proof.
  intros Hvalid Horacle.
  assert ((next_allocation rt).1 = true) as Hok.
  { unfold next_allocation. by rewrite Horacle. }
  destruct strs as [d|d|d|]; try done.
  - destruct (prepare_consecutive rt (STRS_CONSECUTIVE_32 d) d
                (str_at_offset_consecutive_32bit d) Hvalid Hok)
      as (ps & rt' & Hrun & Hlen & Hparts); [done | done | by left |].
    eexists _, rt'. split; [exact Hrun|]. repeat split; [done|].
    apply parts_bytes_ext; [done|]. intros i Hi.
    destruct (Hparts i Hi) as (p & -> & _ & ->). done.
  - destruct (prepare_consecutive rt (STRS_CONSECUTIVE_64 d) d
                (str_at_offset_consecutive_64bit d) Hvalid Hok)
      as (ps & rt' & Hrun & Hlen & Hparts); [done | done | by right |].
    eexists _, rt'. split; [exact Hrun|]. repeat split; [done|].
    apply parts_bytes_ext; [done|]. intros i Hi.
    destruct (Hparts i Hi) as (p & -> & _ & ->). done.
  - exists d, rt. by repeat split.
Qed.

Lemma realloc_granted old_is_null rt :
  oracle rt = [] →
  ∃ rt', realloc old_is_null rt = (true, rt') ∧ oracle rt' = [] ∧
         temporary_memory rt' = temporary_memory rt.
Proof.
  intros Ho. unfold realloc, next_allocation. rewrite Ho.
  destruct old_is_null; simpl; eauto.
Qed.

Lemma PyObject_New_granted rt :
  oracle rt = [] →
  ∃ rt', PyObject_New rt = (true, rt') ∧ oracle rt' = [].
Proof. intros Ho. unfold PyObject_New, next_allocation. rewrite Ho. simpl. eauto. Qed.

Lemma Strs_sort__valid `{sz_sort_t} m rt self :
  valid_collection self → oracle rt = [] →
  tm_allocated (temporary_memory rt) = true →
  ∃ d rt',
    let ps := default [] (reordered.parts d) in
    Strs_sort_ m rt self
    = Done (Some (ps, sz_sort m ps (seq 0 (length ps)), reordered.count d),
            STRS_REORDERED d, rt') ∧
    valid_collection (STRS_REORDERED d) ∧
    reordered.count d = Strs_len self ∧
    parts_bytes m (STRS_REORDERED d) = parts_bytes m self ∧
    oracle rt' = [] ∧
    tm_allocated (temporary_memory rt') = true.
Proof.
  intros Hvalid Horacle Htm.
  destruct (prepare_strings_for_reordering_valid m rt self Hvalid Horacle)
    as (d & rt1 & Hprep & Hvalid' & Hcount & Hbytes).
  destruct (prepare_strings_for_reordering_runtime _ _ _ _ _ Hprep)
    as (Htm1 & _ & Ho1). specialize (Ho1 Horacle).
  unfold Strs_sort_. rewrite Hprep. cbn [mbind outcome_bind negb].
  simpl in Hvalid'.
  assert (∃ tm rt2,
    (if decide (tm_length (temporary_memory rt1) < to_size_t (8 * reordered.count d))
     then let '(ok, rt) := realloc (negb (tm_allocated (temporary_memory rt1))) rt1 in
          (mk_temporary_memory ok (to_size_t (8 * reordered.count d)), rt)
     else (temporary_memory rt1, rt1)) = (tm, rt2) ∧
    tm_allocated tm = true ∧ oracle rt2 = []) as (tm & rt2 & -> & Htm2 & Ho2).
  { case_decide.
    - destruct (realloc_granted (negb (tm_allocated (temporary_memory rt1))) rt1 Ho1)
        as (rt2 & -> & Ho2 & _). eauto.
    - eexists _, _. split; [done|]. by rewrite Htm1. }
  rewrite Htm2. cbn [negb].
  exists d, (set_temporary_memory tm rt2).
  assert (Z.to_nat (reordered.count d) = length (default [] (reordered.parts d)))
    as Hn by lia.
  rewrite Hn. split.
  - destruct (reordered.parts d) as [ps|]; simpl in *; [done|].
    rewrite decide_True by lia. done.
  - repeat split; try done.
Qed.

Lemma order_tuple_granted order : ∀ todo i rt,
  oracle rt = [] → (i + todo = length order)%nat →
  ∃ rt', order_tuple todo i order rt = Done (Some (Z.of_nat <$> drop i order), rt').
Proof.
  induction todo as [|todo IH]; intros i rt Ho Hlen; simpl.
  { rewrite drop_ge by lia. eauto. }
  destruct (lookup_lt_is_Some_2 order i) as [oi Hoi]; [lia|].
  rewrite (load_lookup _ _ _ Hoi). simpl.
  destruct (PyObject_New_granted rt Ho) as (rt1 & -> & Ho1). simpl.
  destruct (IH (S i) rt1 Ho1) as [rt2 ->]; [lia|]. simpl.
  exists rt2. by rewrite (drop_S _ _ _ Hoi).
Qed.

Lemma Strs_sort_valid `{sz_sort_t} m rt self :
  valid_collection self → oracle rt = [] →
  tm_allocated (temporary_memory rt) = true →
  ∃ sorted rt' ps ps',
    Strs_sort m rt self false = Done (true, sorted, rt') ∧
    valid_collection sorted ∧
    parts_bytes m self = Some (view_bytes m <$> ps) ∧
    parts_bytes m sorted = Some (view_bytes m <$> ps') ∧
    ps' ≡ₚ ps ∧
    Sorted bytes_le (view_bytes m <$> ps') ∧
    oracle rt' = [] ∧
    tm_allocated (temporary_memory rt') = true.
Proof.
  intros Hvalid Horacle Htm.
  destruct (Strs_sort__valid m rt self Hvalid Horacle Htm)
    as (d & rt' & Hrun & Hvalid' & Hcount & Hbytes & Ho' & Htm').
  cbv zeta in Hrun. set (ps := default [] (reordered.parts d)) in *.
  set (order := sz_sort m ps (seq 0 (length ps))) in *.
  assert (order ≡ₚ seq 0 (length ps)) as Hperm by apply sz_sort_permutes.
  simpl in Hvalid'. fold ps in Hvalid'.
  destruct (apply_order_parts_in_order ps order (length ps) Hperm) as [order' Happly];
    [done|].
  unfold Strs_sort. rewrite Hrun. cbn [mbind outcome_bind].
  replace (Z.to_nat (reordered.count d)) with (length ps) by lia.
  rewrite Happly. cbn [mbind outcome_bind].
  fold (parts_in_order ps order).
  assert (parts_in_order ps order ≡ₚ ps) as Hperm'
    by (by apply parts_in_order_Permutation).
  assert (default [] (if reordered.parts d is Some _
                      then Some (parts_in_order ps order) else None)
          = parts_in_order ps order) as Hptr.
  { subst ps. destruct (reordered.parts d); simpl in *; [done|].
    symmetry. by apply Permutation_nil_r. }
  exists (with_parts (STRS_REORDERED d) (parts_in_order ps order)), rt',
         ps, (parts_in_order ps order).
  split; [done|]. repeat split; try done.
  - simpl. rewrite Hptr. apply Permutation_length in Hperm'. lia.
  - rewrite <- Hbytes. destruct d as [n parent ptr]. simpl in *.
    by apply parts_bytes_reordered.
  - unfold with_parts. etrans; [apply parts_bytes_reordered | by rewrite Hptr].
    rewrite Hptr. apply Permutation_length in Hperm'. lia.
  - apply sz_sort_sorts. intros i Hi. apply elem_of_seq in Hi. lia.
Qed.

(** ** A second sort of distinct parts *)






(** ** Machine integers *)

Lemma to_size_t_small x : 0 ≤ x ≤ SIZE_MAX → to_size_t x = x.
Proof. intros Hx. unfold to_size_t. apply Z.mod_small. lia. Qed.

Lemma to_u32_small x : 0 ≤ x ≤ UINT32_MAX → to_u32 x = x.
Proof. intros Hx. unfold to_u32. apply Z.mod_small. lia. Qed.

Lemma SIZE_MAX_eq : SIZE_MAX = 18446744073709551615.
Proof. reflexivity. Qed.
Lemma UINT32_MAX_eq : UINT32_MAX = 4294967295.
Proof. reflexivity. Qed.
Lemma PY_SSIZE_T_MAX_eq : PY_SSIZE_T_MAX = 9223372036854775807.
Proof. reflexivity. Qed.

(** ** Bytes in memory *)

Lemma length_bytes_at m p len : length (bytes_at m p len) = Z.to_nat len.
Proof. unfold bytes_at. by rewrite length_fmap, length_seq. Qed.

Lemma bytes_at_nil m p len : len ≤ 0 → bytes_at m p len = [].
Proof. intros H. unfold bytes_at. by replace (Z.to_nat len) with 0%nat by lia. Qed.

Lemma bytes_at_one m p : bytes_at m p 1 = [m p].
Proof. unfold bytes_at. simpl. by rewrite Z.add_0_r. Qed.

Lemma bytes_at_app m p a b :
  0 ≤ a → 0 ≤ b → bytes_at m p (a + b) = bytes_at m p a ++ bytes_at m (p + a) b.
Proof.
  intros Ha Hb. unfold bytes_at.
  rewrite Z2Nat.inj_add, seq_app, fmap_app by lia. f_equal.
  apply list_eq. intros i. rewrite !list_lookup_fmap. simpl.
  destruct (decide (i < Z.to_nat b)%nat) as [Hi|Hi].
  - rewrite !lookup_seq_lt by done. simpl. f_equal. f_equal. lia.
  - rewrite !(proj2 (lookup_ge_None _ _)); [done | rewrite length_seq; lia..].
Qed.

(** ** The search primitive *)

Lemma sz_find_scan_Some m needle n_length : ∀ positions p q,
  sz_find_scan m needle n_length p positions = Some q →
  p ≤ q < p + Z.of_nat positions ∧ bytes_at m q n_length = needle.
Proof.
  induction positions as [|positions IH]; intros p q; simpl; [done|].
  case_decide as Heq.
  - intros [= <-]. split; [lia | done].
  - intros Hq. apply IH in Hq as [Hq ?]. split; [lia | done].
Qed.

(** A match lies inside the haystack and holds the bytes of the needle. *)
Lemma sz_find_Some m haystack h_length needle n_length q :
  sz_find m haystack h_length needle n_length = Some q →
  haystack ≤ q ∧ q + n_length ≤ haystack + h_length ∧
  bytes_at m q n_length = bytes_at m needle n_length.
Proof.
  unfold sz_find. case_decide as Hlen; [done|].
  intros Hq. apply sz_find_scan_Some in Hq as [Hq ?].
  repeat split; [lia | lia | done].
Qed.

(** ** Joining the parts *)

Lemma join_parts_cons sep p rest :
  rest ≠ [] → join_parts sep (p :: rest) = p ++ sep ++ join_parts sep rest.
Proof. by destruct rest. Qed.

(** ** Splitter: the parts rejoin to the text *)

Section split_rejoin.
Variables (m : memory) (text separator : sz_string_view_t).

Local Abbreviation ts := (sz_string_view.start text).
Local Abbreviation L := (sz_string_view.length text).
Local Abbreviation sep_byte := (m (sz_string_view.start separator)).

(** The end offsets recorded after a match: each lies beyond the previous
    one, inside the text, just after a separator byte. *)
Fixpoint marks (prev : Z) (es : list Z) : Prop :=
  match es with
  | [] => True
  | e :: es' => prev < e ≤ L ∧ m (ts + (e - 1)) = sep_byte ∧ marks e es'
  end.

Definition last_mark (prev : Z) (es : list Z) : Z := default prev (last es).

(** The bytes of the parts that the offsets [es], then [L], delimit, each
    non-final part without its last [sl] bytes. *)
Fixpoint pieces (sl : Z) (prev : Z) (es : list Z) : list (list Z) :=
  match es with
  | [] => [bytes_at m (ts + prev) (L - prev)]
  | e :: es' => bytes_at m (ts + prev) (e - sl - prev) :: pieces sl e es'
  end.

Lemma last_mark_cons prev e es : last_mark prev (e :: es) = last_mark e es.
Proof.
  unfold last_mark. destruct es as [|e' es]; [done|].
  rewrite last_cons_cons, last_cons. by destruct (last es).
Qed.

Lemma last_mark_snoc prev es e : last_mark prev (es ++ [e]) = e.
Proof. unfold last_mark. by rewrite last_snoc. Qed.

Lemma marks_snoc prev es e :
  marks prev es → last_mark prev es < e ≤ L → m (ts + (e - 1)) = sep_byte →
  marks prev (es ++ [e]).
Proof.
  revert prev. induction es as [|e' es IH]; intros prev; simpl.
  - intros _ He Hm. unfold last_mark in He. simpl in He. split; [lia|]. by split.
  - intros (He' & Hm' & Hes) He Hm. rewrite last_mark_cons in He.
    split; [done|]. split; [done|]. by apply IH.
Qed.

Lemma marks_last_mark prev es :
  marks prev es → prev + Z.of_nat (length es) ≤ last_mark prev es.
Proof.
  revert prev. induction es as [|e es IH]; intros prev; simpl.
  - unfold last_mark. simpl. lia.
  - intros (He & _ & Hes). rewrite last_mark_cons. apply IH in Hes. lia.
Qed.

Lemma marks_last_mark_le prev es : prev ≤ L → marks prev es → last_mark prev es ≤ L.
Proof.
  revert prev. induction es as [|e es IH]; intros prev; simpl.
  - unfold last_mark. simpl. lia.
  - intros _ (He & _ & Hes). rewrite last_mark_cons. apply IH; [lia | done].
Qed.

Lemma pieces_nonempty sl prev es : pieces sl prev es ≠ [].
Proof. by destruct es. Qed.

Lemma length_pieces sl prev es : length (pieces sl prev es) = S (length es).
Proof. revert prev. induction es as [|e es IH]; intros prev; simpl; [done|]. by rewrite IH. Qed.

(** The parts, joined with the separator when it was cut off ([sl = 1])
    and with nothing when it was kept ([sl = 0]), give the text from
    [prev] on. *)
Lemma join_pieces (sl : Z) (prev : Z) (es : list Z) :
  sl = 0 ∨ sl = 1 → 0 ≤ prev ≤ L → marks prev es →
  join_parts (if decide (sl = 0) then [] else [sep_byte]) (pieces sl prev es)
  = bytes_at m (ts + prev) (L - prev).
Proof.
  intros Hsl. revert prev. induction es as [|e es IH]; intros prev Hprev;
    cbn [pieces marks].
  { done. }
  intros (He & Hm & Hes).
  rewrite join_parts_cons by apply pieces_nonempty.
  rewrite IH by (done || lia).
  replace (L - prev) with ((e - prev) + (L - e)) by lia.
  rewrite (bytes_at_app m (ts + prev) (e - prev) (L - e)) by lia.
  replace (ts + prev + (e - prev)) with (ts + e) by lia.
  rewrite (assoc_L (++)). f_equal.
  destruct Hsl as [-> | ->].
  - rewrite decide_True by done. rewrite (right_id_L [] (++)). f_equal. lia.
  - rewrite decide_False by done.
    replace (e - prev) with ((e - 1 - prev) + 1) by lia.
    rewrite (bytes_at_app m (ts + prev) (e - 1 - prev) 1) by lia.
    rewrite bytes_at_one. do 2 f_equal. rewrite <- Hm. f_equal. lia.
Qed.

End split_rejoin.

Lemma store_at_lt {A} (b : list A) (i : Z) (v : A) :
  0 ≤ i < Z.of_nat (length b) →
  store_at (Some b) i v = Done (Some (<[Z.to_nat i:=v]> b)).
Proof.
  intros Hi. unfold store_at. rewrite decide_True by done.
  rewrite store_lt by lia. done.
Qed.

Lemma take_S_insert {A} (b : list A) (n : nat) (v : A) :
  (n < length b)%nat → take (S n) (<[n:=v]> b) = take n b ++ [v].
Proof.
  intros Hn. rewrite (take_S_r _ _ v) by (by apply list_lookup_insert_eq).
  by rewrite take_insert_ge.
Qed.

Section split_run.
Variables (m : memory) (text separator : sz_string_view_t) (maxsplit : Z).

Local Abbreviation ts := (sz_string_view.start text).
Local Abbreviation L := (sz_string_view.length text).
Local Abbreviation wide := (bool_decide (UINT32_MAX ≤ L)).

Hypothesis Hsep : sz_string_view.length separator = 1.
Hypothesis HL : 0 ≤ L < PY_SSIZE_T_MAX.
Hypothesis Hmax : L < to_size_t maxsplit.

(** The state at the head of the loop, after the offsets [es] have been
    recorded. *)
Definition split_inv (es : list Z) (l : split_locals) : Prop :=
  marks m text separator 0 es ∧
  last_start l = last_mark 0 es ∧
  offsets_count l = Z.of_nat (length es) ∧
  offsets_count l ≤ offsets_capacity l ∧
  match offsets_endings l with
  | None => offsets_capacity l = 0
  | Some b => Z.of_nat (length b) = offsets_capacity l ∧ take (length es) b = es
  end.

(** The state in which the loop is left: the offsets [es] of the matches,
    then the length of the text. *)
Definition split_done (es : list Z) (l : split_locals) : Prop :=
  marks m text separator 0 es ∧
  offsets_count l = Z.of_nat (length es) + 1 ∧
  ∃ b, offsets_endings l = Some b ∧ take (S (length es)) b = es ++ [L].

Lemma reallocate_offsets_granted es l rt :
  oracle rt = [] → split_inv es l →
  ∃ capacity b rt',
    reallocate_offsets l rt = (capacity, Some b, rt') ∧
    oracle rt' = [] ∧
    Z.of_nat (length b) = capacity ∧
    take (length es) b = es ∧
    offsets_count l < capacity.
Proof.
  intros Ho (Hmarks & Hs & Hc & Hcap & Hblock).
  pose proof (marks_last_mark m text separator 0 es Hmarks) as Hlen.
  pose proof (marks_last_mark_le m text separator 0 es (proj1 HL) Hmarks) as Hle.
  unfold reallocate_offsets. case_decide as Hfull.
  - destruct (realloc_granted (bool_decide (offsets_endings l = None)) rt Ho)
      as (rt' & -> & Ho' & _).
    assert (offsets_capacity l = offsets_count l) as Heq by lia.
    rewrite to_size_t_small by (rewrite SIZE_MAX_eq, PY_SSIZE_T_MAX_eq in *; lia).
    eexists _, _, rt'. split; [done|]. split; [done|].
    unfold grown_block, fresh_block.
    destruct (offsets_endings l) as [b|]; simpl.
    + destruct Hblock as [Hb Htake].
      rewrite take_ge by lia. rewrite length_app, length_replicate.
      split; [lia|]. split; [|lia]. rewrite take_app_le by lia. done.
    + rewrite take_nil. simpl. rewrite length_replicate. split; [lia|]. split; [|lia].
      assert (es = []) as -> by (destruct es; [done | simpl in *; lia]). done.
  - destruct (offsets_endings l) as [b|]; [|lia].
    destruct Hblock as [Hb Htake]. eexists _, _, rt. repeat split; try done. lia.
Qed.

Lemma Str_split_loop_runs : ∀ fuel rt l es,
  oracle rt = [] → split_inv es l →
  (Z.to_nat (L - last_start l) + 2 ≤ fuel)%nat →
  ∃ l' rt' es',
    Str_split_loop fuel m text separator maxsplit wide rt l = Done (Some l', rt') ∧
    split_done es' l'.
Proof.
  induction fuel as [|fuel IH]; intros rt l es Ho Hinv Hfuel; [lia|].
  pose proof Hinv as (Hmarks & Hs & Hc & Hcap & Hblock).
  pose proof (marks_last_mark m text separator 0 es Hmarks) as Hlen.
  pose proof (marks_last_mark_le m text separator 0 es (proj1 HL) Hmarks) as Hle.
  destruct (reallocate_offsets_granted es l rt Ho Hinv)
    as (capacity & b & rt1 & Hgrow & Ho1 & Hb & Htake & Hroom).
  assert (SIZE_MAX = 18446744073709551615) as HSM by reflexivity.
  assert (PY_SSIZE_T_MAX = 9223372036854775807) as HPM by reflexivity.
  assert (∀ e, 0 ≤ e ≤ L →
            (if wide then to_size_t e else to_u32 e) = e) as Hconv.
  { intros e He. case_bool_decide as Hw.
    - apply to_size_t_small. lia.
    - apply to_u32_small. lia. }
  cbn [Str_split_loop]. rewrite Hgrow, Hsep.
  destruct (decide (last_start l ≤ L ∧ offsets_count l < to_size_t maxsplit))
    as [_|Hn]; [|exfalso; apply Hn; lia].
  rewrite (to_size_t_small (L - last_start l)) by lia.
  destruct (sz_find m (ts + last_start l) (L - last_start l)
              (sz_string_view.start separator) 1) as [p|] eqn:Hfind.
  - apply sz_find_Some in Hfind as (Hp1 & Hp2 & Hbytes).
    rewrite !bytes_at_one in Hbytes. injection Hbytes as Hbyte.
    rewrite (to_size_t_small (p - ts - last_start l)) by lia.
    set (e := last_start l + (p - ts - last_start l) + 1).
    replace (last_start l + (p - ts - last_start l) + 1 * 1) with e by lia.
    rewrite (to_size_t_small e) by lia.
    rewrite (to_size_t_small (offsets_count l + 1)) by lia.
    rewrite Hconv by lia. rewrite store_at_lt by lia. cbn [mbind outcome_bind].
    apply (IH rt1 _ (es ++ [e])); [done | | simpl; lia].
    split; [|split; [|split; [|split]]]; simpl.
    + apply marks_snoc; [done | lia |]. rewrite <- Hbyte. f_equal. lia.
    + by rewrite last_mark_snoc.
    + rewrite length_app. simpl. lia.
    + lia.
    + rewrite length_insert. split; [done|].
      rewrite length_app. simpl. replace (length es + 1)%nat with (S (length es)) by lia.
      replace (Z.to_nat (offsets_count l)) with (length es) by lia.
      rewrite take_S_insert by lia. by rewrite Htake.
  - replace (last_start l + (L - last_start l) + 1 * 0) with L by lia.
    rewrite (to_size_t_small L) by lia.
    rewrite (to_size_t_small (offsets_count l + 1)) by lia.
    replace (last_start l + (L - last_start l) + 1) with (L + 1) by lia.
    rewrite (to_size_t_small (L + 1)) by lia.
    rewrite Hconv by lia. rewrite store_at_lt by lia. cbn [mbind outcome_bind].
    destruct fuel as [|fuel]; [lia|]. cbn [Str_split_loop].
    cbn [last_start].
    destruct (decide (L + 1 ≤ L ∧ _)) as [[Hn _]|_]; [lia|].
    eexists _, rt1, es. split; [done|].
    split; [done|]. split; [simpl; lia|]. eexists. split; [done|].
    replace (Z.to_nat (offsets_count l)) with (length es) by lia.
    rewrite take_S_insert by lia. by rewrite Htake.
Qed.

End split_run.

Lemma next_allocation_refused rt rt' :
  next_allocation rt = (false, rt') → refused rt rt'.
Proof.
  unfold next_allocation. destruct (oracle rt) as [|b o] eqn:Ho; [done|].
  intros [= -> <-]. exists []. by rewrite Ho.
Qed.

Lemma refused_same rt1 rt2 rt3 :
  refused rt1 rt2 → oracle rt3 = oracle rt2 → refused rt1 rt3.
Proof. intros (g & H & Hg) Ho. exists g. by rewrite Ho. Qed.

Lemma all_granted_refused rt1 rt2 rt3 :
  all_granted rt1 rt2 → refused rt2 rt3 → refused rt1 rt3.
Proof.
  intros (a & H1 & Ha) (g & H2 & Hg). exists (a ++ g). split.
  - by rewrite H1, H2, app_assoc.
  - by apply Forall_app.
Qed.

Lemma realloc_false_refused old_is_null rt rt' :
  realloc old_is_null rt = (false, rt') → refused rt rt'.
Proof.
  unfold realloc. destruct (next_allocation rt) as [ok rt1] eqn:Hn.
  intros [= -> <-]. by apply next_allocation_refused in Hn.
Qed.

Lemma PyObject_New_false_refused rt rt' :
  PyObject_New rt = (false, rt') → refused rt rt'.
Proof.
  unfold PyObject_New. destruct (next_allocation rt) as [ok rt1] eqn:Hn.
  intros [= -> <-]. apply next_allocation_refused in Hn.
  by eapply refused_same.
Qed.

(** ** Splitter: the run under any answers of the allocator *)

Section split_answers.
Variables (m : memory) (text separator : sz_string_view_t) (maxsplit : Z) (wide : bool).

Local Abbreviation L := (sz_string_view.length text).
Local Abbreviation n := (sz_string_view.length separator).

Hypothesis Hsep : 1 ≤ n ≤ PY_SSIZE_T_MAX.
Hypothesis HL : 0 ≤ L < PY_SSIZE_T_MAX.

(** The state at the head of the loop: there is room for the offsets
    recorded so far, and no more of them than bytes passed. *)
Definition split_room (l : split_locals) : Prop :=
  0 ≤ offsets_count l ≤ last_start l ∧
  last_start l ≤ L + n ∧
  offsets_count l ≤ offsets_capacity l ∧
  match offsets_endings l with
  | None => offsets_capacity l = 0
  | Some b => Z.of_nat (length b) = offsets_capacity l
  end.

Lemma reallocate_offsets_answers l rt :
  split_room l → last_start l ≤ L →
  ∃ capacity endings rt',
    reallocate_offsets l rt = (capacity, endings, rt') ∧
    match endings with
    | Some b => all_granted rt rt' ∧ Z.of_nat (length b) = capacity
                ∧ offsets_count l < capacity
    | None => refused rt rt'
    end.
Proof.
  intros (Hc & Hs & Hcap & Hblock) Hlast.
  assert (SIZE_MAX = 18446744073709551615) as HSM by reflexivity.
  assert (PY_SSIZE_T_MAX = 9223372036854775807) as HPM by reflexivity.
  unfold reallocate_offsets.
  destruct (decide (offsets_capacity l ≤ offsets_count l)) as [Hfull|Hfree].
  - destruct (realloc _ rt) as [[] rt1] eqn:Hre.
    + eexists _, _, _. split; [done|].
      split; [by eapply realloc_true_granted|].
      rewrite to_size_t_small by lia.
      unfold grown_block, fresh_block. rewrite length_app, length_replicate.
      destruct (offsets_endings l) as [b|]; simpl.
      * rewrite take_ge by lia. split; lia.
      * rewrite take_nil. simpl. split; lia.
    + eexists _, _, _. split; [done|].
      apply realloc_false_refused in Hre.
      eapply refused_same; [done|]. by destruct (offsets_endings l).
  - destruct (offsets_endings l) as [b|]; [|lia].
    eexists _, _, rt. split; [done|].
    split; [by apply all_granted_refl|]. split; lia.
Qed.

Lemma Str_split_loop_answers : ∀ fuel rt l,
  split_room l →
  (Z.to_nat (L + 1 - last_start l) + 1 ≤ fuel)%nat →
  ∃ result rt',
    Str_split_loop fuel m text separator maxsplit wide rt l = Done (result, rt') ∧
    (result = None → refused rt rt').
Proof.
  induction fuel as [|fuel IH]; intros rt l Hroom Hfuel; [lia|].
  assert (SIZE_MAX = 18446744073709551615) as HSM by reflexivity.
  assert (PY_SSIZE_T_MAX = 9223372036854775807) as HPM by reflexivity.
  cbn [Str_split_loop].
  destruct (decide (last_start l ≤ L ∧ offsets_count l < to_size_t maxsplit))
    as [[Hlast _]|_]; [|by eexists _, _].
  destruct (reallocate_offsets_answers l rt Hroom Hlast)
    as (capacity & endings & rt1 & -> & Hgrow).
  pose proof Hroom as (Hc & Hs & Hcap & Hblock).
  destruct endings as [b|].
  2:{ eexists _, _. split; [done|]. intros _. by eapply refused_same. }
  destruct Hgrow as (Hok & Hb & Hlt).
  rewrite store_at_lt by lia. cbn [mbind outcome_bind].
  rewrite (to_size_t_small (L - last_start l)) by lia.
  rewrite (to_size_t_small (offsets_count l + 1)) by lia.
  destruct (sz_find m _ _ _ _) as [p|] eqn:Hfind.
  - apply sz_find_Some in Hfind as (Hp1 & Hp2 & _).
    rewrite (to_size_t_small (p - _ - _)) by lia.
    rewrite (to_size_t_small (last_start l + _ + n)) by lia.
    edestruct (IH rt1) as (result & rt' & Hrun & Href); [| |rewrite Hrun].
    + repeat split; simpl; try lia. by rewrite length_insert.
    + simpl. lia.
    + eexists _, _. split; [done|]. intros Hnone.
      eapply all_granted_refused; [done|]. by apply Href.
  - rewrite (to_size_t_small (last_start l + _ + n)) by lia.
    edestruct (IH rt1) as (result & rt' & Hrun & Href); [| |rewrite Hrun].
    + repeat split; simpl; try lia. by rewrite length_insert.
    + simpl. lia.
    + eexists _, _. split; [done|]. intros Hnone.
      eapply all_granted_refused; [done|]. by apply Href.
Qed.

End split_answers.

(** The offset at which part [i] starts: the previous end offset. *)
Definition offset_before (prev : Z) (E : list Z) (i : nat) : Z :=
  match i with
  | O => prev
  | S i' => E !!! i'
  end.

Section split_parts.
Variables (m : memory) (text separator : sz_string_view_t).

Local Abbreviation ts := (sz_string_view.start text).
Local Abbreviation L := (sz_string_view.length text).

Lemma offset_before_cons prev e E i :
  offset_before prev (e :: E) (S i) = offset_before e E i.
Proof. by destruct i. Qed.

Lemma marks_offsets : ∀ es prev i,
  prev ≤ L → marks m text separator prev es → (i ≤ length es)%nat →
  prev ≤ offset_before prev (es ++ [L]) i ∧
  offset_before prev (es ++ [L]) i ≤ (es ++ [L]) !!! i ∧
  (es ++ [L]) !!! i ≤ L ∧
  ((i < length es)%nat → offset_before prev (es ++ [L]) i < (es ++ [L]) !!! i).
Proof.
  induction es as [|e es IH]; intros prev i Hprev Hmarks Hi.
  { simpl in Hi. assert (i = 0%nat) as -> by lia. simpl. repeat split; lia. }
  destruct Hmarks as (He & _ & Hes). destruct i as [|i].
  { simpl. repeat split; lia. }
  rewrite <- app_comm_cons, offset_before_cons.
  change ((e :: es ++ [L]) !!! S i) with ((es ++ [L]) !!! i).
  destruct (IH e i) as (H1 & H2 & H3 & H4); [lia | done | simpl in Hi; lia |].
  repeat split; try lia. intros Hlt. apply H4. simpl in Hlt. lia.
Qed.

Lemma pieces_lookup sl : ∀ es prev i,
  (i ≤ length es)%nat →
  pieces m text sl prev es !! i
  = Some (bytes_at m (ts + offset_before prev (es ++ [L]) i)
            ((es ++ [L]) !!! i
             - (if decide (i < length es)%nat then sl else 0)
             - offset_before prev (es ++ [L]) i)).
Proof.
  induction es as [|e es IH]; intros prev i Hi.
  { simpl in Hi. assert (i = 0%nat) as -> by lia. simpl. do 2 f_equal. lia. }
  destruct i as [|i].
  { simpl. done. }
  rewrite <- app_comm_cons, offset_before_cons.
  change ((e :: es ++ [L]) !!! S i) with ((es ++ [L]) !!! i).
  simpl. rewrite IH by (simpl in Hi; lia).
  do 3 f_equal. f_equal. destruct (decide (i < length es)%nat), (decide (S i < S (length es))%nat);
    (done || lia).
Qed.

(** The parts of a consecutive collection that holds the offsets [es],
    then [L]. *)
Lemma parts_bytes_pieces (conv : Z → Z) (strs : Strs) (d : consecutive_slices_t)
    (sl : Z) (es : list Z) (b : list Z) :
  (∀ e, 0 ≤ e ≤ L → conv e = e) →
  L ≤ SIZE_MAX →
  sl = 0 ∨ sl = 1 →
  0 ≤ L → marks m text separator 0 es →
  consecutive.count d = Z.of_nat (length es) + 1 →
  consecutive.separator_length d = sl →
  consecutive.start d = ts →
  consecutive.end_offsets d = Some b →
  take (S (length es)) b = es ++ [L] →
  Strs_len strs = consecutive.count d →
  str_at_offset_getter strs = Some (str_at_offset_consecutive conv d) →
  parts_bytes m strs = Some (pieces m text sl 0 es).
Proof.
  intros Hconv HLmax Hsl HL Hmarks Hcount Hsep Hstart Hblock Htake Hlen Hgetter.
  unfold parts_bytes. apply mapM_Some_2. apply Forall2_same_length_lookup_2.
  { rewrite length_seq, length_pieces, Hlen, Hcount. lia. }
  intros i x y Hx Hy. apply lookup_seq in Hx as [-> Hi]. simpl.
  rewrite Hlen, Hcount in Hi.
  rewrite pieces_lookup in Hy by lia. injection Hy as <-.
  destruct (marks_offsets es 0 i HL Hmarks) as (H1 & H2 & H3 & H4); [lia|].
  set (E := es ++ [L]) in *.
  assert (∀ k, (k ≤ length es)%nat → b !! k = Some (E !!! k)) as Hb.
  { intros k Hk. rewrite <- (lookup_take_lt b (S (length es))) by lia.
    rewrite Htake. apply list_lookup_lookup_total_lt.
    subst E. rewrite length_app. simpl. lia. }
  unfold observable_part. rewrite Hgetter. simpl.
  unfold str_at_offset_consecutive. rewrite Hblock, Hlen, Hcount, Hsep, Hstart.
  rewrite (load_at_lookup b (Z.of_nat i) (E !!! i)); [|lia|].
  2:{ rewrite Nat2Z.id. apply Hb. lia. }
  assert ((if decide (Z.of_nat i = 0) then Done 0
           else load_at (Some b) (Z.of_nat i - 1))
          = Done (offset_before 0 E i)) as ->.
  { destruct i as [|i]; [done|]. rewrite decide_False by lia.
    apply load_at_lookup; [lia|].
    replace (Z.to_nat (Z.of_nat (S i) - 1)) with i by lia. apply Hb. lia. }
  cbn [mbind outcome_bind part_start part_length].
  rewrite Hconv by lia. do 2 f_equal.
  destruct (decide (i < length es)%nat) as [Hlt|Hge].
  - rewrite decide_True by lia. specialize (H4 Hlt).
    rewrite to_size_t_small by (destruct Hsl as [-> | ->]; lia). lia.
  - rewrite decide_False by lia. rewrite to_size_t_small by lia. lia.
Qed.

End split_parts.

(** C3. For every text shorter than [PY_SSIZE_T_MAX] bytes and every
    separator of one byte, with a split budget above the length of the text
    (the default budget [PY_SSIZE_T_MAX] is one), an allocator that grants
    every request and enough iterations, [Str_split_] returns a collection
    whose parts, joined with the separator between consecutive parts when
    [keepseparator] is false and with nothing between them when it is true,
    are the bytes of the text. *)
Theorem Str_split_rejoins (m : memory) (rt : runtime) (parent : PyObject)
    (text separator : sz_string_view_t) (keepseparator maxsplit : Z) (fuel : nat) :
  sz_string_view.length separator = 1 →
  0 ≤ sz_string_view.length text < PY_SSIZE_T_MAX →
  sz_string_view.length text < to_size_t maxsplit →
  oracle rt = [] →
  (Z.to_nat (sz_string_view.length text) + 2 ≤ fuel)%nat →
  ∃ strs rt' parts,
    Str_split_ fuel m rt parent text separator keepseparator maxsplit
    = Done (Some strs, rt') ∧
    parts_bytes m strs = Some parts ∧
    join_parts (if decide (keepseparator = 0) then view_bytes m separator else [])
               parts
    = view_bytes m text.
Proof.
  intros Hsep HL Hmax Ho Hfuel.
  assert (SIZE_MAX = 18446744073709551615) as HSM by reflexivity.
  assert (PY_SSIZE_T_MAX = 9223372036854775807) as HPM by reflexivity.
  unfold Str_split_.
  destruct (PyObject_New_granted rt Ho) as (rt1 & -> & Ho1). cbn [negb].
  destruct (Str_split_loop_runs m text separator maxsplit Hsep HL Hmax fuel rt1
              (mk_split_locals None 0 0 0) []) as (l & rt2 & es & -> & Hdone).
  { done. }
  { repeat split; simpl; lia. }
  { simpl. lia. }
  destruct Hdone as (Hmarks & Hcount & b & Hblock & Htake).
  cbn [mbind outcome_bind]. destruct l as [endings capacity count s].
  simpl in Hcount, Hblock. subst endings count.
  cbn [offsets_count offsets_endings].
  set (sl := if decide (keepseparator = 0) then 1 else 0).
  assert (sl = 0 ∨ sl = 1) as Hsl by (subst sl; case_decide; auto).
  rewrite Hsep. replace (sl * 1) with sl by lia.
  rewrite (to_size_t_small sl) by (destruct Hsl as [-> | ->]; lia).
  eexists _, _, (pieces m text sl 0 es). split; [done|]. split.
  - case_bool_decide as Hwide.
    + eapply (parts_bytes_pieces m text separator to_size_t);
        try reflexivity; try done; try lia.
      intros e He. apply to_size_t_small. lia.
    + eapply (parts_bytes_pieces m text separator to_u32);
        try reflexivity; try done; try lia.
      intros e He. apply to_u32_small. rewrite UINT32_MAX_eq in *. lia.
  - pose proof (join_pieces m text separator sl 0 es Hsl) as Hjoin.
    rewrite Z.add_0_r, Z.sub_0_r in Hjoin. unfold view_bytes at 2.
    rewrite <- Hjoin by (done || lia). f_equal.
    unfold view_bytes. rewrite Hsep, bytes_at_one. subst sl.
    destruct (decide (keepseparator = 0)); [by rewrite decide_False|
                                            by rewrite decide_True].
Qed.

Lemma Str_split_rejoins_witness :
  ∃ strs rt' parts,
    Str_split_ 10 sample_memory fresh_runtime 7 sample_text sample_separator 0
               PY_SSIZE_T_MAX
    = Done (Some strs, rt') ∧
    parts_bytes sample_memory strs = Some parts ∧
    join_parts (if decide (0 = 0) then view_bytes sample_memory sample_separator
                else []) parts
    = view_bytes sample_memory sample_text.
Proof.
  apply (Str_split_rejoins sample_memory fresh_runtime 7 sample_text
           sample_separator 0 PY_SSIZE_T_MAX 10).
  - reflexivity.
  - simpl. unfold PY_SSIZE_T_MAX. lia.
  - vm_compute. reflexivity.
  - reflexivity.
  - simpl. lia.
Defined.



(** C9. For a separator of at least one byte, [Str_split_] returns,
    whatever the allocator answers, and returns [NULL] exactly when a
    request was refused: a collection is returned only when every request was granted,
    and a [NULL] return follows a refused request.  Whenever it returns
    [NULL], every block it obtained for the offsets has been released (the
    number of live blocks is what it was), the new object is gone, no
    reference count has moved (that of the parent in particular) and the
    error indicator holds [MemoryError].  When the allocator refuses the
    request of the layout converter, the converter reports failure with
    [MemoryError] and leaves the collection, tag and payload, as it was. *)
Theorem allocation_failure_is_clean :
  (∀ fuel m rt parent text separator keepseparator maxsplit,
     1 ≤ sz_string_view.length separator ≤ PY_SSIZE_T_MAX →
     0 ≤ sz_string_view.length text < PY_SSIZE_T_MAX →
     (Z.to_nat (sz_string_view.length text) + 2 ≤ fuel)%nat →
     ∃ result rt',
       Str_split_ fuel m rt parent text separator keepseparator maxsplit
       = Done (result, rt') ∧
       match result with
       | Some _ => all_granted rt rt'
       | None =>
           refused rt rt' ∧
           blocks rt' = blocks rt ∧ objects rt' = objects rt ∧
           ob_refcnt rt' parent = ob_refcnt rt parent ∧
           err rt' = Some PyExc_MemoryError
       end) ∧
  (∀ fuel m rt parent text separator keepseparator maxsplit rt',
     Str_split_ fuel m rt parent text separator keepseparator maxsplit
     = Done (None, rt') →
     blocks rt' = blocks rt ∧ objects rt' = objects rt ∧
     ob_refcnt rt' parent = ob_refcnt rt parent ∧
     err rt' = Some PyExc_MemoryError) ∧
  (∀ fuel m rt parent text separator keepseparator maxsplit strs rt',
     Str_split_ fuel m rt parent text separator keepseparator maxsplit
     = Done (Some strs, rt') →
     all_granted rt rt') ∧
  (∀ rt strs,
     is_consecutive strs → (next_allocation rt).1 = false →
     ∃ rt', prepare_strings_for_reordering rt strs = Done (false, strs, rt') ∧
            err rt' = Some PyExc_MemoryError).
Proof.
  split; [|split; [|split]].
  - intros fuel m rt parent text separator keepseparator maxsplit Hsep HL Hfuel.
    assert (∃ result rt',
              Str_split_ fuel m rt parent text separator keepseparator maxsplit
              = Done (result, rt') ∧ (result = None → refused rt rt'))
      as (result & rt' & Hrun & Href).
    { unfold Str_split_. destruct (PyObject_New rt) as [[] rt1] eqn:Hnew; cbn [negb].
      - destruct (Str_split_loop_answers m text separator maxsplit
                    (bool_decide (UINT32_MAX ≤ sz_string_view.length text))
                    Hsep HL fuel rt1 (mk_split_locals None 0 0 0))
          as (r & rt2 & -> & Href).
        + unfold split_room. simpl. lia.
        + simpl. lia.
        + cbn [mbind outcome_bind]. apply PyObject_New_true_granted in Hnew.
          destruct r as [l|]; eexists _, _; (split; [done|]); [done|].
          intros _. eapply all_granted_refused; [done|]. by apply Href.
      - eexists _, _. split; [done|]. intros _.
        by apply PyObject_New_false_refused. }
    exists result, rt'. split; [done|]. destruct result as [strs|].
    + by eapply Str_split_success.
    + split; [by apply Href|].
      apply Str_split_failure in Hrun as (? & ? & Hrc & ?). by rewrite Hrc.
  - intros fuel m rt parent text separator keepseparator maxsplit rt' Hrun.
    apply Str_split_failure in Hrun as (? & ? & Hrc & ?). by rewrite Hrc.
  - intros fuel m rt parent text separator keepseparator maxsplit strs rt' Hrun.
    by eapply Str_split_success.
  - apply prepare_strings_for_reordering_failure.
Qed.

Lemma allocation_failure_is_clean_witness :
  (let rt := set_oracle [true; true; false] fresh_runtime in
   ∃ result rt',
     Str_split_ 10 sample_memory rt 7 sample_text sample_separator 0 PY_SSIZE_T_MAX
     = Done (result, rt') ∧
     match result with
     | Some _ => all_granted rt rt'
     | None =>
         refused rt rt' ∧
         blocks rt' = blocks rt ∧ objects rt' = objects rt ∧
         ob_refcnt rt' 7 = ob_refcnt rt 7 ∧
         err rt' = Some PyExc_MemoryError
     end) ∧
  (let rt := set_oracle [true; true; false] fresh_runtime in
   let rt' := match Str_split_ 10 sample_memory rt 7 sample_text sample_separator 0
                      PY_SSIZE_T_MAX with
              | Done (_, rt') => rt'
              | _ => rt
              end in
   blocks rt' = blocks rt ∧ objects rt' = objects rt ∧
   ob_refcnt rt' 7 = ob_refcnt rt 7 ∧ err rt' = Some PyExc_MemoryError) ∧
  (let rt := set_oracle [true; true; true] fresh_runtime in
   let rt' := match Str_split_ 10 sample_memory rt 7 sample_text sample_separator 0
                      PY_SSIZE_T_MAX with
              | Done (_, rt') => rt'
              | _ => rt
              end in
   all_granted rt rt') ∧
  (∃ rt', prepare_strings_for_reordering (set_oracle [false] fresh_runtime)
            sample_strs = Done (false, sample_strs, rt') ∧
          err rt' = Some PyExc_MemoryError).
Proof.
  split; [|split; [|split]].
  - intros rt.
    apply (proj1 allocation_failure_is_clean 10%nat sample_memory rt 7 sample_text
             sample_separator 0 PY_SSIZE_T_MAX).
    + simpl. unfold PY_SSIZE_T_MAX. lia.
    + simpl. unfold PY_SSIZE_T_MAX. lia.
    + simpl. lia.
  - intros rt rt'.
    apply (proj1 (proj2 allocation_failure_is_clean) 10%nat sample_memory rt 7 sample_text
             sample_separator 0 PY_SSIZE_T_MAX rt').
    reflexivity.
  - intros rt rt'.
    apply (proj1 (proj2 (proj2 allocation_failure_is_clean)) 10%nat sample_memory rt 7
             sample_text sample_separator 0 PY_SSIZE_T_MAX
             (STRS_CONSECUTIVE_32
                (consecutive.mk 3 1 7 1000 (Some [2; 5; 8; 0; 0; 0]))) rt').
    reflexivity.
  - apply (proj2 (proj2 (proj2 allocation_failure_is_clean))); [exact I | reflexivity].
Defined.

(** ** Reverse *)

Lemma list_ends {A} (l : list A) :
  l = [] ∨ (∃ x, l = [x]) ∨ (∃ x mid y, l = x :: mid ++ [y]).
Proof.
  destruct l as [|x l]; [by left|]. right.
  destruct (decide (length l = 0)%nat) as [Hl|Hl].
  - left. exists x. by destruct l.
  - right. destruct (exists_last (l := l)) as (mid & y & ->); [by destruct l|].
    by exists x, mid, y.
Qed.

Lemma load_at_middle {A} (P S : list A) (v : A) (i : Z) :
  i = Z.of_nat (length P) → load_at (Some (P ++ v :: S)) i = Done v.
Proof.
  intros ->. apply load_at_lookup; [lia|]. rewrite Nat2Z.id.
  by apply list_lookup_middle.
Qed.

Lemma store_middle {A} (P S : list A) (v w : A) (i : Z) :
  i = Z.of_nat (length P) →
  store (P ++ v :: S) (Z.to_nat i) w = Done (P ++ w :: S).
Proof.
  intros ->. rewrite Nat2Z.id. rewrite store_lt.
  - f_equal. replace (length P) with (length P + 0)%nat at 1 by lia.
    by rewrite insert_app_r.
  - rewrite length_app. simpl. lia.
Qed.

(** The two-pointer loop reverses the middle of the array that lies
    between its pointers. *)
Lemma reverse_offsets_loop_spec : ∀ fuel (mid A B : list nat),
  (length mid ≤ fuel)%nat →
  (1 ≤ length A + length mid)%nat →
  Z.of_nat (length A + length mid) ≤ SIZE_MAX →
  reverse_offsets_loop fuel (Z.of_nat (length A))
    (Z.of_nat (length A + length mid) - 1) (A ++ mid ++ B)
  = Done (A ++ reverse mid ++ B).
Proof.
  assert (SIZE_MAX = 18446744073709551615) as HSM by reflexivity.
  induction fuel as [|fuel IH]; intros mid A B Hfuel Hne Hmax.
  { destruct mid; [|simpl in Hfuel; lia]. simpl.
    rewrite decide_False by lia. done. }
  destruct (list_ends mid) as [-> | [[x ->] | (x & mid' & y & ->)]].
  - cbn [reverse_offsets_loop]. rewrite decide_False by (simpl; lia). done.
  - cbn [reverse_offsets_loop]. rewrite decide_False by (simpl; lia). done.
  - cbn [reverse_offsets_loop]. rewrite length_cons, length_app in *. simpl in *.
    rewrite decide_True by lia.
    rewrite <- (app_assoc mid' [y] B). simpl.
    set (i := Z.of_nat (length A)).
    set (j := Z.of_nat (length A + S (length mid' + 1)) - 1).
    rewrite (load_at_middle A (mid' ++ y :: B) x i eq_refl). cbn [mbind outcome_bind].
    replace (A ++ x :: mid' ++ y :: B) with ((A ++ x :: mid') ++ y :: B)
      by (by rewrite <- app_assoc).
    rewrite (load_at_middle (A ++ x :: mid') B y j)
      by (subst j; rewrite length_app; simpl; lia).
    cbn [mbind outcome_bind]. rewrite <- app_assoc. simpl.
    rewrite (store_middle A (mid' ++ y :: B) x y i eq_refl). cbn [mbind outcome_bind].
    replace (A ++ y :: mid' ++ y :: B) with ((A ++ y :: mid') ++ y :: B)
      by (by rewrite <- app_assoc).
    rewrite (store_middle (A ++ y :: mid') B y x j)
      by (subst j; rewrite length_app; simpl; lia).
    cbn [mbind outcome_bind]. subst i j.
    rewrite !to_size_t_small by lia.
    specialize (IH mid' (A ++ [y]) (x :: B)).
    rewrite length_app in IH. simpl in IH.
    replace (Z.of_nat (length A) + 1) with (Z.of_nat (length A + 1)) by lia.
    replace (Z.of_nat (length A + S (length mid' + 1)) - 1 - 1)
      with (Z.of_nat (length A + 1 + length mid') - 1) by lia.
    replace ((A ++ y :: mid') ++ x :: B) with ((A ++ [y]) ++ mid' ++ x :: B)
      by (by rewrite <- !app_assoc).
    rewrite IH by lia.
    rewrite reverse_cons, reverse_snoc. f_equal. by rewrite <- !app_assoc.
Qed.

(** [reverse_offsets] on a non-empty array whose length it is given. *)
Lemma reverse_offsets_reverse (array : list nat) :
  (1 ≤ length array)%nat → Z.of_nat (length array) ≤ SIZE_MAX →
  reverse_offsets array (Z.of_nat (length array)) = Done (reverse array).
Proof.
  intros Hne Hmax. unfold reverse_offsets.
  assert (SIZE_MAX = 18446744073709551615) as HSM by reflexivity.
  rewrite to_size_t_small by lia.
  pose proof (reverse_offsets_loop_spec (S (Z.to_nat (Z.of_nat (length array))))
                array [] []) as H.
  simpl in H. rewrite !app_nil_r in H. apply H; lia.
Qed.

(** X25. On a valid collection with at least one part, [order(reverse=true)] is
    the reversal of [order(reverse=false)]. *)
Lemma Strs_order_reverse_nonempty `{sz_sort_t} m rt self :
  valid_collection self → 1 ≤ Strs_len self ≤ SIZE_MAX →
  oracle rt = [] → tm_allocated (temporary_memory rt) = true →
  ∃ indices self' rt1 rt2,
    Strs_order m rt self false = Done (Some indices, self', rt1) ∧
    Strs_order m rt self true = Done (Some (reverse indices), self', rt2).
Proof.
  intros Hvalid Hlen Horacle Htm.
  destruct (Strs_sort__valid m rt self Hvalid Horacle Htm)
    as (d & rt' & Hrun & Hvalid' & Hcount & _ & Ho' & _).
  cbv zeta in Hrun. set (ps := default [] (reordered.parts d)) in *.
  set (order := sz_sort m ps (seq 0 (length ps))) in *.
  assert (length order = length ps) as Hlo.
  { subst order.
    rewrite (Permutation_length (sz_sort_permutes m ps (seq 0 (length ps)))).
    apply length_seq. }
  simpl in Hvalid'. fold ps in Hvalid'.
  unfold Strs_order. rewrite Hrun. cbn [mbind outcome_bind].
  destruct (PyObject_New_granted rt' Ho') as (rt1 & -> & Ho1). cbn [negb].
  destruct (order_tuple_granted order (Z.to_nat (reordered.count d)) 0 rt1 Ho1)
    as [rt2 ->]; [lia|].
  replace (reordered.count d) with (Z.of_nat (length order)) by lia.
  rewrite reverse_offsets_reverse by lia. cbn [mbind outcome_bind].
  destruct (order_tuple_granted (reverse order) (Z.to_nat (Z.of_nat (length order)))
              0 rt1 Ho1) as [rt3 ->]; [rewrite length_reverse; lia|].
  cbn [mbind outcome_bind]. eexists _, _, _, _. split; [done|].
  by rewrite !drop_0, fmap_reverse.
Qed.

(** ** Shuffle: collections with at least one part *)

Lemma shuffle_loop_permutes `{libc_rand_t} : ∀ fuel i ps rt,
  0 ≤ i < Z.of_nat (length ps) → Z.of_nat (length ps) ≤ SIZE_MAX →
  (Z.to_nat i ≤ fuel)%nat →
  ∃ ps' rt', shuffle_loop fuel i (Some ps) rt = Done (Some ps', rt') ∧ ps' ≡ₚ ps.
Proof.
  assert (SIZE_MAX = 18446744073709551615) as HSM by reflexivity.
  induction fuel as [|fuel IH]; intros i ps rt Hi Hmax Hfuel.
  { simpl. rewrite decide_False by lia. eauto. }
  cbn [shuffle_loop]. case_decide as Hpos; [|eauto].
  destruct (rand (rand_state rt)) as [r state].
  rewrite (to_size_t_small (i + 1)) by lia.
  rewrite decide_False by lia.
  set (j := to_size_t r `mod` (i + 1)).
  assert (0 ≤ j < i + 1) as Hj by (apply Z.mod_pos_bound; lia).
  destruct (lookup_lt_is_Some_2 ps (Z.to_nat i)) as [x Hx]; [lia|].
  destruct (lookup_lt_is_Some_2 ps (Z.to_nat j)) as [y Hy]; [lia|].
  rewrite (load_at_lookup ps i x) by (lia || done).
  rewrite (load_at_lookup ps j y) by (lia || done).
  cbn [mbind outcome_bind].
  rewrite store_at_lt by lia. cbn [mbind outcome_bind].
  rewrite store_at_lt by (rewrite length_insert; lia). cbn [mbind outcome_bind].
  rewrite to_size_t_small by lia.
  destruct (IH (i - 1) (<[Z.to_nat j:=x]> (<[Z.to_nat i:=y]> ps))
              (set_rand_state state rt)) as (ps' & rt' & -> & Hperm).
  { rewrite !length_insert. lia. }
  { rewrite !length_insert. lia. }
  { lia. }
  exists ps', rt'. split; [done|]. rewrite Hperm.
  by apply Permutation_insert_swap.
Qed.

(** X26. On a valid collection with at least one part, when the allocator
    grants every request, [shuffle] returns and leaves a permutation of the
    parts. *)
Lemma Strs_shuffle_permutes `{libc_rand_t} m rt self seed :
  valid_collection self → 1 ≤ Strs_len self ≤ SIZE_MAX → oracle rt = [] →
  ∃ shuffled rt' before after,
    Strs_shuffle rt self seed = Done (true, shuffled, rt') ∧
    parts_bytes m self = Some before ∧
    parts_bytes m shuffled = Some after ∧
    after ≡ₚ before.
Proof.
  intros Hvalid Hlen Horacle.
  destruct (prepare_strings_for_reordering_valid m rt self Hvalid Horacle)
    as ([n parent ptr] & rt1 & Hprep & Hvalid' & Hcount & Hbytes).
  simpl in Hvalid', Hcount.
  unfold Strs_shuffle. rewrite Hprep. cbn [mbind outcome_bind negb].
  cbn [reordered.parts reordered.count reordered.parent].
  destruct ptr as [ps|]; simpl in Hvalid'; [|lia].
  assert (SIZE_MAX = 18446744073709551615) as HSM by reflexivity.
  rewrite to_size_t_small by lia.
  destruct (shuffle_loop_permutes (S (Z.to_nat n)) (n - 1) ps
              (set_rand_state (srand (to_u32 seed)) rt1))
    as (ps' & rt' & -> & Hperm); [lia..|].
  cbn [mbind outcome_bind].
  exists (STRS_REORDERED (reordered.mk n parent (Some ps'))), rt',
         (view_bytes m <$> ps), (view_bytes m <$> ps').
  split; [done|]. split; [|split].
  - rewrite <- Hbytes. by apply parts_bytes_reordered.
  - apply parts_bytes_reordered. simpl. apply Permutation_length in Hperm. lia.
  - by rewrite Hperm.
Qed.

Lemma shuffle_loop_deterministic `{libc_rand_t} : ∀ fuel i parts rt1 rt2,
  rand_state rt1 = rand_state rt2 →
  result_of (shuffle_loop fuel i parts rt1) = result_of (shuffle_loop fuel i parts rt2).
Proof.
  induction fuel as [|fuel IH]; intros i parts rt1 rt2 Hstate; simpl.
  { by case_decide. }
  case_decide as Hpos; [|done]. rewrite Hstate.
  destruct (rand (rand_state rt2)) as [r state].
  case_decide as Hdiv; [done|].
  destruct (load_at parts i) as [x| |]; try done. cbn [mbind outcome_bind].
  destruct (load_at parts _) as [y| |]; try done. cbn [mbind outcome_bind].
  destruct (store_at parts i y) as [parts1| |]; try done. cbn [mbind outcome_bind].
  destruct (store_at parts1 _ x) as [parts2| |]; try done. cbn [mbind outcome_bind].
  by apply IH.
Qed.

(** X27. Two runs of [shuffle] with the same seed on the same reordered
    collection end alike, whatever the generator had drawn before. *)
Lemma Strs_shuffle_deterministic `{libc_rand_t} rt1 rt2 d seed :
  result_of (Strs_shuffle rt1 (STRS_REORDERED d) seed)
  = result_of (Strs_shuffle rt2 (STRS_REORDERED d) seed).
Proof.
  unfold Strs_shuffle. cbn [prepare_strings_for_reordering mbind outcome_bind negb].
  pose proof (shuffle_loop_deterministic (S (Z.to_nat (reordered.count d)))
    (to_size_t (reordered.count d - 1)) (reordered.parts d)
    (set_rand_state (srand (to_u32 seed)) rt1)
    (set_rand_state (srand (to_u32 seed)) rt2) eq_refl) as Hloop.
  unfold result_of in *.
  destruct (shuffle_loop _ _ _ (set_rand_state _ rt1)) as [[p1 r1]| |];
    destruct (shuffle_loop _ _ _ (set_rand_state _ rt2)) as [[p2 r2]| |];
    simpl in *; try done.
  - by injection Hloop as ->.
  - by injection Hloop as ->.
Qed.

(** ** Splitter: the empty text *)

(** X28. An empty text, split at a non-empty separator with a budget of at
    least one part, gives one part, which is empty. *)
Lemma Str_split_empty_source m rt parent text_start separator keepseparator
    maxsplit fuel :
  1 ≤ sz_string_view.length separator ≤ SIZE_MAX →
  0 < to_size_t maxsplit →
  oracle rt = [] →
  ∃ strs rt',
    Str_split_ (S (S fuel)) m rt parent (sz_string_view.mk text_start 0) separator
               keepseparator maxsplit
    = Done (Some strs, rt') ∧
    Strs_len strs = 1 ∧
    parts_bytes m strs = Some [[]].
Proof.
  intros Hsep Hmax Ho. unfold Str_split_.
  destruct (PyObject_New_granted rt Ho) as (rt1 & -> & Ho1). cbn [negb].
  cbn [sz_string_view.length sz_string_view.start].
  rewrite bool_decide_eq_false_2 by (rewrite UINT32_MAX_eq; lia).
  remember (S fuel) as fuel1 eqn:Hfuel.
  cbn [Str_split_loop sz_string_view.length sz_string_view.start last_start
       offsets_count].
  destruct (decide (0 ≤ 0 ∧ 0 < to_size_t maxsplit)) as [_|Hn];
    [|exfalso; apply Hn; lia].
  change (to_size_t (0 - 0)) with 0.
  assert (sz_find m (text_start + 0) 0 (sz_string_view.start separator)
            (sz_string_view.length separator) = None) as ->.
  { unfold sz_find. rewrite decide_True; [done | lia]. }
  unfold reallocate_offsets. cbn [offsets_capacity offsets_count offsets_endings].
  destruct (decide (0 ≤ 0)) as [_|Hn]; [|lia].
  match goal with
  | |- context [realloc ?b rt1] =>
      destruct (realloc_granted b rt1 Ho1) as (rt2 & -> & Ho2 & _)
  end.
  replace (0 + 0 + sz_string_view.length separator * 0) with 0 by lia.
  replace (0 + 0 + sz_string_view.length separator)
    with (sz_string_view.length separator) by lia.
  rewrite (to_size_t_small (sz_string_view.length separator)) by lia.
  change (to_size_t ((0 + 1) * 2)) with 2.
  change (to_u32 (to_size_t 0)) with 0.
  change (to_size_t (0 + 1)) with 1.
  change (grown_block None 2) with [0; 0].
  rewrite store_at_lt by (simpl; lia). cbn [mbind outcome_bind].
  subst fuel1.
  cbn [Str_split_loop last_start offsets_count sz_string_view.length
       sz_string_view.start].
  destruct (decide (sz_string_view.length separator ≤ 0 ∧ 1 < to_size_t maxsplit))
    as [[Hn _]|_]; [lia|].
  cbn [mbind outcome_bind offsets_count offsets_endings].
  eexists _, _. split; [reflexivity|]. split; [reflexivity|].
  unfold parts_bytes. simpl. unfold observable_part. simpl.
  unfold str_at_offset_consecutive_32bit, str_at_offset_consecutive. simpl.
  rewrite Z.mul_0_r. done.
Qed.

(** ** Sub-range extraction: which parts of a slice are those of the original *)

Lemma rebase_offsets_spec conv (fb : list Z) (start first_offset n : Z) :
  0 ≤ start → start + n ≤ Z.of_nat (length fb) →
  ∀ todo i tb,
    0 ≤ i → i + Z.of_nat todo = n → Z.of_nat (length tb) = n →
    ∃ tb',
      rebase_offsets conv (Some fb) start first_offset todo i (Some tb)
      = Done (Some tb') ∧
      length tb' = length tb ∧
      (∀ k, 0 ≤ k < i → tb' !! Z.to_nat k = tb !! Z.to_nat k) ∧
      (∀ k, i ≤ k < n → ∃ e,
         fb !! Z.to_nat (k + start) = Some e ∧
         tb' !! Z.to_nat k = Some (conv (e - first_offset))).
Proof.
  intros Hstart Hfit. induction todo as [|todo IH]; intros i tb Hi Hn Hlen.
  { exists tb. repeat split; try done. intros k Hk. lia. }
  destruct (lookup_lt_is_Some_2 fb (Z.to_nat (i + start))) as [e He]; [lia|].
  cbn [rebase_offsets]. rewrite (load_at_lookup fb (i + start) e) by (lia || done).
  cbn [mbind outcome_bind]. rewrite store_at_lt by lia. cbn [mbind outcome_bind].
  destruct (IH (i + 1) (<[Z.to_nat i:=conv (e - first_offset)]> tb))
    as (tb' & -> & Hl & Hlow & Hhigh); [lia | lia | by rewrite length_insert |].
  exists tb'. repeat split.
  - by rewrite Hl, length_insert.
  - intros k Hk. rewrite Hlow by lia. apply list_lookup_insert_ne. lia.
  - intros k Hk. destruct (decide (k = i)) as [->|Hne].
    + exists e. split; [done|]. rewrite Hlow by lia.
      apply list_lookup_insert_eq. lia.
    + apply Hhigh. lia.
Qed.

Section slice_parts.
Variables (conv : Z → Z) (M : Z) (d : consecutive_slices_t) (fb : list Z).
Variables (start stop : Z).

Local Abbreviation n := (consecutive.count d).

Hypothesis Hconv : ∀ x, 0 ≤ x ≤ M → conv x = x.
Hypothesis HM : 0 ≤ M.
Hypothesis Hblock : consecutive.end_offsets d = Some fb.
Hypothesis Hholds : n ≤ Z.of_nat (length fb).
Hypothesis Hordered : offsets_ordered M fb n.
Hypothesis Hrange : 0 ≤ start ≤ stop ∧ stop ≤ n ∧ start < n.
Hypothesis Hmax : n ≤ SIZE_MAX.

(** The offset at which part [i] of the original starts. *)
Definition start_offset_of (i : Z) : Z :=
  if decide (i = 0) then 0 else default 0 (fb !! Z.to_nat (i - 1)).

Lemma start_offset_of_next i x :
  i ≠ 0 → fb !! Z.to_nat (i - 1) = Some x → start_offset_of i = x.
Proof.
  intros Hi Hx. unfold start_offset_of. rewrite decide_False by done.
  by rewrite Hx.
Qed.

Lemma start_offset_of_bounds i e :
  0 ≤ i < n → fb !! Z.to_nat i = Some e →
  0 ≤ start_offset_of i ≤ e ∧ e ≤ M.
Proof.
  intros Hi He. unfold start_offset_of. case_decide as H0.
  - destruct (Hordered (Z.to_nat i) (Z.to_nat i) e e); [lia | lia | done | done |]. lia.
  - destruct (lookup_lt_is_Some_2 fb (Z.to_nat (i - 1))) as [x Hx]; [lia|].
    rewrite Hx. simpl.
    destruct (Hordered (Z.to_nat (i - 1)) (Z.to_nat i) x e); [lia | lia | done | done |].
    lia.
Qed.

Lemma str_at_offset_consecutive_original i e count :
  0 ≤ i < n → fb !! Z.to_nat i = Some e →
  str_at_offset_consecutive conv d i count
  = Done (mk_part (consecutive.parent d)
            (consecutive.start d + start_offset_of i)
            (to_size_t (e - start_offset_of i
                        - consecutive.separator_length d
                          * (if decide (i + 1 ≠ count) then 1 else 0)))).
Proof.
  intros Hi He. pose proof (start_offset_of_bounds i e Hi He) as Hb.
  unfold str_at_offset_consecutive. rewrite Hblock.
  rewrite (load_at_lookup fb i e) by (lia || done).
  assert ((if decide (i = 0) then Done 0 else load_at (Some fb) (i - 1))
          = Done (start_offset_of i)) as ->.
  { unfold start_offset_of. case_decide; [done|].
    destruct (lookup_lt_is_Some_2 fb (Z.to_nat (i - 1))) as [x Hx]; [lia|].
    rewrite Hx. simpl. apply load_at_lookup; [lia | done]. }
  cbn [mbind outcome_bind]. rewrite Hconv by lia. done.
Qed.

(** The slice that [consecutive_logic] builds, and its parts: part [k] of
    the slice starts where part [start + k] of the original starts, and
    has its length when both are last parts or both are not, or when the
    separator is empty. *)
Lemma consecutive_logic_parts rt :
  oracle rt = [] →
  ∃ to rt',
    consecutive_logic conv rt d n start stop = Done (to, rt') ∧
    consecutive.count to = stop - start ∧
    ∀ k, 0 ≤ k < stop - start →
      (k + 1 < stop - start ∨ stop = n ∨ consecutive.separator_length d = 0) →
      str_at_offset_consecutive conv to k (stop - start)
      = str_at_offset_consecutive conv d (start + k) n.
Proof.
  intros Ho. assert (SIZE_MAX = 18446744073709551615) as HSM by reflexivity.
  destruct (lookup_lt_is_Some_2 fb (Z.to_nat start)) as [e0 He0]; [lia|].
  pose proof (start_offset_of_bounds start e0 ltac:(lia) He0) as Hb0.
  unfold consecutive_logic.
  rewrite (str_at_offset_consecutive_original start e0 n) by (lia || done).
  cbn [mbind outcome_bind part_start part_parent].
  replace (consecutive.start d + start_offset_of start - consecutive.start d)
    with (start_offset_of start) by lia.
  rewrite (Hconv (start_offset_of start)) by lia.
  rewrite (to_size_t_small (stop - start)) by lia.
  unfold malloc, next_allocation. rewrite Ho. rewrite Hblock.
  destruct (rebase_offsets_spec conv fb start (start_offset_of start) (stop - start))
    with (todo := Z.to_nat (stop - start)) (i := 0)
         (tb := fresh_block 0 (stop - start))
    as (tb & -> & Hl & _ & Hto); [lia..| |].
  { unfold fresh_block. rewrite length_replicate. lia. }
  cbn [mbind outcome_bind]. eexists _, _. split; [done|]. split; [done|].
  intros k Hk Hflag.
  destruct (Hto k) as (e & He & Htk); [lia|].
  replace (k + start) with (start + k) in He by lia.
  pose proof (start_offset_of_bounds (start + k) e ltac:(lia) He) as Hbk.
  rewrite (str_at_offset_consecutive_original (start + k) e n) by (lia || done).
  assert (start_offset_of start ≤ start_offset_of (start + k)) as Hmono.
  { destruct (decide (k = 0)) as [->|Hk0]; [by rewrite Z.add_0_r|].
    destruct (lookup_lt_is_Some_2 fb (Z.to_nat (start + k - 1))) as [x Hx]; [lia|].
    rewrite (start_offset_of_next (start + k) x) by (lia || done).
    destruct (Hordered (Z.to_nat start) (Z.to_nat (start + k - 1)) e0 x);
      [lia | lia | done | done |]. lia. }
  unfold str_at_offset_consecutive. cbn [consecutive.end_offsets consecutive.parent
    consecutive.start consecutive.separator_length].
  unfold fresh_block in Hl. rewrite length_replicate in Hl.
  rewrite (load_at_lookup tb k _ ltac:(lia) Htk).
  assert ((if decide (k = 0) then Done 0 else load_at (Some tb) (k - 1))
          = Done (start_offset_of (start + k) - start_offset_of start)) as ->.
  { destruct (decide (k = 0)) as [->|Hk0].
    - rewrite Z.add_0_r. f_equal. lia.
    - destruct (Hto (k - 1)) as (e' & He' & Htk'); [lia|].
      rewrite (load_at_lookup tb (k - 1) _ ltac:(lia) Htk'). f_equal.
      rewrite (start_offset_of_next (start + k) e')
        by (lia || by replace (start + k - 1) with (k - 1 + start) by lia).
      apply Hconv.
      destruct (Hordered (Z.to_nat start) (Z.to_nat (k - 1 + start)) e0 e');
        [lia | lia | done | done |]. lia. }
  cbn [mbind outcome_bind]. rewrite (Hconv (e - start_offset_of start)) by lia.
  f_equal. f_equal; [lia|].
  replace (e - start_offset_of start
           - (start_offset_of (start + k) - start_offset_of start))
    with (e - start_offset_of (start + k)) by lia.
  rewrite (Hconv (e - start_offset_of (start + k))) by lia.
  f_equal. f_equal.
  destruct Hflag as [Hlt | [Hstop | Hs]].
  - rewrite !decide_True by lia. done.
  - destruct (decide (k + 1 ≠ stop - start)) as [H1|H1],
             (decide (start + k + 1 ≠ n)) as [H2|H2]; (done || lia).
  - rewrite Hs. lia.
Qed.

End slice_parts.

(** X23. For a consecutive collection whose offsets are ordered, a sub-range
    [start, stop) that begins at an existing part, and an allocator that
    grants every request, the slice has [stop - start] parts, and part [k]
    of the slice is part [start + k] of the original for every [k] but
    possibly the last one; the last one is, too, when the slice runs to the
    end of the original or the separator is empty. *)
Lemma Strs_subscript_consecutive_parts (wide : bool) rt d fb start stop :
  let strs := if wide then STRS_CONSECUTIVE_64 d else STRS_CONSECUTIVE_32 d in
  consecutive.end_offsets d = Some fb →
  consecutive.count d ≤ Z.of_nat (length fb) →
  offsets_ordered (if wide then SIZE_MAX else UINT32_MAX) fb (consecutive.count d) →
  0 ≤ start ≤ stop ∧ stop ≤ consecutive.count d ∧ start < consecutive.count d →
  consecutive.count d ≤ SIZE_MAX →
  oracle rt = [] →
  ∃ slice rt',
    Strs_subscript rt strs start stop 1 = Done (Some slice, rt') ∧
    Strs_len slice = stop - start ∧
    ∀ k, 0 ≤ k < stop - start →
      (k + 1 < stop - start ∨ stop = consecutive.count d
       ∨ consecutive.separator_length d = 0) →
      observable_part slice k = observable_part strs (start + k).
Proof.
  intros strs Hblock Hholds Hordered Hrange Hmax Ho.
  unfold Strs_subscript. rewrite decide_False by (intros H; by apply H).
  destruct (PyObject_New_granted rt Ho) as (rt1 & -> & Ho1). cbn [negb].
  destruct wide; subst strs; cbn [Strs_len].
  - destruct (consecutive_logic_parts to_size_t SIZE_MAX d fb start stop)
      with (rt := rt1) as (to & rt' & -> & Hcount & Hparts); try done.
    { intros x Hx. by apply to_size_t_small. }
    cbn [mbind outcome_bind]. eexists _, _. split; [done|].
    split; [done|]. intros k Hk Hflag.
    unfold observable_part. simpl. rewrite Hcount. f_equal. by apply Hparts.
  - destruct (consecutive_logic_parts to_u32 UINT32_MAX d fb start stop)
      with (rt := rt1) as (to & rt' & -> & Hcount & Hparts); try done.
    { intros x Hx. by apply to_u32_small. }
    cbn [mbind outcome_bind]. eexists _, _. split; [done|].
    split; [done|]. intros k Hk Hflag.
    unfold observable_part. simpl. rewrite Hcount. f_equal. by apply Hparts.
Qed.

(** ** Sort and order on the sample collection *)

(** The parts [a], [bb], [ccc] sorted in reverse order with the merge sort
    are [ccc], [bb], [a]; their order is 0, 1, 2 and its reversal 2, 1, 0. *)
Example Strs_sort_sample :
  ∃ sorted rt',
    Strs_sort sample_memory (PyInit_stringzilla fresh_runtime) sample_strs true
    = Done (true, sorted, rt') ∧
    parts_bytes sample_memory sorted = Some [[99; 99; 99]; [98; 98]; [97]].
Proof. eexists _, _. split; reflexivity. Qed.

Example Strs_order_sample :
  ∃ strs1 rt1 strs2 rt2,
    Strs_order sample_memory (PyInit_stringzilla fresh_runtime) sample_strs false
    = Done (Some [0; 1; 2], strs1, rt1) ∧
    Strs_order sample_memory (PyInit_stringzilla fresh_runtime) sample_strs true
    = Done (Some [2; 1; 0], strs2, rt2).
Proof. eexists _, _, _, _. split; reflexivity. Qed.

(* ================================================================== *)
(** * Properties of the [Str] interface and of the rest of [Strs] *)
(* ================================================================== *)

(** ** Items and slices *)

Lemma to_ssize_t_small x :
  - PY_SSIZE_T_MAX - 1 ≤ x ≤ PY_SSIZE_T_MAX → to_ssize_t x = x.
Proof.
  intros Hx. unfold to_ssize_t.
  assert (SIZE_MAX = 18446744073709551615) as HSM by reflexivity.
  assert (PY_SSIZE_T_MAX = 9223372036854775807) as HPM by reflexivity.
  rewrite Z.mod_small by lia. lia.
Qed.

Lemma bytes_at_take_drop m p len a b :
  0 ≤ a → 0 ≤ b → a + b ≤ len →
  bytes_at m (p + a) b = take (Z.to_nat b) (drop (Z.to_nat a) (bytes_at m p len)).
Proof.
  intros Ha Hb Hlen.
  replace len with (a + (b + (len - a - b))) by lia.
  rewrite (bytes_at_app m p a) by lia.
  rewrite (bytes_at_app m (p + a) b) by lia.
  rewrite drop_app_length' by (rewrite length_bytes_at; lia).
  rewrite take_app_length' by (rewrite length_bytes_at; lia). done.
Qed.

(** X1. [Str_getitem] on a [Str] of at most [PY_SSIZE_T_MAX] bytes.  An index
    [i] with [-length ≤ i < length] selects the byte at position
    [i mod length] of the [Str], so a negative index counts from the end.
    When that byte is below [0x80] the result is the one-character string of
    the byte and the runtime is left as it was; when it is not, the result
    is [NULL] with [UnicodeDecodeError].  Every other index gives [NULL]
    with [IndexError]. *)
Theorem Str_getitem_index (m : memory) (rt : runtime) (self : Str_t) (i : Z) :
  0 ≤ Str.length self ≤ PY_SSIZE_T_MAX →
  - PY_SSIZE_T_MAX - 1 ≤ i ≤ PY_SSIZE_T_MAX →
  (- Str.length self ≤ i < Str.length self →
   ∃ byte,
     view_bytes m (Str_view self) !! Z.to_nat (i `mod` Str.length self) = Some byte ∧
     Str_getitem m rt self i
     = if decide (byte < 128) then (Some byte, rt)
       else (None, PyErr_SetString PyExc_UnicodeDecodeError rt)) ∧
  (¬ (- Str.length self ≤ i < Str.length self) →
   Str_getitem m rt self i = (None, PyErr_SetString PyExc_IndexError rt)).
Proof.
  intros Hlen Hi.
  assert (SIZE_MAX = 18446744073709551615) as HSM by reflexivity.
  assert (PY_SSIZE_T_MAX = 9223372036854775807) as HPM by reflexivity.
  assert (∀ k, 0 ≤ k < Str.length self →
               view_bytes m (Str_view self) !! Z.to_nat k = Some (m (Str.start self + k)))
    as Hbyte.
  { intros k Hk. unfold view_bytes, Str_view, bytes_at. simpl.
    rewrite list_lookup_fmap, lookup_seq_lt by lia. simpl. f_equal. f_equal. lia. }
  unfold Str_getitem, PyUnicode_FromStringAndSize. split.
  - intros Hin. exists (m (Str.start self + i `mod` Str.length self)).
    split; [apply Hbyte, Z.mod_pos_bound; lia|].
    destruct (decide (i < 0)) as [Hneg|Hpos].
    + rewrite to_ssize_t_small by lia.
      rewrite to_size_t_small by lia.
      destruct (decide (i + Str.length self < 0
                        ∨ Str.length self ≤ i + Str.length self)) as [|_]; [lia|].
      assert (i `mod` Str.length self = i + Str.length self) as ->
        by (symmetry; apply Z.mod_unique with (-1); lia).
      done.
    + rewrite to_size_t_small by lia.
      destruct (decide (i < 0 ∨ Str.length self ≤ i)) as [|_]; [lia|].
      by rewrite Z.mod_small by lia.
  - intros Hout. destruct (decide (i < 0)) as [Hneg|Hpos].
    + rewrite to_ssize_t_small by lia.
      destruct (decide (i + Str.length self < 0
                        ∨ Str.length self ≤ to_size_t (i + Str.length self))) as [|Hn];
        [done|].
      rewrite to_size_t_small in Hn by lia. lia.
    + rewrite to_size_t_small by lia.
      destruct (decide (i < 0 ∨ Str.length self ≤ i)) as [|Hn]; [done|]. lia.
Qed.

Lemma Str_getitem_index_witness :
  (∃ byte,
     view_bytes sample_memory (Str_view (Str.mk 7 1000 8))
       !! Z.to_nat ((-1) `mod` Str.length (Str.mk 7 1000 8)) = Some byte ∧
     Str_getitem sample_memory fresh_runtime (Str.mk 7 1000 8) (-1)
     = if decide (byte < 128) then (Some byte, fresh_runtime)
       else (None, PyErr_SetString PyExc_UnicodeDecodeError fresh_runtime)) ∧
  (∃ byte,
     view_bytes (λ _, 233) (Str_view (Str.mk 7 1000 8))
       !! Z.to_nat (3 `mod` Str.length (Str.mk 7 1000 8)) = Some byte ∧
     Str_getitem (λ _, 233) fresh_runtime (Str.mk 7 1000 8) 3
     = if decide (byte < 128) then (Some byte, fresh_runtime)
       else (None, PyErr_SetString PyExc_UnicodeDecodeError fresh_runtime)) ∧
  Str_getitem sample_memory fresh_runtime (Str.mk 7 1000 8) 8
  = (None, PyErr_SetString PyExc_IndexError fresh_runtime).
Proof.
  split; [|split].
  - apply (Str_getitem_index sample_memory fresh_runtime (Str.mk 7 1000 8) (-1)).
    + simpl. unfold PY_SSIZE_T_MAX. lia.
    + unfold PY_SSIZE_T_MAX. lia.
    + simpl. lia.
  - apply (Str_getitem_index (λ _, 233) fresh_runtime (Str.mk 7 1000 8) 3).
    + simpl. unfold PY_SSIZE_T_MAX. lia.
    + unfold PY_SSIZE_T_MAX. lia.
    + simpl. lia.
  - apply (Str_getitem_index sample_memory fresh_runtime (Str.mk 7 1000 8) 8).
    + simpl. unfold PY_SSIZE_T_MAX. lia.
    + unfold PY_SSIZE_T_MAX. lia.
    + simpl. lia.
Defined.

Lemma getter_part (self : Strs) getter (i : Z) :
  valid_collection self → 0 ≤ i < Strs_len self →
  str_at_offset_getter self = Some getter →
  ∃ p, getter i (Strs_len self) = Done p ∧ part_parent p = Strs_parent self.
Proof.
  intros Hvalid Hi Hg. destruct self as [d|d|d|]; simpl in *; try done;
    injection Hg as <-.
  - unfold str_at_offset_consecutive_32bit, str_at_offset_consecutive.
    destruct (load_at_holds _ _ i Hvalid Hi) as (a & v & Ha & _ & ->).
    destruct (decide (i = 0)) as [->|Hi0]; [simpl; eauto|].
    destruct (load_at_holds _ _ (i - 1) Hvalid ltac:(lia)) as (a' & v' & _ & _ & ->).
    simpl. eauto.
  - unfold str_at_offset_consecutive_64bit, str_at_offset_consecutive.
    destruct (load_at_holds _ _ i Hvalid Hi) as (a & v & Ha & _ & ->).
    destruct (decide (i = 0)) as [->|Hi0]; [simpl; eauto|].
    destruct (load_at_holds _ _ (i - 1) Hvalid ltac:(lia)) as (a' & v' & _ & _ & ->).
    simpl. eauto.
  - unfold str_at_offset_reordered.
    destruct (reordered.parts d) as [ps|] eqn:Hps; simpl in Hvalid; [|lia].
    destruct (lookup_lt_is_Some_2 ps (Z.to_nat i)) as [v Hv]; [lia|].
    rewrite (load_at_lookup ps i v) by (lia || done). simpl. eauto.
Qed.

(** X2. [Strs_getitem] on a valid collection whose parent is not [NULL], with
    an index [-count ≤ i < count] and an allocator that grants the request.
    The new [Str] has the parent of the collection and the start and length
    of part [i mod count] as the getter of the layout reports it; the
    reference count of the parent goes up by one and no other count moves;
    one object is allocated and no block; the error indicator is left as it
    was. *)
Theorem Strs_getitem_part (rt : runtime) (self : Strs) (i : Z) :
  valid_collection self → Strs_parent self ≠ 0 →
  - Strs_len self ≤ i < Strs_len self →
  oracle rt = [] →
  ∃ p rt',
    observable_part self (i `mod` Strs_len self) = Some (Done p) ∧
    Strs_getitem rt self i
    = Done (Some (Str.mk (Strs_parent self) (part_start p) (part_length p)), rt') ∧
    ob_refcnt rt' (Strs_parent self) = ob_refcnt rt (Strs_parent self) + 1 ∧
    (∀ o, o ≠ Strs_parent self → ob_refcnt rt' o = ob_refcnt rt o) ∧
    objects rt' = objects rt + 1 ∧ blocks rt' = blocks rt ∧ err rt' = err rt.
Proof.
  intros Hvalid Hparent Hi Ho.
  set (k := i `mod` Strs_len self).
  assert (0 ≤ k < Strs_len self) as Hk by (apply Z.mod_pos_bound; lia).
  assert ((if decide (i < 0) then i + Strs_len self else i) = k) as Hnorm.
  { subst k. case_decide.
    - apply Z.mod_unique with (-1); lia.
    - by rewrite Z.mod_small by lia. }
  assert (∃ getter, str_at_offset_getter self = Some getter) as [getter Hg].
  { destruct self; simpl; eauto. done. }
  destruct (getter_part self getter k Hvalid Hk Hg) as (p & Hp & Hpp).
  exists p. unfold Strs_getitem. cbv zeta. rewrite Hnorm.
  rewrite decide_False by lia. rewrite Hg, Hp. cbn [mbind outcome_bind].
  unfold PyObject_New, next_allocation. rewrite Ho. cbn [negb].
  rewrite decide_False by congruence. rewrite Hpp.
  eexists. split; [|split; [reflexivity|]].
  - unfold observable_part. rewrite Hg. simpl. by rewrite Hp.
  - simpl. rewrite decide_True by done. repeat split; try done.
    intros o Hne. by rewrite decide_False.
Qed.

Lemma Strs_getitem_part_witness :
  ∃ p rt',
    observable_part sample_strs ((-1) `mod` Strs_len sample_strs) = Some (Done p) ∧
    Strs_getitem fresh_runtime sample_strs (-1)
    = Done (Some (Str.mk (Strs_parent sample_strs) (part_start p) (part_length p)), rt') ∧
    ob_refcnt rt' (Strs_parent sample_strs)
    = ob_refcnt fresh_runtime (Strs_parent sample_strs) + 1 ∧
    (∀ o, o ≠ Strs_parent sample_strs → ob_refcnt rt' o = ob_refcnt fresh_runtime o) ∧
    objects rt' = objects fresh_runtime + 1 ∧ blocks rt' = blocks fresh_runtime ∧
    err rt' = err fresh_runtime.
Proof.
  apply (Strs_getitem_part fresh_runtime sample_strs (-1)).
  - unfold valid_collection, block_holds. simpl. lia.
  - simpl. lia.
  - simpl. lia.
  - reflexivity.
Defined.

(** X3. For every layout, [Strs_getitem] with an index outside
    [-count, count) returns [NULL] with [IndexError]; and whenever it returns
    [NULL], the index was outside that range and the error is [IndexError].
    A [STRS_MULTI_SOURCE] collection has length 0, so the [TypeError] of the
    branch for an unknown kind is never raised. *)
Theorem Strs_getitem_NULL_is_IndexError (rt : runtime) (self : Strs) (i : Z) :
  0 ≤ Strs_len self →
  (¬ (- Strs_len self ≤ i < Strs_len self) →
   Strs_getitem rt self i = Done (None, PyErr_SetString PyExc_IndexError rt)) ∧
  (∀ rt', Strs_getitem rt self i = Done (None, rt') →
          ¬ (- Strs_len self ≤ i < Strs_len self) ∧
          rt' = PyErr_SetString PyExc_IndexError rt).
Proof.
  intros Hcount. split.
  - intros Hout. unfold Strs_getitem. cbv zeta.
    destruct (decide (i < 0)); rewrite decide_True by lia; done.
  - intros rt'. unfold Strs_getitem. cbv zeta.
    destruct (decide ((if decide (i < 0) then i + Strs_len self else i) < 0
                      ∨ Strs_len self ≤ (if decide (i < 0) then i + Strs_len self else i)))
      as [Hout|Hin].
    + intros [= <-]. split; [|done]. destruct (decide (i < 0)); lia.
    + destruct self as [d|d|d|]; cbn [str_at_offset_getter Strs_len] in *.
      * destruct (str_at_offset_consecutive_32bit d _ _) as [p| |];
          cbn [mbind outcome_bind]; try done.
        destruct (PyObject_New rt) as [[] rt1]; cbn [negb]; try done.
        by destruct (decide (part_parent p = 0)).
      * destruct (str_at_offset_consecutive_64bit d _ _) as [p| |];
          cbn [mbind outcome_bind]; try done.
        destruct (PyObject_New rt) as [[] rt1]; cbn [negb]; try done.
        by destruct (decide (part_parent p = 0)).
      * destruct (str_at_offset_reordered d _ _) as [p| |];
          cbn [mbind outcome_bind]; try done.
        destruct (PyObject_New rt) as [[] rt1]; cbn [negb]; try done.
        by destruct (decide (part_parent p = 0)).
      * destruct (decide (i < 0)); lia.
Qed.

Lemma Strs_getitem_NULL_is_IndexError_witness :
  (¬ (- Strs_len STRS_MULTI_SOURCE ≤ 0 < Strs_len STRS_MULTI_SOURCE) →
   Strs_getitem fresh_runtime STRS_MULTI_SOURCE 0
   = Done (None, PyErr_SetString PyExc_IndexError fresh_runtime)) ∧
  (∀ rt', Strs_getitem fresh_runtime STRS_MULTI_SOURCE 0 = Done (None, rt') →
          ¬ (- Strs_len STRS_MULTI_SOURCE ≤ 0 < Strs_len STRS_MULTI_SOURCE) ∧
          rt' = PyErr_SetString PyExc_IndexError fresh_runtime).
Proof.
  apply (Strs_getitem_NULL_is_IndexError fresh_runtime STRS_MULTI_SOURCE 0).
  simpl. lia.
Defined.

(** X4. [Str_subscript] with a slice [start, stop) inside the [Str], step 1
    and an allocator that grants the request.  The new [Str] keeps the
    sliced object itself as its parent, has [stop - start] bytes, and these
    are the bytes [start .. stop - 1] of the original; the reference count
    of the sliced object goes up by one and no other count moves. *)
Theorem Str_subscript_slice (m : memory) (rt : runtime) (self_id : PyObject)
    (self : Str_t) (start stop : Z) :
  0 ≤ start ≤ stop → stop ≤ Str.length self → Str.length self ≤ SIZE_MAX →
  oracle rt = [] →
  ∃ slice rt',
    Str_subscript m rt self_id self (slice_key start stop 1)
    = Done (Some (item_Str slice), rt') ∧
    Str.parent slice = self_id ∧
    Str.length slice = stop - start ∧
    view_bytes m (Str_view slice)
    = take (Z.to_nat (stop - start))
        (drop (Z.to_nat start) (view_bytes m (Str_view self))) ∧
    ob_refcnt rt' self_id = ob_refcnt rt self_id + 1 ∧
    (∀ o, o ≠ self_id → ob_refcnt rt' o = ob_refcnt rt o).
Proof.
  intros Hstart Hstop Hmax Ho. unfold Str_subscript.
  rewrite decide_False by (intros H; by apply H).
  unfold PyObject_New, next_allocation. rewrite Ho. cbn [negb].
  eexists _, _. split; [reflexivity|]. simpl.
  rewrite to_size_t_small by lia. repeat split.
  - unfold view_bytes. simpl.
    by apply bytes_at_take_drop; lia.
  - by rewrite decide_True.
  - intros o Hne. by rewrite decide_False.
Qed.

Lemma Str_subscript_slice_witness :
  ∃ slice rt',
    Str_subscript sample_memory fresh_runtime 7 (Str.mk 0 1000 8) (slice_key 2 4 1)
    = Done (Some (item_Str slice), rt') ∧
    Str.parent slice = 7 ∧
    Str.length slice = 4 - 2 ∧
    view_bytes sample_memory (Str_view slice)
    = take (Z.to_nat (4 - 2))
        (drop (Z.to_nat 2) (view_bytes sample_memory (Str_view (Str.mk 0 1000 8)))) ∧
    ob_refcnt rt' 7 = ob_refcnt fresh_runtime 7 + 1 ∧
    (∀ o, o ≠ 7 → ob_refcnt rt' o = ob_refcnt fresh_runtime o).
Proof.
  apply (Str_subscript_slice sample_memory fresh_runtime 7 (Str.mk 0 1000 8) 2 4).
  - lia.
  - simpl. lia.
  - simpl. unfold SIZE_MAX. lia.
  - reflexivity.
Defined.

(** X5. [Str_subscript] does not clamp a reversed range.  With
    [stop < start], which [PySlice_AdjustIndices] leaves as it is, the length
    [stop - start] is stored in a [size_t] and wraps around: the new [Str]
    claims [SIZE_MAX + 1 - (start - stop)] bytes, more than the original
    has. *)
Theorem Str_subscript_reversed_range (m : memory) (rt : runtime) (self_id : PyObject)
    (self : Str_t) (start stop : Z) :
  0 ≤ stop < start → start ≤ Str.length self → Str.length self ≤ PY_SSIZE_T_MAX →
  oracle rt = [] →
  ∃ slice rt',
    Str_subscript m rt self_id self (slice_key start stop 1)
    = Done (Some (item_Str slice), rt') ∧
    Str.length slice = SIZE_MAX + 1 - (start - stop) ∧
    Str.length self < Str.length slice.
Proof.
  intros Hstop Hstart Hmax Ho. unfold Str_subscript.
  rewrite decide_False by (intros H; by apply H).
  unfold PyObject_New, next_allocation. rewrite Ho. cbn [negb].
  eexists _, _. split; [reflexivity|]. simpl.
  assert (SIZE_MAX = 18446744073709551615) as HSM by reflexivity.
  assert (PY_SSIZE_T_MAX = 9223372036854775807) as HPM by reflexivity.
  assert (to_size_t (stop - start) = SIZE_MAX + 1 - (start - stop)) as ->.
  { unfold to_size_t. symmetry. apply Z.mod_unique with (-1); lia. }
  lia.
Qed.

Lemma Str_subscript_reversed_range_witness :
  ∃ slice rt',
    Str_subscript sample_memory fresh_runtime 7 (Str.mk 0 1000 8) (slice_key 5 2 1)
    = Done (Some (item_Str slice), rt') ∧
    Str.length slice = SIZE_MAX + 1 - (5 - 2) ∧
    Str.length (Str.mk 0 1000 8) < Str.length slice.
Proof.
  apply (Str_subscript_reversed_range sample_memory fresh_runtime 7 (Str.mk 0 1000 8) 5 2).
  - lia.
  - simpl. lia.
  - simpl. unfold PY_SSIZE_T_MAX. lia.
  - reflexivity.
Defined.

(** X6. For a text and a slice that both end within the address space (so
    that neither sum of line 930 wraps around): when [Str_offset_within]
    returns an offset, the slice lies inside the text at that offset: the
    offset is not negative, the slice ends within the text, it starts
    [offset] bytes after the start of the text, and its bytes are those of
    the text from [offset] on. *)
Theorem Str_offset_within_locates (m : memory) (slice_obj text_obj : py_object)
    (slice text : sz_string_view_t) (offset : Z) :
  string_like slice_obj = Some slice → string_like text_obj = Some text →
  0 ≤ sz_string_view.start text → 0 ≤ sz_string_view.length text →
  sz_string_view.start text + sz_string_view.length text ≤ SIZE_MAX →
  0 ≤ sz_string_view.length slice →
  sz_string_view.start slice + sz_string_view.length slice ≤ SIZE_MAX →
  Str_offset_within slice_obj text_obj = offset_is offset →
  0 ≤ offset ∧
  offset + sz_string_view.length slice ≤ sz_string_view.length text ∧
  sz_string_view.start slice = sz_string_view.start text + offset ∧
  view_bytes m slice
  = take (Z.to_nat (sz_string_view.length slice))
      (drop (Z.to_nat offset) (view_bytes m text)).
Proof.
  intros Hs Ht Htext Htlen Htend Hlen Hend. unfold Str_offset_within. rewrite Hs, Ht.
  assert (SIZE_MAX = 18446744073709551615) as HSM by reflexivity.
  destruct (decide (sz_string_view.start slice < sz_string_view.start text
                    ∨ to_size_t (sz_string_view.start text + sz_string_view.length text)
                      < to_size_t (sz_string_view.start slice
                                   + sz_string_view.length slice))) as [|Hout]; [done|].
  intros [= <-].
  assert (sz_string_view.start text ≤ sz_string_view.start slice) as Hin by lia.
  rewrite !to_size_t_small in Hout by lia.
  rewrite to_size_t_small by lia.
  split; [lia|]. split; [lia|]. split; [lia|].
  unfold view_bytes.
  replace (sz_string_view.start slice)
    with (sz_string_view.start text
          + (sz_string_view.start slice - sz_string_view.start text)) at 1 by lia.
  apply bytes_at_take_drop; lia.
Qed.

Lemma Str_offset_within_locates_witness :
  0 ≤ 2 ∧
  2 + sz_string_view.length (sz_string_view.mk 1002 2)
  ≤ sz_string_view.length sample_text ∧
  sz_string_view.start (sz_string_view.mk 1002 2) = sz_string_view.start sample_text + 2 ∧
  view_bytes sample_memory (sz_string_view.mk 1002 2)
  = take (Z.to_nat (sz_string_view.length (sz_string_view.mk 1002 2)))
      (drop (Z.to_nat 2) (view_bytes sample_memory sample_text)).
Proof.
  apply (Str_offset_within_locates sample_memory
           (Str_object (Str.mk 7 1002 2)) (File_object sample_text)
           (sz_string_view.mk 1002 2) sample_text 2).
  - reflexivity.
  - reflexivity.
  - simpl. lia.
  - simpl. lia.
  - simpl. unfold SIZE_MAX. lia.
  - simpl. lia.
  - simpl. unfold SIZE_MAX. lia.
  - reflexivity.
Defined.

(** X7. Slicing and [Str_offset_within] are inverse to each other: for a
    [Str] whose buffer lies in the address space and a slice with both
    bounds inside the [Str], the offset of the [Str] that [Str_subscript]
    returns within the original is [start].  This holds for a reversed range
    too, whose over-long slice line 930 accepts because its end wraps
    around. *)
Theorem Str_offset_within_of_slice (m : memory) (rt : runtime) (self_id : PyObject)
    (self : Str_t) (start stop : Z) (slice : Str_t) (rt' : runtime) :
  0 ≤ start ≤ Str.length self → 0 ≤ stop ≤ Str.length self →
  0 ≤ Str.start self → Str.start self + Str.length self ≤ SIZE_MAX →
  Str_subscript m rt self_id self (slice_key start stop 1)
  = Done (Some (item_Str slice), rt') →
  Str_offset_within (Str_object slice) (Str_object self) = offset_is start.
Proof.
  intros Hstart Hstop Hbuf Hend. unfold Str_subscript.
  rewrite decide_False by (intros H; by apply H).
  destruct (PyObject_New rt) as [[] rt1]; cbn [negb]; [|done].
  intros [= <- <-]. unfold Str_offset_within. simpl.
  assert (SIZE_MAX = 18446744073709551615) as HSM by reflexivity.
  assert (to_size_t (Str.start self + start + to_size_t (stop - start))
          = Str.start self + stop) as ->.
  { unfold to_size_t at 2. unfold to_size_t. rewrite Z.add_mod_idemp_r by lia.
    replace (Str.start self + start + (stop - start)) with (Str.start self + stop) by lia.
    apply Z.mod_small. lia. }
  rewrite (to_size_t_small (Str.start self + Str.length self)) by lia.
  rewrite decide_False by lia. f_equal.
  rewrite to_size_t_small by lia. lia.
Qed.

Lemma Str_offset_within_of_slice_witness :
  Str_offset_within (Str_object (Str.mk 7 1002 2)) (Str_object (Str.mk 0 1000 8))
  = offset_is 2 ∧
  Str_offset_within (Str_object (Str.mk 7 1005 (SIZE_MAX - 2))) (Str_object (Str.mk 0 1000 8))
  = offset_is 5.
Proof.
  split.
  - apply (Str_offset_within_of_slice sample_memory fresh_runtime 7 (Str.mk 0 1000 8) 2 4
             (Str.mk 7 1002 2) (Py_INCREF 7 (set_objects 1 fresh_runtime))).
    + simpl. lia.
    + simpl. lia.
    + simpl. lia.
    + simpl. unfold SIZE_MAX. lia.
    + reflexivity.
  - apply (Str_offset_within_of_slice sample_memory fresh_runtime 7 (Str.mk 0 1000 8) 5 2
             (Str.mk 7 1005 (SIZE_MAX - 2)) (Py_INCREF 7 (set_objects 1 fresh_runtime))).
    + simpl. lia.
    + simpl. lia.
    + simpl. lia.
    + simpl. unfold SIZE_MAX. lia.
    + reflexivity.
Defined.

Lemma next_allocation_heap rt ok rt' :
  next_allocation rt = (ok, rt') →
  ob_refcnt rt' = ob_refcnt rt ∧ objects rt' = objects rt ∧ blocks rt' = blocks rt ∧
  err rt' = err rt.
Proof.
  unfold next_allocation. destruct (oracle rt); intros [= <- <-]; done.
Qed.

Lemma PyObject_New_true rt rt' :
  PyObject_New rt = (true, rt') →
  ob_refcnt rt' = ob_refcnt rt ∧ objects rt' = objects rt + 1 ∧
  blocks rt' = blocks rt ∧ err rt' = err rt.
Proof.
  unfold PyObject_New. destruct (next_allocation rt) as [ok rt1] eqn:Hn.
  apply next_allocation_heap in Hn as (? & ? & ? & ?).
  intros [= -> <-]. simpl. repeat split; congruence.
Qed.

Lemma Str_dealloc_after_INCREF rt rt1 parent start length :
  parent ≠ 0 →
  ob_refcnt rt1 = ob_refcnt rt → objects rt1 = objects rt + 1 →
  blocks rt1 = blocks rt →
  let rt2 := Str_dealloc (Py_INCREF parent rt1) (Str.mk parent start length) in
  (∀ o, ob_refcnt rt2 o = ob_refcnt rt o) ∧ objects rt2 = objects rt ∧
  blocks rt2 = blocks rt.
Proof.
  intros Hp Hr Ho Hb. unfold Str_dealloc. simpl.
  rewrite decide_True by done. simpl. repeat split; [|lia|done].
  intros o. rewrite Hr. case_decide; lia.
Qed.

(** X8. A slice gives its reference back.  After [Str_subscript] has
    returned a new [Str] and [Str_dealloc] has run on it, every reference
    count, the number of live objects and the number of live blocks are what
    they were before the slice was taken. *)
Theorem Str_subscript_then_dealloc (m : memory) (rt : runtime) (self_id : PyObject)
    (self : Str_t)
    (start stop : Z) (slice : Str_t) (rt' : runtime) :
  self_id ≠ 0 →
  Str_subscript m rt self_id self (slice_key start stop 1)
  = Done (Some (item_Str slice), rt') →
  (∀ o, ob_refcnt (Str_dealloc rt' slice) o = ob_refcnt rt o) ∧
  objects (Str_dealloc rt' slice) = objects rt ∧
  blocks (Str_dealloc rt' slice) = blocks rt.
Proof.
  intros Hid. unfold Str_subscript.
  rewrite decide_False by (intros H; by apply H).
  destruct (PyObject_New rt) as [[] rt1] eqn:Hnew; cbn [negb]; [|done].
  apply PyObject_New_true in Hnew as (Hr & Ho & Hb & _).
  intros [= <- <-]. by apply Str_dealloc_after_INCREF.
Qed.

Lemma Str_subscript_then_dealloc_witness :
  (∀ o, ob_refcnt (Str_dealloc (Py_INCREF 7 (set_objects 1 fresh_runtime))
                     (Str.mk 7 1002 2)) o
        = ob_refcnt fresh_runtime o) ∧
  objects (Str_dealloc (Py_INCREF 7 (set_objects 1 fresh_runtime)) (Str.mk 7 1002 2))
  = objects fresh_runtime ∧
  blocks (Str_dealloc (Py_INCREF 7 (set_objects 1 fresh_runtime)) (Str.mk 7 1002 2))
  = blocks fresh_runtime.
Proof.
  apply (Str_subscript_then_dealloc sample_memory fresh_runtime 7 (Str.mk 0 1000 8) 2 4
           (Str.mk 7 1002 2) (Py_INCREF 7 (set_objects 1 fresh_runtime))).
  - lia.
  - reflexivity.
Defined.

(** X9. An item of a collection gives its reference back.  After
    [Strs_getitem] has returned a new [Str] and [Str_dealloc] has run on it,
    every reference count, the number of live objects and the number of live
    blocks are what they were before. *)
Theorem Strs_getitem_then_dealloc (rt : runtime) (self : Strs) (i : Z)
    (view : Str_t) (rt' : runtime) :
  Strs_getitem rt self i = Done (Some view, rt') →
  (∀ o, ob_refcnt (Str_dealloc rt' view) o = ob_refcnt rt o) ∧
  objects (Str_dealloc rt' view) = objects rt ∧
  blocks (Str_dealloc rt' view) = blocks rt.
Proof.
  unfold Strs_getitem. cbv zeta. case_decide as Hout; [done|].
  destruct (str_at_offset_getter self) as [getter|]; [|done].
  destruct (getter _ _) as [p| |]; cbn [mbind outcome_bind]; try done.
  destruct (PyObject_New rt) as [[] rt1] eqn:Hnew; cbn [negb]; [|done].
  apply PyObject_New_true in Hnew as (Hr & Ho & Hb & _).
  destruct (decide (part_parent p = 0)) as [|Hp]; [done|].
  intros [= <- <-]. by apply Str_dealloc_after_INCREF.
Qed.

Lemma Strs_getitem_then_dealloc_witness :
  (∀ o, ob_refcnt (Str_dealloc (Py_INCREF 7 (set_objects 1 fresh_runtime))
                     (Str.mk 7 1002 2)) o
        = ob_refcnt fresh_runtime o) ∧
  objects (Str_dealloc (Py_INCREF 7 (set_objects 1 fresh_runtime)) (Str.mk 7 1002 2))
  = objects fresh_runtime ∧
  blocks (Str_dealloc (Py_INCREF 7 (set_objects 1 fresh_runtime)) (Str.mk 7 1002 2))
  = blocks fresh_runtime.
Proof.
  apply (Strs_getitem_then_dealloc fresh_runtime sample_strs 1
           (Str.mk 7 1002 2) (Py_INCREF 7 (set_objects 1 fresh_runtime))).
  reflexivity.
Defined.

(** ** Comparison, prefixes and suffixes *)

Lemma lexico_cons (x y : Z) (l1 l2 : list Z) :
  lexico (x :: l1) (y :: l2) ↔ x < y ∨ x = y ∧ lexico l1 l2.
Proof. done. Qed.

Lemma lexico_nil_l (l : list Z) : lexico [] l ↔ l ≠ [].
Proof. destruct l; [split; [intros []|done] | split; done]. Qed.

Lemma lexico_nil_r (l : list Z) : ¬ lexico l [].
Proof. destruct l; intros H; exact H. Qed.

Lemma memcmp_bytes_spec : ∀ P Q : list Z,
  length P = length Q →
  (memcmp_bytes P Q < 0 ↔ lexico P Q) ∧
  (memcmp_bytes P Q = 0 ↔ P = Q) ∧
  (0 < memcmp_bytes P Q ↔ lexico Q P).
Proof.
  induction P as [|x P IH]; intros [|y Q] Hlen; simpl in Hlen; try lia.
  - simpl. split; [|split]; split; try done; try lia.
  - destruct (IH Q ltac:(lia)) as (IH1 & IH2 & IH3).
    cbn [memcmp_bytes]. rewrite !lexico_cons.
    destruct (decide (x = y)) as [->|Hne].
    + rewrite IH1, IH2, IH3. split; [|split].
      * split; [by right | intros [?|[_ ?]]; [lia | done]].
      * split; [by intros -> | by intros [= ->]].
      * split; [by right | intros [?|[_ ?]]; [lia | done]].
    + destruct (decide (x < y)); (split; [|split]); split; intros H;
        try lia; try congruence;
        try (destruct H as [?|[? _]]; (lia || done)); try (left; lia).
Qed.

Lemma lexico_app : ∀ (P Q Ra Rb : list Z),
  length P = length Q →
  lexico (P ++ Ra) (Q ++ Rb) ↔ lexico P Q ∨ (P = Q ∧ lexico Ra Rb).
Proof.
  induction P as [|x P IH]; intros [|y Q] Ra Rb Hlen; simpl in Hlen; try lia.
  - simpl. split; [by right | intros [[]|[_ ?]]; done].
  - simpl app. rewrite !lexico_cons. rewrite IH by lia. split.
    + intros [?|[-> [?|[-> ?]]]]; [left; by left | left; by right | by right].
    + intros [[?|[-> ?]]|[[= -> ->] ?]]; [by left | right; split; [done | by left] |].
      right. split; [done|]. by right.
Qed.

Lemma richcompare_order_spec m a b :
  0 ≤ sz_string_view.length a → 0 ≤ sz_string_view.length b →
  let A := view_bytes m a in
  let B := view_bytes m b in
  (richcompare_order m a b < 0 ↔ lexico A B) ∧
  (richcompare_order m a b = 0 ↔ A = B) ∧
  (0 < richcompare_order m a b ↔ lexico B A).
Proof.
  intros Ha Hb A B. unfold richcompare_order. cbv zeta.
  set (la := sz_string_view.length a) in *.
  set (lb := sz_string_view.length b) in *.
  set (n := if decide (la < lb) then la else lb).
  assert (0 ≤ n ∧ n ≤ la ∧ n ≤ lb ∧ (n = la ∨ n = lb)) as Hn
    by (subst n; case_decide; lia).
  assert (A = bytes_at m (sz_string_view.start a) n
              ++ bytes_at m (sz_string_view.start a + n) (la - n)) as HA.
  { subst A. unfold view_bytes. fold la.
    replace la with (n + (la - n)) at 1 by lia. apply bytes_at_app; lia. }
  assert (B = bytes_at m (sz_string_view.start b) n
              ++ bytes_at m (sz_string_view.start b + n) (lb - n)) as HB.
  { subst B. unfold view_bytes. fold lb.
    replace lb with (n + (lb - n)) at 1 by lia. apply bytes_at_app; lia. }
  set (P := bytes_at m (sz_string_view.start a) n) in *.
  set (Q := bytes_at m (sz_string_view.start b) n) in *.
  set (Ra := bytes_at m (sz_string_view.start a + n) (la - n)) in *.
  set (Rb := bytes_at m (sz_string_view.start b + n) (lb - n)) in *.
  assert (length P = length Q) as HPQ by (subst P Q; by rewrite !length_bytes_at).
  assert (length Ra = Z.to_nat (la - n)) as HRa by (subst Ra; apply length_bytes_at).
  assert (length Rb = Z.to_nat (lb - n)) as HRb by (subst Rb; apply length_bytes_at).
  destruct (memcmp_bytes_spec P Q HPQ) as (H1 & H2 & H3).
  unfold memcmp. fold P Q. rewrite HA, HB.
  rewrite !lexico_app by done.
  assert (P ++ Ra = Q ++ Rb ↔ P = Q ∧ Ra = Rb) as ->.
  { split; [|by intros [-> ->]]. intros Happ.
    apply app_inj_1 in Happ; done. }
  assert (Ra = [] ↔ la - n ≤ 0) as HRa0.
  { split; [intros E; rewrite E in HRa; simpl in HRa; lia|].
    intros E. apply length_zero_iff_nil. lia. }
  assert (Rb = [] ↔ lb - n ≤ 0) as HRb0.
  { split; [intros E; rewrite E in HRb; simpl in HRb; lia|].
    intros E. apply length_zero_iff_nil. lia. }
  assert (lexico Ra Rb ↔ la < lb) as HRab.
  { destruct (decide (n = la)) as [E|E].
    - assert (Ra = []) as -> by (apply HRa0; lia).
      rewrite lexico_nil_l, HRb0. lia.
    - assert (Rb = []) as -> by (apply HRb0; lia).
      split; [intros H; by apply lexico_nil_r in H | lia]. }
  assert (lexico Rb Ra ↔ lb < la) as HRba.
  { destruct (decide (n = lb)) as [E|E].
    - assert (Rb = []) as -> by (apply HRb0; lia).
      rewrite lexico_nil_l, HRa0. lia.
    - assert (Ra = []) as -> by (apply HRa0; lia).
      split; [intros H; by apply lexico_nil_r in H | lia]. }
  assert (Ra = Rb ↔ la = lb) as HRe.
  { split.
    - intros E. rewrite E in HRa. lia.
    - intros E. assert (Ra = []) as -> by (apply HRa0; lia).
      symmetry. apply HRb0. lia. }
  rewrite HRab, HRba, HRe.
  destruct (decide (memcmp_bytes P Q = 0)) as [E0|E0].
  - assert (P = Q) as HPQe by (by apply H2).
    assert (Q = P) as HQPe by done.
    assert (¬ lexico P Q) as Hn1 by (rewrite <- H1; lia).
    assert (¬ lexico Q P) as Hn2 by (rewrite <- H3; lia).
    destruct (decide (lb < la)), (decide (la < lb)); try lia;
      (split; [|split]); split; intros H; try lia; try tauto; try (intuition lia).
  - assert (P ≠ Q) as HPQe by (by rewrite <- H2).
    assert (Q ≠ P) as HQPe by congruence.
    rewrite H1, H2, H3. tauto.
Qed.

(** X10. [Str_richcompare] on two string-like objects decides the
    lexicographic order of their bytes, a proper prefix being smaller:
    [<] and [>] are that strict order and its converse, [==] and [!=] are
    equality of the bytes and its negation, and [<=] and [>=] are the
    negations of [>] and [<]. *)
Theorem Str_richcompare_lexicographic (m : memory) (self other : py_object)
    (a b : sz_string_view_t) :
  string_like self = Some a → string_like other = Some b →
  0 ≤ sz_string_view.length a → 0 ≤ sz_string_view.length b →
  (Str_richcompare m self other Py_LT = Some true
   ↔ lexico (view_bytes m a) (view_bytes m b)) ∧
  (Str_richcompare m self other Py_GT = Some true
   ↔ lexico (view_bytes m b) (view_bytes m a)) ∧
  (Str_richcompare m self other Py_EQ = Some true
   ↔ view_bytes m a = view_bytes m b) ∧
  (Str_richcompare m self other Py_NE = Some true
   ↔ view_bytes m a ≠ view_bytes m b) ∧
  (Str_richcompare m self other Py_LE = Some true
   ↔ ¬ lexico (view_bytes m b) (view_bytes m a)) ∧
  (Str_richcompare m self other Py_GE = Some true
   ↔ ¬ lexico (view_bytes m a) (view_bytes m b)).
Proof.
  intros Hs Ho Ha Hb.
  destruct (richcompare_order_spec m a b Ha Hb) as (H1 & H2 & H3).
  unfold Str_richcompare. rewrite Hs, Ho. cbv zeta. simpl.
  rewrite <- H1, <- H2, <- H3.
  repeat split; intros H; try (injection H as H); 
    try (apply bool_decide_eq_true in H); try lia;
    try (f_equal; apply bool_decide_eq_true; lia).
Qed.

Lemma Str_richcompare_lexicographic_witness :
  let m := sample_memory in
  let a := sz_string_view.mk 1000 1 in
  let b := sz_string_view.mk 1002 2 in
  (Str_richcompare m (File_object a) (File_object b) Py_LT = Some true
   ↔ lexico (view_bytes m a) (view_bytes m b)) ∧
  (Str_richcompare m (File_object a) (File_object b) Py_GT = Some true
   ↔ lexico (view_bytes m b) (view_bytes m a)) ∧
  (Str_richcompare m (File_object a) (File_object b) Py_EQ = Some true
   ↔ view_bytes m a = view_bytes m b) ∧
  (Str_richcompare m (File_object a) (File_object b) Py_NE = Some true
   ↔ view_bytes m a ≠ view_bytes m b) ∧
  (Str_richcompare m (File_object a) (File_object b) Py_LE = Some true
   ↔ ¬ lexico (view_bytes m b) (view_bytes m a)) ∧
  (Str_richcompare m (File_object a) (File_object b) Py_GE = Some true
   ↔ ¬ lexico (view_bytes m a) (view_bytes m b)).
Proof.
  intros m a b.
  apply (Str_richcompare_lexicographic m (File_object a) (File_object b) a b).
  - reflexivity.
  - reflexivity.
  - simpl. lia.
  - simpl. lia.
Defined.

Lemma sz_order_lexico : ∀ A B : list Z,
  (sz_order A B = Lt ↔ lexico A B) ∧ (sz_order A B = Gt ↔ lexico B A).
Proof.
  induction A as [|x A IH]; intros [|y B]; simpl.
  1-3: split; split; intros H; try done; try (by destruct H).
  destruct (IH B) as [IH1 IH2]. rewrite !lexico_cons.
  destruct (Z.compare_spec x y) as [->|Hlt|Hgt].
  - rewrite IH1, IH2. split; (split; [by right | intros [?|[_ ?]]; [lia | done]]).
  - split; split; intros H; try done; try (by left); destruct H as [?|[? _]]; lia.
  - split; split; intros H; try done; try (by left); destruct H as [?|[? _]]; lia.
Qed.

(** X11. The order of [<=] on [Str] is the order of the sort: for two
    string-like objects, [Str_richcompare] with [Py_LE] returns [True]
    exactly when the comparator behind [sort()] and [order()] does not put
    the first after the second. *)
Theorem Str_richcompare_is_the_sort_order (m : memory) (self other : py_object)
    (a b : sz_string_view_t) :
  string_like self = Some a → string_like other = Some b →
  0 ≤ sz_string_view.length a → 0 ≤ sz_string_view.length b →
  (Str_richcompare m self other Py_LE = Some true
   ↔ bytes_le (view_bytes m a) (view_bytes m b)).
Proof.
  intros Hs Ho Ha Hb.
  destruct (richcompare_order_spec m a b Ha Hb) as (H1 & H2 & H3).
  destruct (sz_order_lexico (view_bytes m a) (view_bytes m b)) as [_ HGt].
  unfold bytes_le. rewrite HGt, <- H3.
  unfold Str_richcompare. rewrite Hs, Ho. cbv zeta. simpl. split.
  - intros [= H]. apply bool_decide_eq_true in H. lia.
  - intros H. f_equal. apply bool_decide_eq_true. lia.
Qed.

Lemma Str_richcompare_is_the_sort_order_witness :
  let m := sample_memory in
  let a := sz_string_view.mk 1000 1 in
  let b := sz_string_view.mk 1002 2 in
  (Str_richcompare m (File_object a) (File_object b) Py_LE = Some true
   ↔ bytes_le (view_bytes m a) (view_bytes m b)).
Proof.
  intros m a b.
  apply (Str_richcompare_is_the_sort_order m (File_object a) (File_object b) a b).
  - reflexivity.
  - reflexivity.
  - simpl. lia.
  - simpl. lia.
Defined.

Lemma bytes_at_S m p n :
  0 ≤ n → bytes_at m p (n + 1) = m p :: bytes_at m (p + 1) n.
Proof.
  intros Hn. rewrite Z.add_comm. rewrite bytes_at_app by lia.
  by rewrite bytes_at_one.
Qed.

Lemma strncmp_equal m : ∀ (n : nat) s1 s2,
  bytes_at m s1 (Z.of_nat n) = bytes_at m s2 (Z.of_nat n) →
  strncmp m s1 s2 n = 0.
Proof.
  induction n as [|n IH]; intros s1 s2 Heq; [done|].
  rewrite Nat2Z.inj_succ, <- Z.add_1_r in Heq.
  rewrite !bytes_at_S in Heq by lia. injection Heq as Hc Hrest.
  cbn [strncmp]. rewrite decide_False by (intros H; by apply H).
  case_decide; [done|]. by apply IH.
Qed.

Lemma strncmp_zero m : ∀ (n : nat) s1 s2,
  strncmp m s1 s2 n = 0 →
  (∀ x, x ∈ bytes_at m s2 (Z.of_nat n) → x ≠ 0) →
  bytes_at m s1 (Z.of_nat n) = bytes_at m s2 (Z.of_nat n).
Proof.
  induction n as [|n IH]; intros s1 s2 Hcmp Hnul; [done|].
  rewrite Nat2Z.inj_succ, <- Z.add_1_r in *.
  rewrite !bytes_at_S in * by lia.
  cbn [strncmp] in Hcmp.
  destruct (decide (m s1 ≠ m s2)) as [Hne|Heq].
  { case_decide; lia. }
  assert (m s1 = m s2) as Hc by (destruct (decide (m s1 = m s2)); [done|by destruct Heq]).
  destruct (decide (m s1 = 0)) as [H0|H0].
  { exfalso. apply (Hnul (m s2)); [by left | congruence]. }
  rewrite Hc. f_equal. apply IH; [done|].
  intros x Hx. apply Hnul. by right.
Qed.

Lemma strncmp_stops_at_NUL m : ∀ (n : nat) s1 s2 (k : nat),
  (k < n)%nat →
  bytes_at m s1 (Z.of_nat k + 1) = bytes_at m s2 (Z.of_nat k + 1) →
  m (s2 + Z.of_nat k) = 0 →
  strncmp m s1 s2 n = 0.
Proof.
  induction n as [|n IH]; intros s1 s2 k Hk Heq H0; [lia|].
  rewrite bytes_at_S in Heq by lia. rewrite (bytes_at_S m s2) in Heq by lia.
  injection Heq as Hc Hrest.
  cbn [strncmp]. rewrite decide_False by (intros H; by apply H).
  case_decide as Hz; [done|].
  destruct k as [|k].
  { exfalso. apply Hz. rewrite Hc. by rewrite Z.add_0_r in H0. }
  apply (IH _ _ k); [lia| |].
  - rewrite Nat2Z.inj_succ, <- Z.add_1_r in Hrest. done.
  - rewrite <- H0. f_equal. lia.
Qed.

Lemma apply_start_end_window m str start end_ :
  0 ≤ start ≤ Z.min end_ (sz_string_view.length str) →
  sz_string_view.length str ≤ PY_SSIZE_T_MAX → end_ ≤ PY_SSIZE_T_MAX →
  let w := apply_start_end str start end_ in
  sz_string_view.start w = sz_string_view.start str + start ∧
  sz_string_view.length w = Z.min end_ (sz_string_view.length str) - start ∧
  view_bytes m w
  = take (Z.to_nat (end_ - start)) (drop (Z.to_nat start) (view_bytes m str)).
Proof.
  intros Hstart Hlen Hend.
  assert (SIZE_MAX = 18446744073709551615) as HSM by reflexivity.
  assert (PY_SSIZE_T_MAX = 9223372036854775807) as HPM by reflexivity.
  unfold apply_start_end. cbv zeta.
  rewrite (to_size_t_small (sz_string_view.length str - start)) by lia.
  rewrite (to_size_t_small (end_ - start)) by lia.
  set (len := sz_string_view.length str) in *.
  assert ((if decide (end_ ≠ PY_SSIZE_T_MAX ∧ end_ - start < len - start)
           then end_ - start else len - start) = Z.min end_ len - start) as ->.
  { case_decide; lia. }
  simpl. split; [done|]. split; [done|].
  unfold view_bytes. simpl. fold len.
  rewrite (bytes_at_take_drop m (sz_string_view.start str) len start
             (Z.min end_ len - start)) by lia.
  destruct (decide (end_ ≤ len)) as [Hle|Hgt].
  - by rewrite Z.min_l by lia.
  - rewrite Z.min_r by lia.
    rewrite !take_ge; [done | |]; rewrite length_drop, length_bytes_at; lia.
Qed.

(** X12. [Str_startswith] with [0 ≤ start ≤ min (end, length)].  The window
    is the bytes [start .. min (end, length) - 1] of the string.  Whenever
    the prefix is a prefix of the window the answer is [True]; and when the
    prefix holds no [NUL] byte, the answer [True] means that it is a prefix
    of the window. *)
Theorem Str_startswith_prefix (m : memory) (str_obj prefix_obj : py_object)
    (str prefix : sz_string_view_t) (start end_ : Z) :
  string_like str_obj = Some str → string_like prefix_obj = Some prefix →
  0 ≤ start ≤ Z.min end_ (sz_string_view.length str) →
  sz_string_view.length str ≤ PY_SSIZE_T_MAX → end_ ≤ PY_SSIZE_T_MAX →
  0 ≤ sz_string_view.length prefix →
  let window := take (Z.to_nat (end_ - start))
                  (drop (Z.to_nat start) (view_bytes m str)) in
  (view_bytes m prefix `prefix_of` window →
   Str_startswith m str_obj prefix_obj start end_ = Some true) ∧
  ((∀ x, x ∈ view_bytes m prefix → x ≠ 0) →
   Str_startswith m str_obj prefix_obj start end_ = Some true →
   view_bytes m prefix `prefix_of` window).
Proof.
  intros Hs Hp Hstart Hlen Hend Hpl window.
  destruct (apply_start_end_window m str start end_ Hstart Hlen Hend)
    as (Hws & Hwl & HW). fold window in HW.
  unfold Str_startswith. rewrite Hs, Hp. cbv zeta.
  set (w := apply_start_end str start end_) in *.
  set (pl := sz_string_view.length prefix) in *.
  assert (length window = Z.to_nat (sz_string_view.length w)) as HlW.
  { rewrite <- HW. unfold view_bytes. apply length_bytes_at. }
  split.
  - intros [k Hk].
    assert (pl ≤ sz_string_view.length w) as Hle.
    { apply (f_equal length) in Hk. rewrite length_app in Hk.
      unfold view_bytes in Hk. rewrite length_bytes_at in Hk. fold pl in Hk. lia. }
    rewrite decide_False by lia. f_equal. apply bool_decide_eq_true.
    apply strncmp_equal. rewrite Z2Nat.id by done.
    assert (bytes_at m (sz_string_view.start w) pl = take (Z.to_nat pl) window) as ->.
    { rewrite <- HW. unfold view_bytes.
      rewrite <- (Z.add_0_r (sz_string_view.start w)) at 1.
      rewrite (bytes_at_take_drop m _ (sz_string_view.length w) 0 pl) by lia.
      done. }
    rewrite Hk. rewrite take_app_length'; [done|].
    unfold view_bytes. by rewrite length_bytes_at.
  - intros Hnul. case_decide as Hlt; [done|]. intros [= Hcmp].
    apply bool_decide_eq_true in Hcmp.
    apply strncmp_zero in Hcmp; [|by rewrite Z2Nat.id by done].
    rewrite Z2Nat.id in Hcmp by done.
    exists (bytes_at m (sz_string_view.start w + pl) (sz_string_view.length w - pl)).
    rewrite <- HW. unfold view_bytes at 1 2. fold pl. rewrite <- Hcmp.
    replace (sz_string_view.length w) with (pl + (sz_string_view.length w - pl)) at 1
      by lia.
    apply bytes_at_app; lia.
Qed.

Lemma Str_startswith_prefix_witness :
  let m := sample_memory in
  let prefix := sz_string_view.mk 1002 2 in
  let window := take (Z.to_nat (PY_SSIZE_T_MAX - 2))
                  (drop (Z.to_nat 2) (view_bytes m sample_text)) in
  (view_bytes m prefix `prefix_of` window →
   Str_startswith m (File_object sample_text) (File_object prefix) 2 PY_SSIZE_T_MAX
   = Some true) ∧
  ((∀ x, x ∈ view_bytes m prefix → x ≠ 0) →
   Str_startswith m (File_object sample_text) (File_object prefix) 2 PY_SSIZE_T_MAX
   = Some true →
   view_bytes m prefix `prefix_of` window).
Proof.
  intros m prefix.
  apply (Str_startswith_prefix m (File_object sample_text) (File_object prefix)
           sample_text prefix 2 PY_SSIZE_T_MAX).
  - reflexivity.
  - reflexivity.
  - simpl. unfold PY_SSIZE_T_MAX. lia.
  - simpl. unfold PY_SSIZE_T_MAX. lia.
  - lia.
  - simpl. lia.
Defined.

(** X13. [Str_endswith] with [0 ≤ start ≤ min (end, length)].  Whenever the
    suffix is a suffix of the window [start .. min (end, length) - 1] the
    answer is [True]; and when the suffix holds no [NUL] byte, the answer
    [True] means that it is a suffix of the window. *)
Theorem Str_endswith_suffix (m : memory) (str_obj suffix_obj : py_object)
    (str suffix : sz_string_view_t) (start end_ : Z) :
  string_like str_obj = Some str → string_like suffix_obj = Some suffix →
  0 ≤ start ≤ Z.min end_ (sz_string_view.length str) →
  sz_string_view.length str ≤ PY_SSIZE_T_MAX → end_ ≤ PY_SSIZE_T_MAX →
  0 ≤ sz_string_view.length suffix →
  let window := take (Z.to_nat (end_ - start))
                  (drop (Z.to_nat start) (view_bytes m str)) in
  (view_bytes m suffix `suffix_of` window →
   Str_endswith m str_obj suffix_obj start end_ = Some true) ∧
  ((∀ x, x ∈ view_bytes m suffix → x ≠ 0) →
   Str_endswith m str_obj suffix_obj start end_ = Some true →
   view_bytes m suffix `suffix_of` window).
Proof.
  intros Hs Hp Hstart Hlen Hend Hpl window.
  assert (SIZE_MAX = 18446744073709551615) as HSM by reflexivity.
  assert (PY_SSIZE_T_MAX = 9223372036854775807) as HPM by reflexivity.
  destruct (apply_start_end_window m str start end_ Hstart Hlen Hend)
    as (Hws & Hwl & HW). fold window in HW.
  unfold Str_endswith. rewrite Hs, Hp. cbv zeta.
  set (w := apply_start_end str start end_) in *.
  set (pl := sz_string_view.length suffix) in *.
  set (wl := sz_string_view.length w) in *.
  assert (length window = Z.to_nat wl) as HlW.
  { rewrite <- HW. unfold view_bytes. apply length_bytes_at. }
  assert (pl ≤ wl →
          window = bytes_at m (sz_string_view.start w) (wl - pl)
                   ++ bytes_at m (sz_string_view.start w + (wl - pl)) pl) as Hsplit.
  { intros Hle. rewrite <- HW. unfold view_bytes. fold wl.
    replace wl with ((wl - pl) + pl) at 1 by lia. apply bytes_at_app; lia. }
  split.
  - intros [k Hk].
    assert (pl ≤ wl) as Hle.
    { apply (f_equal length) in Hk. rewrite length_app in Hk.
      unfold view_bytes in Hk. rewrite length_bytes_at in Hk. fold pl in Hk. lia. }
    rewrite decide_False by lia. f_equal. apply bool_decide_eq_true.
    rewrite to_size_t_small by lia.
    apply strncmp_equal. rewrite Z2Nat.id by done.
    specialize (Hsplit Hle). rewrite Hk in Hsplit.
    apply app_inj_2 in Hsplit as [_ Hsplit]; [done|].
    unfold view_bytes. by rewrite !length_bytes_at.
  - intros Hnul. case_decide as Hlt; [done|]. intros [= Hcmp].
    apply bool_decide_eq_true in Hcmp.
    rewrite to_size_t_small in Hcmp by lia.
    apply strncmp_zero in Hcmp; [|by rewrite Z2Nat.id by done].
    rewrite Z2Nat.id in Hcmp by done.
    exists (bytes_at m (sz_string_view.start w) (wl - pl)).
    rewrite (Hsplit ltac:(lia)). rewrite Hws. by rewrite Hcmp.
Qed.

Lemma Str_endswith_suffix_witness :
  let m := sample_memory in
  let suffix := sz_string_view.mk 1002 2 in
  let window := take (Z.to_nat (4 - 0))
                  (drop (Z.to_nat 0) (view_bytes m sample_text)) in
  (view_bytes m suffix `suffix_of` window →
   Str_endswith m (File_object sample_text) (File_object suffix) 0 4 = Some true) ∧
  ((∀ x, x ∈ view_bytes m suffix → x ≠ 0) →
   Str_endswith m (File_object sample_text) (File_object suffix) 0 4 = Some true →
   view_bytes m suffix `suffix_of` window).
Proof.
  intros m suffix.
  apply (Str_endswith_suffix m (File_object sample_text) (File_object suffix)
           sample_text suffix 0 4).
  - reflexivity.
  - reflexivity.
  - simpl. lia.
  - simpl. unfold PY_SSIZE_T_MAX. lia.
  - unfold PY_SSIZE_T_MAX. lia.
  - simpl. lia.
Defined.

(** X14. [Str_startswith] compares with [strncmp], which stops at a [NUL]
    byte.  When the string and the prefix agree up to and including a [NUL]
    byte of the prefix, the answer is [True], whatever bytes follow in the
    prefix. *)
Theorem Str_startswith_stops_at_NUL (m : memory) (str_obj prefix_obj : py_object)
    (str prefix : sz_string_view_t) (k : Z) :
  string_like str_obj = Some str → string_like prefix_obj = Some prefix →
  0 ≤ k < sz_string_view.length prefix →
  sz_string_view.length prefix ≤ sz_string_view.length str →
  sz_string_view.length str ≤ PY_SSIZE_T_MAX →
  bytes_at m (sz_string_view.start str) (k + 1)
  = bytes_at m (sz_string_view.start prefix) (k + 1) →
  m (sz_string_view.start prefix + k) = 0 →
  Str_startswith m str_obj prefix_obj 0 PY_SSIZE_T_MAX = Some true.
Proof.
  intros Hs Hp Hk Hle Hlen Heq H0.
  assert (SIZE_MAX = 18446744073709551615) as HSM by reflexivity.
  assert (PY_SSIZE_T_MAX = 9223372036854775807) as HPM by reflexivity.
  unfold Str_startswith. rewrite Hs, Hp. cbv zeta.
  unfold apply_start_end. cbv zeta. simpl.
  rewrite Z.sub_0_r, Z.add_0_r. rewrite to_size_t_small by lia.
  rewrite decide_False by lia. f_equal. apply bool_decide_eq_true.
  apply (strncmp_stops_at_NUL m _ _ _ (Z.to_nat k)); [lia| |].
  - by rewrite Z2Nat.id by lia.
  - by rewrite Z2Nat.id by lia.
Qed.

Lemma Str_startswith_stops_at_NUL_witness :
  let m : memory := λ a, if decide (a = 2000 ∨ a = 3000) then 97
                         else if decide (a = 2002) then 98
                         else if decide (a = 3002) then 99 else 0 in
  Str_startswith m (File_object (sz_string_view.mk 2000 3))
    (File_object (sz_string_view.mk 3000 3)) 0 PY_SSIZE_T_MAX = Some true.
Proof.
  intros m.
  apply (Str_startswith_stops_at_NUL m (File_object (sz_string_view.mk 2000 3))
           (File_object (sz_string_view.mk 3000 3))
           (sz_string_view.mk 2000 3) (sz_string_view.mk 3000 3) 1).
  - reflexivity.
  - reflexivity.
  - simpl. lia.
  - simpl. lia.
  - simpl. unfold PY_SSIZE_T_MAX. lia.
  - reflexivity.
  - reflexivity.
Defined.

(** ** Counting *)

Lemma prefix_of_bytes_at m (needle : list Z) p len :
  0 ≤ len →
  needle `prefix_of` bytes_at m p len
  ↔ Z.of_nat (length needle) ≤ len ∧ bytes_at m p (Z.of_nat (length needle)) = needle.
Proof.
  intros Hlen. split.
  - intros [k Hk].
    assert (Z.of_nat (length needle) ≤ len) as Hle.
    { apply (f_equal length) in Hk. rewrite length_app, length_bytes_at in Hk. lia. }
    split; [done|].
    replace len with (Z.of_nat (length needle) + (len - Z.of_nat (length needle)))
      in Hk by lia.
    rewrite bytes_at_app in Hk by lia.
    apply app_inj_1 in Hk as [Hk _]; [done|].
    rewrite length_bytes_at. lia.
  - intros [Hle Heq].
    exists (bytes_at m (p + Z.of_nat (length needle)) (len - Z.of_nat (length needle))).
    replace len with (Z.of_nat (length needle) + (len - Z.of_nat (length needle)))
      at 1 by lia.
    rewrite bytes_at_app by lia. by rewrite Heq.
Qed.

Lemma occurrences_bytes_at m (needle : list Z) : ∀ (n : nat) p,
  needle ≠ [] →
  occurrences needle (bytes_at m p (Z.of_nat n))
  = occurrences_at m needle (Z.of_nat (length needle)) p
      (Z.to_nat (Z.of_nat n - Z.of_nat (length needle) + 1)).
Proof.
  intros n p Hne.
  assert (0 < length needle)%nat as Hpos.
  { destruct needle as [|x needle']; [done | simpl; lia]. }
  revert p. induction n as [|n IH]; intros p.
  { change (Z.of_nat 0) with 0. rewrite bytes_at_nil by lia.
    by replace (Z.to_nat (0 - Z.of_nat (length needle) + 1)) with 0%nat by lia. }
  rewrite Nat2Z.inj_succ, <- Z.add_1_r.
  rewrite bytes_at_S by lia. cbn [occurrences].
  rewrite <- (bytes_at_S m p (Z.of_nat n)) by lia.
  rewrite IH.
  destruct (decide (Z.of_nat (length needle) ≤ Z.of_nat n + 1)) as [Hle|Hgt].
  - replace (Z.to_nat (Z.of_nat n + 1 - Z.of_nat (length needle) + 1))
      with (S (Z.to_nat (Z.of_nat n - Z.of_nat (length needle) + 1))) by lia.
    cbn [occurrences_at]. f_equal.
    destruct (decide (needle `prefix_of` _)) as [Hp|Hp];
      rewrite prefix_of_bytes_at in Hp by lia.
    + by rewrite decide_True by apply Hp.
    + rewrite decide_False; [done|]. intros Heq. apply Hp. done.
  - replace (Z.to_nat (Z.of_nat n + 1 - Z.of_nat (length needle) + 1)) with 0%nat by lia.
    replace (Z.to_nat (Z.of_nat n - Z.of_nat (length needle) + 1)) with 0%nat by lia.
    rewrite decide_False; [done|]. rewrite prefix_of_bytes_at by lia. lia.
Qed.

Lemma occurrences_at_app m needle nl : ∀ (a b : nat) p,
  occurrences_at m needle nl p (a + b)
  = (occurrences_at m needle nl p a
     + occurrences_at m needle nl (p + Z.of_nat a) b)%nat.
Proof.
  induction a as [|a IH]; intros b p.
  - simpl. by rewrite Z.add_0_r.
  - cbn [Nat.add occurrences_at]. rewrite IH.
    replace (p + 1 + Z.of_nat a) with (p + Z.of_nat (S a)) by lia. lia.
Qed.

Lemma occurrences_at_none m needle nl : ∀ (a : nat) p,
  (∀ r, p ≤ r < p + Z.of_nat a → bytes_at m r nl ≠ needle) →
  occurrences_at m needle nl p a = 0%nat.
Proof.
  induction a as [|a IH]; intros p Hno; [done|].
  cbn [occurrences_at]. rewrite decide_False by (apply Hno; lia).
  rewrite IH; [done|]. intros r Hr. apply Hno. lia.
Qed.

Lemma sz_find_scan_first m needle nl : ∀ positions p q,
  sz_find_scan m needle nl p positions = Some q →
  ∀ r, p ≤ r < q → bytes_at m r nl ≠ needle.
Proof.
  induction positions as [|k IH]; intros p q; [done|].
  cbn [sz_find_scan]. case_decide as Hm.
  - intros [= <-] r Hr. lia.
  - intros Hq r Hr. destruct (decide (r = p)) as [->|Hne]; [done|].
    apply (IH _ _ Hq). lia.
Qed.

Lemma sz_find_scan_None m needle nl : ∀ positions p,
  sz_find_scan m needle nl p positions = None →
  ∀ r, p ≤ r < p + Z.of_nat positions → bytes_at m r nl ≠ needle.
Proof.
  induction positions as [|k IH]; intros p; [intros _ r Hr; lia|].
  cbn [sz_find_scan]. case_decide as Hm; [done|].
  intros Hq r Hr. destruct (decide (r = p)) as [->|Hne]; [done|].
  apply (IH _ Hq). lia.
Qed.

Lemma Str_count_loop_overlapping m needle :
  let nl := sz_string_view.length needle in
  let N := view_bytes m needle in
  0 < nl →
  ∀ fuel h hl c,
    0 ≤ hl → 0 ≤ c → c + hl ≤ SIZE_MAX → (Z.to_nat hl ≤ fuel)%nat →
    Str_count_loop fuel m true needle h hl c
    = Done (c + Z.of_nat (occurrences_at m N nl h (Z.to_nat (hl - nl + 1)))).
Proof.
  intros nl N Hnl.
  assert (SIZE_MAX = 18446744073709551615) as HSM by reflexivity.
  induction fuel as [|fuel IH]; intros h hl c Hhl Hc Hmax Hfuel.
  { assert (hl = 0) as -> by lia. simpl.
    replace (Z.to_nat (0 - nl + 1)) with 0%nat by lia. simpl. f_equal. lia. }
  cbn [Str_count_loop]. destruct (decide (hl ≠ 0)) as [Hne|He].
  2:{ assert (hl = 0) as -> by lia.
      replace (Z.to_nat (0 - nl + 1)) with 0%nat by lia. simpl. f_equal. lia. }
  fold nl. destruct (sz_find m h hl (sz_string_view.start needle) nl) as [q|] eqn:Hfind.
  - pose proof (sz_find_Some _ _ _ _ _ _ Hfind) as (Hq1 & Hq2 & Hq3).
    unfold sz_find in Hfind. case_decide as Hshort; [done|].
    pose proof (sz_find_scan_first _ _ _ _ _ _ Hfind) as Hfirst.
    rewrite (to_size_t_small (q - h)) by lia.
    rewrite (to_size_t_small (q - h + 1)) by lia.
    rewrite (to_size_t_small (c + 1)) by lia.
    rewrite (to_size_t_small (hl - (q - h + 1))) by lia.
    rewrite IH by lia. f_equal.
    replace (Z.to_nat (hl - nl + 1))
      with (Z.to_nat (q - h) + S (Z.to_nat (hl - (q - h + 1) - nl + 1)))%nat by lia.
    rewrite occurrences_at_app.
    rewrite (occurrences_at_none m N nl (Z.to_nat (q - h)) h)
      by (intros r Hr; apply Hfirst; lia).
    cbn [occurrences_at]. rewrite Z2Nat.id by lia.
    replace (h + (q - h)) with q by lia.
    rewrite decide_True by done.
    replace (h + (q - h + 1)) with (q + 1) by lia. lia.
  - rewrite Z.add_0_r. rewrite (to_size_t_small hl) by lia.
    rewrite (to_size_t_small (c + 0)) by lia. rewrite Z.sub_diag.
    change (to_size_t 0) with 0.
    destruct fuel; simpl; rewrite Z.add_0_r; f_equal.
    all: rewrite occurrences_at_none; [lia|].
    all: unfold sz_find in Hfind; case_decide as Hshort;
      [replace (Z.to_nat (hl - nl + 1)) with 0%nat by lia; intros r Hr; lia|].
    all: intros r Hr; apply (sz_find_scan_None _ _ _ _ _ Hfind); lia.
Qed.

(** X15. [Str_count] with [allowoverlap] true and a non-empty needle returns
    the number of positions of the haystack at which the needle occurs,
    overlapping occurrences included; [length haystack] iterations are
    enough for it to return. *)
Theorem Str_count_overlapping (m : memory) (haystack needle : sz_string_view_t)
    (fuel : nat) :
  0 < sz_string_view.length needle →
  0 ≤ sz_string_view.length haystack ≤ SIZE_MAX →
  (Z.to_nat (sz_string_view.length haystack) ≤ fuel)%nat →
  Str_count fuel m haystack needle true
  = Done (Z.of_nat (occurrences (view_bytes m needle) (view_bytes m haystack))).
Proof.
  intros Hnl Hhl Hfuel.
  set (nl := sz_string_view.length needle) in *.
  set (hl := sz_string_view.length haystack) in *.
  assert (view_bytes m needle ≠ []) as Hne.
  { intros E. apply (f_equal length) in E. unfold view_bytes in E.
    rewrite length_bytes_at in E. simpl in E. fold nl in E. lia. }
  assert (Z.of_nat (length (view_bytes m needle)) = nl) as HlN.
  { unfold view_bytes. rewrite length_bytes_at. fold nl. lia. }
  assert (view_bytes m haystack
          = bytes_at m (sz_string_view.start haystack) (Z.of_nat (Z.to_nat hl))) as ->.
  { unfold view_bytes. fold hl. by rewrite Z2Nat.id by lia. }
  rewrite occurrences_bytes_at by done. rewrite HlN, Z2Nat.id by lia.
  unfold Str_count. cbv zeta. fold nl hl.
  case_decide as Hshort.
  - replace (Z.to_nat (hl - nl + 1)) with 0%nat by lia. done.
  - rewrite Str_count_loop_overlapping by lia. done.
Qed.

Lemma Str_count_overlapping_witness :
  Str_count 8 sample_memory sample_text sample_separator true
  = Done (Z.of_nat (occurrences (view_bytes sample_memory sample_separator)
                      (view_bytes sample_memory sample_text))).
Proof.
  apply (Str_count_overlapping sample_memory sample_text sample_separator 8).
  - simpl. lia.
  - simpl. unfold SIZE_MAX. lia.
  - simpl. lia.
Defined.

Lemma Str_count_loop_disjoint m needle :
  let nl := sz_string_view.length needle in
  0 < nl →
  ∀ fuel h hl c,
    0 ≤ hl → 0 ≤ c → c + hl ≤ SIZE_MAX → (Z.to_nat hl ≤ fuel)%nat →
    ∃ r, Str_count_loop fuel m false needle h hl c = Done r ∧
         c ≤ r ∧ (r - c) * nl ≤ hl.
Proof.
  intros nl Hnl.
  assert (SIZE_MAX = 18446744073709551615) as HSM by reflexivity.
  induction fuel as [|fuel IH]; intros h hl c Hhl Hc Hmax Hfuel.
  { assert (hl = 0) as -> by lia. simpl. exists c. split; [done|]. lia. }
  cbn [Str_count_loop]. destruct (decide (hl ≠ 0)) as [Hne|He].
  2:{ exists c. split; [done|]. lia. }
  fold nl. destruct (sz_find m h hl (sz_string_view.start needle) nl) as [q|] eqn:Hfind.
  - pose proof (sz_find_Some _ _ _ _ _ _ Hfind) as (Hq1 & Hq2 & Hq3).
    rewrite (to_size_t_small (q - h)) by lia.
    rewrite Z.mul_1_r.
    rewrite (to_size_t_small (q - h + nl)) by lia.
    rewrite (to_size_t_small (c + 1)) by lia.
    rewrite (to_size_t_small (hl - (q - h + nl))) by lia.
    destruct (IH (h + (q - h + nl)) (hl - (q - h + nl)) (c + 1)) as (r & -> & Hr1 & Hr2);
      [lia..|].
    exists r. split; [done|]. split; [lia|]. nia.
  - rewrite Z.mul_0_r, Z.add_0_r. rewrite (to_size_t_small hl) by lia.
    rewrite (to_size_t_small (c + 0)) by lia. rewrite Z.sub_diag.
    change (to_size_t 0) with 0.
    exists (c + 0). split; [by destruct fuel|]. lia.
Qed.

(** X16. [Str_count] with [allowoverlap] false and a non-empty needle
    returns, within [length haystack] iterations, a count of occurrences
    that fit side by side in the haystack: the count times the length of the
    needle is at most the length of the haystack. *)
Theorem Str_count_disjoint (m : memory) (haystack needle : sz_string_view_t)
    (fuel : nat) :
  0 < sz_string_view.length needle →
  0 ≤ sz_string_view.length haystack ≤ SIZE_MAX →
  (Z.to_nat (sz_string_view.length haystack) ≤ fuel)%nat →
  ∃ count,
    Str_count fuel m haystack needle false = Done count ∧
    0 ≤ count ∧
    count * sz_string_view.length needle ≤ sz_string_view.length haystack.
Proof.
  intros Hnl Hhl Hfuel. unfold Str_count. cbv zeta. case_decide as Hshort.
  - exists 0. split; [done|]. lia.
  - destruct (Str_count_loop_disjoint m needle Hnl fuel
                (sz_string_view.start haystack) (sz_string_view.length haystack) 0)
      as (r & -> & Hr1 & Hr2); [lia..|].
    exists r. split; [done|]. split; [done|]. by rewrite Z.sub_0_r in Hr2.
Qed.

Lemma Str_count_disjoint_witness :
  ∃ count,
    Str_count 8 sample_memory sample_text sample_separator false = Done count ∧
    0 ≤ count ∧
    count * sz_string_view.length sample_separator ≤ sz_string_view.length sample_text.
Proof.
  apply (Str_count_disjoint sample_memory sample_text sample_separator 8).
  - simpl. lia.
  - simpl. unfold SIZE_MAX. lia.
  - simpl. lia.
Defined.

(** ** Concatenation *)

Lemma export_string_like_Some rt object v :
  string_like object = Some v → export_string_like rt object = (Some v, rt).
Proof.
  unfold export_string_like. intros H. rewrite H.
  by destruct object as [|[?|]| | |].
Qed.

Lemma bytes_at_ext m1 m2 p q len :
  (∀ k, 0 ≤ k < len → m1 (p + k) = m2 (q + k)) →
  bytes_at m1 p len = bytes_at m2 q len.
Proof.
  intros H. unfold bytes_at. apply list_fmap_ext.
  intros i k Hk. apply lookup_seq in Hk as [-> Hlt]. simpl. apply H. lia.
Qed.

(** X17. [Str_concat] on two string-like objects, with an allocator that
    grants both requests and a new block that the bytes of the second
    operand do not lie in.  The result owns its buffer (its parent is
    [NULL]), starts at the new block, and its bytes are the bytes of the
    first operand followed by those of the second; no byte outside the new
    block is changed. *)
Theorem Str_concat_bytes (m : memory) (rt : runtime) (block : Z)
    (self other : py_object) (a b : sz_string_view_t) :
  string_like self = Some a → string_like other = Some b →
  0 ≤ sz_string_view.length a → 0 ≤ sz_string_view.length b →
  sz_string_view.length a + sz_string_view.length b ≤ SIZE_MAX →
  sz_string_view.start b + sz_string_view.length b ≤ block
  ∨ block + sz_string_view.length a + sz_string_view.length b
    ≤ sz_string_view.start b →
  oracle rt = [] →
  ∃ result m' rt',
    Str_concat m rt block self other = (Some result, m', rt') ∧
    Str.parent result = 0 ∧ Str.start result = block ∧
    view_bytes m' (Str_view result) = view_bytes m a ++ view_bytes m b ∧
    (∀ addr, ¬ (block ≤ addr
                < block + sz_string_view.length a + sz_string_view.length b) →
             m' addr = m addr).
Proof.
  intros Hs Ho Ha Hb Hmax Hapart Horacle. unfold Str_concat.
  rewrite (export_string_like_Some rt self a Hs).
  rewrite (export_string_like_Some rt other b Ho).
  unfold PyObject_New, malloc, next_allocation. rewrite Horacle. simpl.
  rewrite Horacle. simpl.
  eexists _, _, _. split; [reflexivity|]. split; [done|]. split; [done|].
  set (la := sz_string_view.length a) in *.
  set (lb := sz_string_view.length b) in *.
  split.
  - unfold view_bytes. simpl. rewrite to_size_t_small by lia.
    rewrite bytes_at_app by lia. f_equal.
    + apply bytes_at_ext. intros k Hk. unfold memcpy.
      rewrite decide_False by lia. rewrite decide_True by lia. f_equal. lia.
    + apply bytes_at_ext. intros k Hk. unfold memcpy.
      rewrite decide_True by lia. rewrite decide_False by lia. f_equal. lia.
  - intros addr Hout. unfold memcpy.
    rewrite decide_False by lia. rewrite decide_False by lia. done.
Qed.

Lemma Str_concat_bytes_witness :
  ∃ result m' rt',
    Str_concat sample_memory fresh_runtime 4000
      (File_object (sz_string_view.mk 1000 1)) (File_object (sz_string_view.mk 1002 2))
    = (Some result, m', rt') ∧
    Str.parent result = 0 ∧ Str.start result = 4000 ∧
    view_bytes m' (Str_view result)
    = view_bytes sample_memory (sz_string_view.mk 1000 1)
      ++ view_bytes sample_memory (sz_string_view.mk 1002 2) ∧
    (∀ addr, ¬ (4000 ≤ addr
                < 4000 + sz_string_view.length (sz_string_view.mk 1000 1)
                  + sz_string_view.length (sz_string_view.mk 1002 2)) →
             m' addr = sample_memory addr).
Proof.
  apply (Str_concat_bytes sample_memory fresh_runtime 4000
           (File_object (sz_string_view.mk 1000 1))
           (File_object (sz_string_view.mk 1002 2))
           (sz_string_view.mk 1000 1) (sz_string_view.mk 1002 2)).
  - reflexivity.
  - reflexivity.
  - simpl. lia.
  - simpl. lia.
  - simpl. unfold SIZE_MAX. lia.
  - simpl. lia.
  - reflexivity.
Defined.

Lemma malloc_heap rt ok rt' :
  malloc rt = (ok, rt') →
  ob_refcnt rt' = ob_refcnt rt ∧ objects rt' = objects rt ∧
  blocks rt' = blocks rt + (if ok then 1 else 0) ∧ err rt' = err rt.
Proof.
  unfold malloc. destruct (next_allocation rt) as [ok' rt1] eqn:Hn.
  apply next_allocation_heap in Hn as (? & ? & ? & ?).
  intros [= -> <-]. destruct ok; simpl; repeat split; (congruence || lia).
Qed.

Lemma export_string_like_heap rt object v rt' :
  export_string_like rt object = (v, rt') →
  ob_refcnt rt' = ob_refcnt rt ∧ objects rt' = objects rt ∧ blocks rt' = blocks rt.
Proof.
  unfold export_string_like. intros [= _ <-].
  destruct object as [|[?|]| | |]; repeat split; reflexivity.
Qed.

(** X18. Whenever [Str_concat] returns a [Str], one object and one block
    have been allocated; [Str_dealloc] on the result frees both, and leaves
    the numbers of live blocks and objects and the reference counts what
    they were before the concatenation. *)
Theorem Str_concat_then_dealloc (m : memory) (rt : runtime) (block : Z)
    (self other : py_object) (result : Str_t) (m' : memory) (rt' : runtime) :
  block ≠ 0 →
  Str_concat m rt block self other = (Some result, m', rt') →
  blocks rt' = blocks rt + 1 ∧ objects rt' = objects rt + 1 ∧
  blocks (Str_dealloc rt' result) = blocks rt ∧
  objects (Str_dealloc rt' result) = objects rt ∧
  ob_refcnt (Str_dealloc rt' result) = ob_refcnt rt.
Proof.
  intros Hblock. unfold Str_concat.
  destruct (export_string_like rt self) as [[a|] rt1] eqn:H1; [|done].
  destruct (export_string_like rt1 other) as [[b|] rt2] eqn:H2; [|done].
  destruct (PyObject_New rt2) as [[] rt3] eqn:H3; cbn [negb]; [|done].
  destruct (malloc rt3) as [[] rt4] eqn:H4; cbn [negb]; [|done].
  intros [= <- <- <-].
  apply export_string_like_heap in H1 as (? & ? & ?).
  apply export_string_like_heap in H2 as (? & ? & ?).
  apply PyObject_New_true in H3 as (? & ? & ? & _).
  apply malloc_heap in H4 as (? & ? & ? & _).
  unfold Str_dealloc. simpl. rewrite decide_True by done. simpl.
  repeat split; (congruence || lia).
Qed.

Lemma Str_concat_then_dealloc_witness :
  let r := Str_concat sample_memory fresh_runtime 4000
             (File_object (sz_string_view.mk 1000 1))
             (File_object (sz_string_view.mk 1002 2)) in
  let result := Str.mk 0 4000 3 in
  blocks r.2 = blocks fresh_runtime + 1 ∧ objects r.2 = objects fresh_runtime + 1 ∧
  blocks (Str_dealloc r.2 result) = blocks fresh_runtime ∧
  objects (Str_dealloc r.2 result) = objects fresh_runtime ∧
  ob_refcnt (Str_dealloc r.2 result) = ob_refcnt fresh_runtime.
Proof.
  intros r result.
  apply (Str_concat_then_dealloc sample_memory fresh_runtime 4000
           (File_object (sz_string_view.mk 1000 1))
           (File_object (sz_string_view.mk 1002 2)) result r.1.2 r.2).
  - lia.
  - reflexivity.
Defined.

(** X19. When the allocator grants the [Str] object of [Str_concat] and
    refuses its buffer, [Str_concat] returns [NULL] with [MemoryError] and
    leaves the memory as it was, but does not release the object: one more
    object is live than before the call. *)
Theorem Str_concat_refused_buffer (m : memory) (rt : runtime) (block : Z)
    (self other : py_object) (a b : sz_string_view_t) (rest : list bool) :
  string_like self = Some a → string_like other = Some b →
  oracle rt = true :: false :: rest →
  ∃ rt',
    Str_concat m rt block self other = (None, m, rt') ∧
    err rt' = Some PyExc_MemoryError ∧
    blocks rt' = blocks rt ∧
    objects rt' = objects rt + 1.
Proof.
  intros Hs Ho Horacle. unfold Str_concat.
  rewrite (export_string_like_Some rt self a Hs).
  rewrite (export_string_like_Some rt other b Ho).
  unfold PyObject_New, malloc, next_allocation. rewrite Horacle. simpl.
  eexists. split; [reflexivity|]. done.
Qed.

Lemma Str_concat_refused_buffer_witness :
  ∃ rt',
    Str_concat sample_memory (set_oracle [true; false] fresh_runtime) 4000
      (File_object (sz_string_view.mk 1000 1)) (File_object (sz_string_view.mk 1002 2))
    = (None, sample_memory, rt') ∧
    err rt' = Some PyExc_MemoryError ∧
    blocks rt' = blocks (set_oracle [true; false] fresh_runtime) ∧
    objects rt' = objects (set_oracle [true; false] fresh_runtime) + 1.
Proof.
  apply (Str_concat_refused_buffer sample_memory (set_oracle [true; false] fresh_runtime)
           4000 (File_object (sz_string_view.mk 1000 1))
           (File_object (sz_string_view.mk 1002 2))
           (sz_string_view.mk 1000 1) (sz_string_view.mk 1002 2) []).
  - reflexivity.
  - reflexivity.
  - reflexivity.
Defined.

(** ** The scratch buffer *)

(** X20. When [Strs_sort_] has to grow the scratch buffer and [realloc]
    refuses, it returns 0 with [MemoryError], keeps the old block
    allocated, and records the length it asked for beside a [NULL] start.
    From then on, whatever the allocator would answer, [Strs_sort_] on a
    collection that needs no more than that length returns 0 with
    [MemoryError] without asking the allocator, and
    [temporary_memory_allocate] for no more than that length returns [NULL]
    and leaves the runtime as it is. *)
Theorem Strs_sort__refused_scratch_is_sticky `{sz_sort_t} (m : memory) (rt : runtime)
    (d : reordered_slices_t) (rest : list bool) :
  tm_length (temporary_memory rt) < to_size_t (8 * reordered.count d) →
  oracle rt = false :: rest →
  ∃ rt1,
    Strs_sort_ m rt (STRS_REORDERED d) = Done (None, STRS_REORDERED d, rt1) ∧
    err rt1 = Some PyExc_MemoryError ∧
    blocks rt1 = blocks rt ∧
    temporary_memory rt1
    = mk_temporary_memory false (to_size_t (8 * reordered.count d)) ∧
    ∀ (m' : memory) (d' : reordered_slices_t) (rt2 : runtime),
      temporary_memory rt2 = temporary_memory rt1 →
      to_size_t (8 * reordered.count d') ≤ to_size_t (8 * reordered.count d) →
      (∃ rt3,
         Strs_sort_ m' rt2 (STRS_REORDERED d') = Done (None, STRS_REORDERED d', rt3) ∧
         err rt3 = Some PyExc_MemoryError ∧
         oracle rt3 = oracle rt2) ∧
      temporary_memory_allocate (to_size_t (8 * reordered.count d')) rt2 = (false, rt2).
Proof.
  intros Hsmall Horacle. unfold Strs_sort_.
  cbn [prepare_strings_for_reordering mbind outcome_bind negb].
  rewrite decide_True by done.
  unfold realloc, next_allocation. rewrite Horacle. cbn [andb negb tm_allocated].
  eexists. split; [reflexivity|]. split; [done|]. split; [done|]. split; [done|].
  intros m' d' rt2 Htm Hle. cbn [temporary_memory set_temporary_memory PyErr_Format
    set_err set_oracle] in Htm.
  split.
  - rewrite Htm. cbn [tm_length tm_allocated]. rewrite decide_False by lia.
    cbn [negb tm_allocated]. eexists. split; [reflexivity|]. done.
  - unfold temporary_memory_allocate. rewrite Htm. cbn [tm_length tm_allocated].
    by rewrite decide_False by lia.
Qed.

Lemma Strs_sort__refused_scratch_is_sticky_witness :
  let m := sample_memory in
  let rt := set_oracle [false] fresh_runtime in
  let d := reordered.mk 2 7 (Some [sz_string_view.mk 1000 1; sz_string_view.mk 1002 2]) in
  ∃ rt1,
    Strs_sort_ m rt (STRS_REORDERED d) = Done (None, STRS_REORDERED d, rt1) ∧
    err rt1 = Some PyExc_MemoryError ∧
    blocks rt1 = blocks rt ∧
    temporary_memory rt1
    = mk_temporary_memory false (to_size_t (8 * reordered.count d)) ∧
    ∀ (m' : memory) (d' : reordered_slices_t) (rt2 : runtime),
      temporary_memory rt2 = temporary_memory rt1 →
      to_size_t (8 * reordered.count d') ≤ to_size_t (8 * reordered.count d) →
      (∃ rt3,
         Strs_sort_ m' rt2 (STRS_REORDERED d') = Done (None, STRS_REORDERED d', rt3) ∧
         err rt3 = Some PyExc_MemoryError ∧
         oracle rt3 = oracle rt2) ∧
      temporary_memory_allocate (to_size_t (8 * reordered.count d')) rt2 = (false, rt2).
Proof.
  intros m rt d.
  apply (Strs_sort__refused_scratch_is_sticky m rt d []).
  - vm_compute. reflexivity.
  - reflexivity.
Defined.

Lemma PyInit_stringzilla_granted rt :
  oracle rt = [] →
  oracle (PyInit_stringzilla rt) = [] ∧
  tm_allocated (temporary_memory (PyInit_stringzilla rt)) = true ∧
  blocks (PyInit_stringzilla rt) = blocks rt + 1.
Proof.
  intros Ho. unfold PyInit_stringzilla, malloc, next_allocation. rewrite Ho. simpl.
  by rewrite Ho.
Qed.

Lemma Strs_sort__reordered_blocks `{sz_sort_t} m rt d r self' rt' :
  tm_allocated (temporary_memory rt) = true →
  Strs_sort_ m rt (STRS_REORDERED d) = Done (r, self', rt') →
  blocks rt' = blocks rt.
Proof.
  intros Htm. unfold Strs_sort_.
  cbn [prepare_strings_for_reordering mbind outcome_bind negb].
  case_decide as Hgrow.
  - unfold realloc, next_allocation. rewrite Htm.
    destruct (oracle rt) as [|[] o]; cbn [negb andb tm_allocated].
    + destruct (reordered.parts d); [|case_decide]; cbn [mbind outcome_bind];
        try done; by intros [= _ _ <-].
    + destruct (reordered.parts d); [|case_decide]; cbn [mbind outcome_bind];
        try done; by intros [= _ _ <-].
    + by intros [= _ _ <-].
  - rewrite Htm. cbn [negb].
    destruct (reordered.parts d); [|case_decide]; cbn [mbind outcome_bind];
      try done; by intros [= _ _ <-].
Qed.

(** X21. The module keeps one scratch block.  After [PyInit_stringzilla], a
    [sort()] of a valid reordered collection with an allocator that grants
    every request leaves one block more than before the initialisation, and
    [stringzilla_cleanup] frees it and resets the scratch buffer. *)
Theorem scratch_buffer_is_released `{sz_sort_t} (m : memory) (rt : runtime)
    (d : reordered_slices_t) :
  valid_collection (STRS_REORDERED d) → oracle rt = [] →
  ∃ sorted rt',
    Strs_sort m (PyInit_stringzilla rt) (STRS_REORDERED d) false
    = Done (true, sorted, rt') ∧
    blocks rt' = blocks rt + 1 ∧
    blocks (stringzilla_cleanup rt') = blocks rt ∧
    temporary_memory (stringzilla_cleanup rt') = mk_temporary_memory false 0.
Proof.
  intros Hvalid Ho.
  destruct (PyInit_stringzilla_granted rt Ho) as (Ho1 & Htm1 & Hb1).
  destruct (Strs_sort_valid m (PyInit_stringzilla rt) (STRS_REORDERED d)
              Hvalid Ho1 Htm1)
    as (sorted & rt' & ps & ps' & Hrun & _ & _ & _ & _ & _ & _ & Htm').
  exists sorted, rt'. split; [done|].
  assert (blocks rt' = blocks (PyInit_stringzilla rt)) as Hb.
  { unfold Strs_sort in Hrun.
    destruct (Strs_sort_ m (PyInit_stringzilla rt) (STRS_REORDERED d))
      as [[[r self1] rt1]| |] eqn:Hsort; cbn [mbind outcome_bind] in Hrun; try done.
    apply Strs_sort__reordered_blocks in Hsort; [|done].
    destruct r as [[[parts order] count]|]; [|done].
    cbn [mbind outcome_bind] in Hrun.
    destruct (apply_order _ _ _ _) as [[parts' order']| |];
      cbn [mbind outcome_bind] in Hrun; try done.
    by injection Hrun as _ <-. }
  unfold stringzilla_cleanup. rewrite Htm'. simpl.
  split; [lia|]. split; [lia|done].
Qed.

Lemma scratch_buffer_is_released_witness :
  let m := sample_memory in
  let d := reordered.mk 2 7 (Some [sz_string_view.mk 1002 2; sz_string_view.mk 1000 1]) in
  ∃ sorted rt',
    Strs_sort m (PyInit_stringzilla fresh_runtime) (STRS_REORDERED d) false
    = Done (true, sorted, rt') ∧
    blocks rt' = blocks fresh_runtime + 1 ∧
    blocks (stringzilla_cleanup rt') = blocks fresh_runtime ∧
    temporary_memory (stringzilla_cleanup rt') = mk_temporary_memory false 0.
Proof.
  intros m d. apply (scratch_buffer_is_released m fresh_runtime d).
  - reflexivity.
  - reflexivity.
Defined.

(** ** Collections: ownership, reversal and slices *)

Lemma Str_split_loop_returns m text separator maxsplit wide fuel :
  ∀ rt l l' rt',
    0 ≤ offsets_count l ≤ to_size_t maxsplit →
    Str_split_loop fuel m text separator maxsplit wide rt l = Done (Some l', rt') →
    0 ≤ offsets_count l' ≤ to_size_t maxsplit ∧
    ob_refcnt rt' = ob_refcnt rt ∧ objects rt' = objects rt ∧ err rt' = err rt ∧
    blocks rt' = blocks rt
                 + (if offsets_endings l' is Some _ then 1 else 0)
                 - (if offsets_endings l is Some _ then 1 else 0).
Proof.
  assert (SIZE_MAX = 18446744073709551615) as HSM by reflexivity.
  assert (to_size_t maxsplit ≤ SIZE_MAX) as HM.
  { unfold to_size_t. pose proof (Z.mod_pos_bound maxsplit (SIZE_MAX + 1)). lia. }
  induction fuel as [|fuel IH]; intros rt l l' rt' Hcount; [discriminate|].
  cbn [Str_split_loop]. case_decide as Hcond.
  2:{ intros [= <- <-].
      repeat split; try done; try lia; try (destruct (offsets_endings l); lia). }
  destruct (reallocate_offsets l rt) as [[capacity endings] rt1] eqn:Hgrow.
  assert (ob_refcnt rt1 = ob_refcnt rt ∧ objects rt1 = objects rt ∧ err rt1 = err rt ∧
          blocks rt1 = blocks rt
                       + (if endings is Some _ then 1 else 0)
                       - (if offsets_endings l is Some _ then 1 else 0))
    as (Hrc & Hob & Her & Hbl).
  { unfold reallocate_offsets in Hgrow. case_decide as Hfull.
    - destruct (realloc _ rt) as [ok rt2] eqn:Hre.
      apply realloc_same in Hre as [(Hrc & Hob & Her & _) Hbl].
      destruct ok; injection Hgrow as <- <- <-;
        destruct (offsets_endings l); simpl in *; repeat split; try done; lia.
    - injection Hgrow as <- <- <-.
      destruct (offsets_endings l); repeat split; lia. }
  destruct endings as [b|]; [|discriminate].
  destruct (store_at _ _ _) as [endings1| |] eqn:Hst; simpl; try discriminate.
  apply store_at_Done in Hst as (a & _ & _ & ->).
  intros Hrun. apply IH in Hrun as (Hc & Hr & Ho & He & Hb).
  2:{ simpl. rewrite to_size_t_small by lia. lia. }
  simpl in Hb. rewrite Hr, Ho, He, Hb, Hbl, Hob, Hrc, Her. repeat split; lia.
Qed.

(** X29. Whenever [Str_split_] returns a collection, it has at most
    [maxsplit] parts and the given parent; the reference count of the parent
    has gone up by one and no other count has moved; one object and at most
    one block have been allocated; the error indicator is left as it was. *)
Theorem Str_split_takes_one_reference (fuel : nat) (m : memory) (rt : runtime)
    (parent : PyObject) (text separator : sz_string_view_t)
    (keepseparator maxsplit : Z) (strs : Strs) (rt' : runtime) :
  Str_split_ fuel m rt parent text separator keepseparator maxsplit
  = Done (Some strs, rt') →
  0 ≤ Strs_len strs ≤ to_size_t maxsplit ∧
  Strs_parent strs = parent ∧
  ob_refcnt rt' parent = ob_refcnt rt parent + 1 ∧
  (∀ o, o ≠ parent → ob_refcnt rt' o = ob_refcnt rt o) ∧
  objects rt' = objects rt + 1 ∧
  blocks rt ≤ blocks rt' ≤ blocks rt + 1 ∧
  err rt' = err rt.
Proof.
  unfold Str_split_. destruct (PyObject_New rt) as [ok rt1] eqn:Hnew.
  apply PyObject_New_same in Hnew as (Hrc & Hbl & Hob & Herr).
  destruct ok; cbn [negb]; [|done].
  destruct (Str_split_loop _ _ _ _ _ _ _ _) as [[[l|] rt2]| |] eqn:Hloop;
    cbn [mbind outcome_bind]; try done.
  apply Str_split_loop_returns in Hloop as (Hc & Hr & Ho & He & Hb).
  2:{ simpl. unfold to_size_t. pose proof (Z.mod_pos_bound maxsplit (SIZE_MAX + 1)).
      assert (SIZE_MAX = 18446744073709551615) as HSM by reflexivity. lia. }
  intros [= <- <-]. simpl in Hb.
  split; [by destruct (bool_decide _)|].
  split; [by destruct (bool_decide _)|].
  simpl. rewrite decide_True by done. rewrite Hr, Hrc, Ho, Hob, He, Herr.
  split; [done|]. split; [intros o Hne; by rewrite decide_False|].
  split; [done|]. split; [|done].
  rewrite Hb, Hbl. destruct (offsets_endings l); lia.
Qed.

Lemma Str_split_takes_one_reference_witness :
  let r := Str_split_ 10 sample_memory fresh_runtime 7 sample_text sample_separator 0 2 in
  let strs := STRS_CONSECUTIVE_32 (consecutive.mk 2 1 7 1000 (Some [2; 5])) in
  let rt' := match r with Done (_, rt') => rt' | _ => fresh_runtime end in
  0 ≤ Strs_len strs ≤ to_size_t 2 ∧
  Strs_parent strs = 7 ∧
  ob_refcnt rt' 7 = ob_refcnt fresh_runtime 7 + 1 ∧
  (∀ o, o ≠ 7 → ob_refcnt rt' o = ob_refcnt fresh_runtime o) ∧
  objects rt' = objects fresh_runtime + 1 ∧
  blocks fresh_runtime ≤ blocks rt' ≤ blocks fresh_runtime + 1 ∧
  err rt' = err fresh_runtime.
Proof.
  intros r strs rt'.
  apply (Str_split_takes_one_reference 10 sample_memory fresh_runtime 7 sample_text
           sample_separator 0 2 strs rt').
  reflexivity.
Defined.

Lemma reverse_haystacks_loop_spec : ∀ fuel (mid A B : list sz_string_view_t),
  (length mid ≤ fuel)%nat →
  (1 ≤ length A + length mid)%nat →
  Z.of_nat (length A + length mid) ≤ SIZE_MAX →
  reverse_haystacks_loop fuel (Z.of_nat (length A))
    (Z.of_nat (length A + length mid) - 1) (A ++ mid ++ B)
  = Done (A ++ reverse mid ++ B).
Proof.
  assert (SIZE_MAX = 18446744073709551615) as HSM by reflexivity.
  induction fuel as [|fuel IH]; intros mid A B Hfuel Hne Hmax.
  { destruct mid; [|simpl in Hfuel; lia]. simpl.
    rewrite decide_False by lia. done. }
  destruct (list_ends mid) as [-> | [[x ->] | (x & mid' & y & ->)]].
  - cbn [reverse_haystacks_loop]. rewrite decide_False by (simpl; lia). done.
  - cbn [reverse_haystacks_loop]. rewrite decide_False by (simpl; lia). done.
  - cbn [reverse_haystacks_loop]. rewrite length_cons, length_app in *. simpl in *.
    rewrite decide_True by lia.
    rewrite <- (app_assoc mid' [y] B). simpl.
    set (i := Z.of_nat (length A)).
    set (j := Z.of_nat (length A + S (length mid' + 1)) - 1).
    rewrite (load_at_middle A (mid' ++ y :: B) x i eq_refl). cbn [mbind outcome_bind].
    replace (A ++ x :: mid' ++ y :: B) with ((A ++ x :: mid') ++ y :: B)
      by (by rewrite <- app_assoc).
    rewrite (load_at_middle (A ++ x :: mid') B y j)
      by (subst j; rewrite length_app; simpl; lia).
    cbn [mbind outcome_bind]. rewrite <- app_assoc. simpl.
    rewrite (store_middle A (mid' ++ y :: B) x y i eq_refl). cbn [mbind outcome_bind].
    replace (A ++ y :: mid' ++ y :: B) with ((A ++ y :: mid') ++ y :: B)
      by (by rewrite <- app_assoc).
    rewrite (store_middle (A ++ y :: mid') B y x j)
      by (subst j; rewrite length_app; simpl; lia).
    cbn [mbind outcome_bind]. subst i j.
    rewrite !to_size_t_small by lia.
    specialize (IH mid' (A ++ [y]) (x :: B)).
    rewrite length_app in IH. simpl in IH.
    replace (Z.of_nat (length A) + 1) with (Z.of_nat (length A + 1)) by lia.
    replace (Z.of_nat (length A + S (length mid' + 1)) - 1 - 1)
      with (Z.of_nat (length A + 1 + length mid') - 1) by lia.
    replace ((A ++ y :: mid') ++ x :: B) with ((A ++ [y]) ++ mid' ++ x :: B)
      by (by rewrite <- !app_assoc).
    rewrite IH by lia.
    rewrite reverse_cons, reverse_snoc. f_equal. by rewrite <- !app_assoc.
Qed.

(** X22. [reverse_offsets] and [reverse_haystacks], given a non-empty array
    and its length, return and leave the array reversed;
    [reverse_haystacks] with length 0 computes [j = length - 1] in [size_t]
    and accesses the array outside its bounds, as [reverse_offsets] does. *)
Theorem reverse_in_place (offsets : list nat) (haystacks : list sz_string_view_t) :
  (1 ≤ length offsets)%nat → Z.of_nat (length offsets) ≤ SIZE_MAX →
  (1 ≤ length haystacks)%nat → Z.of_nat (length haystacks) ≤ SIZE_MAX →
  reverse_offsets offsets (Z.of_nat (length offsets)) = Done (reverse offsets) ∧
  reverse_haystacks haystacks (Z.of_nat (length haystacks)) = Done (reverse haystacks) ∧
  reverse_haystacks [] 0 = Fault OutOfBounds.
Proof.
  intros Ho1 Ho2 Hh1 Hh2. split; [by apply reverse_offsets_reverse|]. split; [|done].
  unfold reverse_haystacks.
  assert (SIZE_MAX = 18446744073709551615) as HSM by reflexivity.
  rewrite to_size_t_small by lia.
  pose proof (reverse_haystacks_loop_spec (S (Z.to_nat (Z.of_nat (length haystacks))))
                haystacks [] []) as H.
  simpl in H. rewrite !app_nil_r in H. apply H; lia.
Qed.

Lemma reverse_in_place_witness :
  let offsets := [2; 0; 1]%nat in
  let haystacks := [sz_string_view.mk 1000 1; sz_string_view.mk 1002 2] in
  reverse_offsets offsets (Z.of_nat (length offsets)) = Done (reverse offsets) ∧
  reverse_haystacks haystacks (Z.of_nat (length haystacks)) = Done (reverse haystacks) ∧
  reverse_haystacks [] 0 = Fault OutOfBounds.
Proof.
  intros offsets haystacks. apply (reverse_in_place offsets haystacks).
  - simpl. lia.
  - simpl. unfold SIZE_MAX. lia.
  - simpl. lia.
  - simpl. unfold SIZE_MAX. lia.
Defined.

(** X24. For a reordered collection, a sub-range [start, stop) within it and
    an allocator that grants every request: when the collection has a
    parent, the slice has [stop - start] parts, part [k] of the slice is
    part [start + k] of the original for every [k], and the reference count
    of the parent goes up by one; when the parent is [NULL], as it is for a
    collection that was created empty and then sorted, [Py_INCREF] of line
    785 dereferences [NULL]. *)
Theorem Strs_subscript_reordered_parts (rt : runtime) (d : reordered_slices_t)
    (ps : list sz_string_view_t) (start stop : Z) :
  reordered.parts d = Some ps → Z.of_nat (length ps) = reordered.count d →
  0 ≤ start ≤ stop → stop ≤ reordered.count d → reordered.count d ≤ SIZE_MAX →
  oracle rt = [] →
  (reordered.parent d ≠ 0 →
   ∃ slice rt',
     Strs_subscript rt (STRS_REORDERED d) start stop 1 = Done (Some slice, rt') ∧
     Strs_len slice = stop - start ∧
     (∀ k, 0 ≤ k < stop - start →
           observable_part slice k = observable_part (STRS_REORDERED d) (start + k)) ∧
     ob_refcnt rt' (reordered.parent d) = ob_refcnt rt (reordered.parent d) + 1) ∧
  (reordered.parent d = 0 →
   Strs_subscript rt (STRS_REORDERED d) start stop 1 = Fault NullDereference).
Proof.
  intros Hps Hlen Hstart Hstop Hmax Ho.
  assert (SIZE_MAX = 18446744073709551615) as HSM by reflexivity.
  unfold Strs_subscript. rewrite decide_False by (intros H; by apply H).
  unfold PyObject_New, malloc, next_allocation. rewrite Ho. cbn [negb].
  cbn [oracle set_objects]. rewrite Ho. cbn [Strs_len].
  rewrite (to_size_t_small (stop - start)) by lia.
  rewrite Hps. unfold memcpy_parts, fresh_block.
  destruct (decide (stop - start = 0)) as [He|Hne].
  - cbn [mbind outcome_bind].
    destruct (decide (reordered.parent d = 0)) as [Hp|Hp]; (split; [|done]); intros Hp'.
    + done.
    + eexists _, _. split; [reflexivity|].
      split; [done|]. split; [intros k Hk; lia|].
      simpl. by rewrite decide_True.
  - rewrite decide_True by (rewrite length_replicate; lia).
    cbn [mbind outcome_bind].
    destruct (decide (reordered.parent d = 0)) as [Hp|Hp]; (split; [|done]); intros Hp'.
    + done.
    + eexists _, _. split; [reflexivity|].
      split; [done|]. split.
      * intros k Hk. unfold observable_part. simpl. f_equal.
        unfold str_at_offset_reordered. simpl. rewrite Hps.
        destruct (lookup_lt_is_Some_2 ps (Z.to_nat (start + k))) as [v Hv]; [lia|].
        rewrite (load_at_lookup ps (start + k) v) by (lia || done).
        rewrite (load_at_lookup _ k v); [done | lia |].
        rewrite lookup_app_l by (rewrite length_take, length_drop; lia).
        rewrite lookup_take_lt by lia. rewrite lookup_drop.
        by replace (Z.to_nat start + Z.to_nat k)%nat with (Z.to_nat (start + k)) by lia.
      * simpl. by rewrite decide_True.
Qed.

Lemma Strs_subscript_reordered_parts_witness :
  let d := reordered.mk 3 7 (Some [sz_string_view.mk 1000 1; sz_string_view.mk 1002 2;
                                   sz_string_view.mk 1005 3]) in
  (∃ slice rt',
     Strs_subscript fresh_runtime (STRS_REORDERED d) 1 3 1 = Done (Some slice, rt') ∧
     Strs_len slice = 3 - 1 ∧
     (∀ k, 0 ≤ k < 3 - 1 →
           observable_part slice k = observable_part (STRS_REORDERED d) (1 + k)) ∧
     ob_refcnt rt' (reordered.parent d) = ob_refcnt fresh_runtime (reordered.parent d) + 1) ∧
  Strs_subscript fresh_runtime (STRS_REORDERED (reordered.mk 0 0 (Some []))) 0 0 1
  = Fault NullDereference.
Proof.
  intros d. split.
  - apply (Strs_subscript_reordered_parts fresh_runtime d
             [sz_string_view.mk 1000 1; sz_string_view.mk 1002 2; sz_string_view.mk 1005 3]
             1 3).
    + reflexivity.
    + reflexivity.
    + lia.
    + simpl. lia.
    + simpl. unfold SIZE_MAX. lia.
    + reflexivity.
    + simpl. lia.
  - apply (Strs_subscript_reordered_parts fresh_runtime (reordered.mk 0 0 (Some [])) [] 0 0).
    + reflexivity.
    + reflexivity.
    + lia.
    + simpl. lia.
    + simpl. unfold SIZE_MAX. lia.
    + reflexivity.
    + reflexivity.
Defined.

Lemma Strs_subscript_consecutive_parts_witness :
  let d := consecutive.mk 3 1 7 1000 (Some [2; 5; 8]) in
  ∃ slice rt',
    Strs_subscript fresh_runtime (STRS_CONSECUTIVE_32 d) 1 3 1 = Done (Some slice, rt') ∧
    Strs_len slice = 3 - 1 ∧
    ∀ k, 0 ≤ k < 3 - 1 →
      (k + 1 < 3 - 1 ∨ 3 = consecutive.count d ∨ consecutive.separator_length d = 0) →
      observable_part slice k = observable_part (STRS_CONSECUTIVE_32 d) (1 + k).
Proof.
  intros d.
  apply (Strs_subscript_consecutive_parts false fresh_runtime d [2; 5; 8] 1 3).
  - reflexivity.
  - simpl. lia.
  - intros i j x y Hij Hj Hi Hjj.
    destruct i as [|[|[|i]]], j as [|[|[|j]]]; simpl in *; simplify_eq;
      unfold UINT32_MAX; lia.
  - simpl. lia.
  - simpl. unfold SIZE_MAX. lia.
  - reflexivity.
Defined.

Lemma Strs_order_reverse_nonempty_witness :
  ∃ indices self' rt1 rt2,
    Strs_order sample_memory (PyInit_stringzilla fresh_runtime) sample_strs false
    = Done (Some indices, self', rt1) ∧
    Strs_order sample_memory (PyInit_stringzilla fresh_runtime) sample_strs true
    = Done (Some (reverse indices), self', rt2).
Proof.
  apply (Strs_order_reverse_nonempty sample_memory (PyInit_stringzilla fresh_runtime)
           sample_strs).
  - unfold valid_collection, block_holds. simpl. lia.
  - simpl. unfold SIZE_MAX. lia.
  - reflexivity.
  - reflexivity.
Defined.

Lemma Strs_shuffle_permutes_witness :
  ∃ shuffled rt' before after,
    @Strs_shuffle rand_example fresh_runtime sample_strs 42 = Done (true, shuffled, rt') ∧
    parts_bytes sample_memory sample_strs = Some before ∧
    parts_bytes sample_memory shuffled = Some after ∧
    after ≡ₚ before.
Proof.
  apply (@Strs_shuffle_permutes rand_example sample_memory fresh_runtime sample_strs 42).
  - unfold valid_collection, block_holds. simpl. lia.
  - simpl. unfold SIZE_MAX. lia.
  - reflexivity.
Defined.

Lemma Str_split_empty_source_witness :
  ∃ strs rt',
    Str_split_ 2 sample_memory fresh_runtime 7 (sz_string_view.mk 1000 0)
      sample_separator 0 PY_SSIZE_T_MAX
    = Done (Some strs, rt') ∧
    Strs_len strs = 1 ∧
    parts_bytes sample_memory strs = Some [[]].
Proof.
  apply (Str_split_empty_source sample_memory fresh_runtime 7 1000 sample_separator 0
           PY_SSIZE_T_MAX 0).
  - simpl. unfold SIZE_MAX. lia.
  - vm_compute. reflexivity.
  - reflexivity.
Defined.

(** ** Slices: a refused buffer *)

(** X30. When the allocator grants the object of a slice and refuses its
    buffer, [Strs_subscript] on a valid collection with a non-empty range
    [start, stop) does not return: [PyErr_NoMemory] returns [NULL], so the
    guard after [malloc] does not fire, and the copy that follows writes
    through the [NULL] pointer. *)
Theorem Strs_subscript_refused_buffer (rt : runtime) (self : Strs) (start stop : Z)
    (rest : list bool) :
  valid_collection self →
  0 ≤ start < stop → stop ≤ Strs_len self → Strs_len self ≤ SIZE_MAX →
  oracle rt = true :: false :: rest →
  Strs_subscript rt self start stop 1 = Fault NullDereference.
Proof.
  intros Hvalid Hstart Hstop Hmax Ho.
  assert (SIZE_MAX = 18446744073709551615) as HSM by reflexivity.
  unfold Strs_subscript. rewrite decide_False by (intros H; by apply H).
  unfold PyObject_New, next_allocation. rewrite Ho. cbn [negb].
  assert (∀ conv d, block_holds (consecutive.end_offsets d) (consecutive.count d) →
            0 ≤ start < stop → stop ≤ consecutive.count d →
            consecutive.count d ≤ SIZE_MAX →
            consecutive_logic conv
              (set_objects (objects (set_oracle (false :: rest) rt) + 1)
                 (set_oracle (false :: rest) rt))
              d (consecutive.count d) start stop
            = Fault NullDereference) as Hcons.
  { intros conv d Hholds Hs1 Hs2 Hm. unfold consecutive_logic.
    destruct (str_at_offset_consecutive_holds conv d (consecutive.count d) start Hholds)
      as [p ->]; [lia|].
    cbn [mbind outcome_bind]. unfold malloc, next_allocation. simpl.
    rewrite (to_size_t_small (stop - start)) by lia.
    destruct (Z.to_nat (stop - start)) as [|todo] eqn:Htodo; [lia|].
    cbn [rebase_offsets].
    destruct (load_at_holds _ _ (0 + start) Hholds ltac:(lia)) as (a & v & _ & _ & ->).
    done. }
  destruct self as [d|d|d|]; simpl in Hvalid, Hstop, Hmax; try done.
  - cbn [Strs_len]. by rewrite Hcons.
  - cbn [Strs_len]. by rewrite Hcons.
  - unfold malloc, next_allocation. simpl.
    rewrite (to_size_t_small (stop - start)) by lia.
    unfold memcpy_parts. rewrite decide_False by lia. done.
Qed.

Lemma Strs_subscript_refused_buffer_witness :
  Strs_subscript (set_oracle [true; false] fresh_runtime) sample_strs 0 2 1
  = Fault NullDereference.
Proof.
  apply (Strs_subscript_refused_buffer (set_oracle [true; false] fresh_runtime)
           sample_strs 0 2 []).
  - unfold valid_collection, block_holds. simpl. lia.
  - lia.
  - simpl. lia.
  - simpl. unfold SIZE_MAX. lia.
  - reflexivity.
Defined.
